(** * A shallow embedding of [advanced-vector/vector.h]

    The header defines two class templates: [RawMemory<T>], the owner of a
    block of raw storage, and [Vector<T>], the dynamic array built on top of it.
    The embedding keeps the layering of the source:

    - the payload type [T] and the behaviour of its special member functions
      are a parameter ([Payload]);
    - raw storage lives in a heap of blocks, every slot of a block being either
      raw or holding a live [T];
    - [Vector] objects live in an object store and are designated by their
      address [this], so that [this != &rhs] and aliasing arguments mean what
      they mean in C++;
    - member functions are computations in a state monad with three outcomes:
      normal return, a propagating C++ exception, and abnormal termination
      (failed [assert], [std::terminate], undefined behaviour). *)

From stdpp Require Import gmap list.

(** ** The payload type *)

(** What [Vector<T>] sees of [T] and of the allocator: the size of [T], the
    three type traits the header branches on, the behaviour of the special
    member functions it calls, and the largest request [operator new]
    serves.  Copying and value initialisation may throw; whether they do
    is decided by the payload from the value at hand and a payload-global
    environment [Env] (think of the static countdown test payloads use to
    throw on the n-th copy).  A copy that completes yields a value equal
    to its source.

    Two idealisations:
    - moves are embedded as they run when they do not throw: they hand the
      value over and leave [moved_from x] behind.  That is the source when
      the move constructor and the move assignment of [T] are [noexcept];
      the traits state that assumption;
    - [operator new] is embedded as it behaves on a request it can serve.
      The header computes the request as [n * sizeof(T)] in [size_t]
      ([Allocate_request]); a request that wraps around or that no
      allocator serves is outside the embedding, and [allocatable] states
      that assumption for a number of slots chosen by the caller. *)
Class Payload : Type := {
  T : Type;
  Env : Type;
  (** [sizeof(T)], in bytes *)
  sizeof_T : positive;
  (** the largest request, in bytes, that [operator new] serves where the
      program runs *)
  max_alloc : N;
  is_nothrow_move_constructible : bool;
  is_copy_constructible : bool;
  is_nothrow_move_assignable : bool;
  (** the value of [T()] *)
  value_init : T;
  (** does [T()] complete ([true]) or throw ([false]) *)
  value_construct : Env → bool * Env;
  (** does [T(const T&)] from the given source complete *)
  copy_construct : T → Env → bool * Env;
  (** does [dst = src] complete; arguments: old destination value, source *)
  copy_assign : T → T → Env → bool * Env;
  (** what a move leaves in its source *)
  moved_from : T → T
}.

(** ** Outcomes *)

(** How a call ends: it returns a value, it leaves by a C++ exception, or the
    program is over (a failed [assert], [std::terminate], or behaviour the
    language leaves undefined). *)
Inductive outcome (A : Type) : Type :=
  | Ok (a : A)
  | Throw
  | Abort.
Arguments Ok {A} a.
Arguments Throw {A}.
Arguments Abort {A}.

(** A [T*]: null, or a block of the heap and a slot offset in it. *)
Record ptr : Type := Ptr { block : option nat; off : nat }.

#[global] Instance ptr_eq_dec : EqDecision ptr.
Proof. solve_decision. Defined.

Definition nullptr : ptr := Ptr None 0.

Definition ptr_add (p : ptr) (n : nat) : ptr := Ptr (block p) (off p + n).

Record RawMemory : Type := { buffer_ : ptr; capacity_ : nat }.

Record Vector : Type := { data_ : RawMemory; size_ : nat }.

Section WithPayload.
Context `{P : Payload}.

(** ** Memory *)

(** A slot of raw storage. *)
Inductive slot : Type :=
  | Raw
  | Live (x : T).

Definition is_live (s : slot) : bool :=
  match s with Live _ => true | Raw => false end.

Definition is_raw (s : slot) : bool :=
  match s with Raw => true | Live _ => false end.

Record state : Type := {
  objs : gmap nat Vector;
  heap : gmap nat (list slot);
  env : Env
}.

Definition set_objs (o : gmap nat Vector) (s : state) : state :=
  {| objs := o; heap := heap s; env := env s |}.

Definition set_heap (h : gmap nat (list slot)) (s : state) : state :=
  {| objs := objs s; heap := h; env := env s |}.

Definition set_env (w : Env) (s : state) : state :=
  {| objs := objs s; heap := heap s; env := w |}.

(** ** The monad *)

Definition M (A : Type) : Type := state → outcome A * state.

Definition ret {A} (a : A) : M A := λ s, (Ok a, s).

Definition bind {A B} (m : M A) (f : A → M B) : M B :=
  λ s, match m s with
       | (Ok a, s') => f a s'
       | (Throw, s') => (Throw, s')
       | (Abort, s') => (Abort, s')
       end.

Definition throw {A} : M A := λ s, (Throw, s).

Definition abort {A} : M A := λ s, (Abort, s).

(** Stack unwinding: when [m] throws, run [cleanup] (the destructors of the
    locals in scope, or a [catch (...)] block ending in [throw;]) and let the
    exception go on. *)
Definition on_throw {A} (m : M A) (cleanup : M unit) : M A :=
  λ s, match m s with
       | (Throw, s') =>
           match cleanup s' with
           | (Ok _, s'') => (Throw, s'')
           | (_, s'') => (Abort, s'')
           end
       | r => r
       end.

(** A [noexcept] function: an exception that reaches its boundary calls
    [std::terminate]. *)
Definition noexcept {A} (m : M A) : M A :=
  λ s, match m s with
       | (Throw, s') => (Abort, s')
       | r => r
       end.

Definition assert (b : bool) : M unit := if b then ret () else abort.

Notation "x <- m ;; k" := (bind m (λ x, k))
  (at level 100, m at next level, right associativity).
Notation "m >> k" := (bind m (λ _, k))
  (at level 100, right associativity).

(** ** Slots and pointers *)

Definition slot_at (p : ptr) : M slot :=
  λ s, match block p with
       | None => (Abort, s)
       | Some a =>
           match heap s !! a with
           | None => (Abort, s)
           | Some blk =>
               match blk !! off p with
               | None => (Abort, s)
               | Some sl => (Ok sl, s)
               end
           end
       end.

Definition set_slot (p : ptr) (sl : slot) : M unit :=
  λ s, match block p with
       | None => (Abort, s)
       | Some a =>
           match heap s !! a with
           | None => (Abort, s)
           | Some blk =>
               if decide (off p < length blk)
               then (Ok (), set_heap (<[a := <[off p := sl]> blk]> (heap s)) s)
               else (Abort, s)
           end
       end.

(** Reading through [p] as a [T]: the slot must hold a live object. *)
Definition load (p : ptr) : M T :=
  sl <- slot_at p;;
  match sl with Live x => ret x | Raw => abort end.

(** The slot [p] is raw and becomes a live object of value [x]. *)
Definition emplace_slot (p : ptr) (x : T) : M unit :=
  sl <- slot_at p;;
  match sl with Raw => set_slot p (Live x) | Live _ => abort end.

(** The live object at [p] takes the value [x]. *)
Definition store (p : ptr) (x : T) : M unit :=
  sl <- slot_at p;;
  match sl with Live _ => set_slot p (Live x) | Raw => abort end.

(** [std::destroy_at(p)]: the live object at [p] ends, its slot is raw again. *)
Definition destroy_at (p : ptr) : M unit :=
  sl <- slot_at p;;
  match sl with Live _ => set_slot p Raw | Raw => abort end.

(** [p - n] on pointers; leaving the block at its start is undefined. *)
Definition ptr_sub (p : ptr) (n : nat) : M ptr :=
  if decide (n ≤ off p) then ret (Ptr (block p) (off p - n)) else abort.

(** [p - q] as a [size_t]: pointers into different blocks are undefined, and a
    negative difference wraps to a value that fails every assertion on it. *)
Definition ptr_diff (p q : ptr) : M nat :=
  if decide (block p = block q) then
    if decide (off q ≤ off p) then ret (off p - off q) else abort
  else abort.

(** The byte count [Allocate(n)] hands to [operator new]: [n * sizeof(T)],
    computed in the 64-bit [size_t]. *)
Definition Allocate_request (n : N) : N :=
  ((n * Npos sizeof_T) mod 2 ^ 64)%N.

(** A request for [n] slots is one [operator new] can serve: the byte count
    is that of [n] slots (the product has not wrapped around) and it is
    within the allocator's reach. *)
Definition allocatable (n : nat) : Prop :=
  Allocate_request (N.of_nat n) = (N.of_nat n * Npos sizeof_T)%N ∧
  (Allocate_request (N.of_nat n) ≤ max_alloc)%N.

(** [operator new(n * sizeof(T))] for [n ≠ 0], on a request it serves: a
    fresh block of [n] raw slots.  What the header does on a request that is
    not [allocatable] (a wrapped byte count gives a smaller block, a huge one
    throws [std::bad_alloc]) is not embedded. *)
Definition operator_new (n : nat) : M ptr :=
  λ s, let a := fresh (dom (heap s)) in
       (Ok (Ptr (Some a) 0), set_heap (<[a := replicate n Raw]> (heap s)) s).

(** [operator delete(buf)]: nothing for a null pointer; otherwise [buf] is the
    start of a block, which is released without a look at its slots. *)
Definition operator_delete (buf : ptr) : M unit :=
  λ s, match block buf with
       | None => (Ok (), s)
       | Some a =>
           match heap s !! a with
           | Some _ =>
               if decide (off buf = 0)
               then (Ok (), set_heap (delete a (heap s)) s)
               else (Abort, s)
           | None => (Abort, s)
           end
       end.

(** ** Special member functions of [T] *)

Definition attempt (f : Env → bool * Env) : M unit :=
  λ s, let (ok, w) := f (env s) in
       if ok then (Ok (), set_env w s) else (Throw, set_env w s).

(** What a constructor of [T] is called with: [const T&] (copy) or [T&&]
    (move), the reference designating an object somewhere in memory. *)
Inductive ctor_args : Type :=
  | ByCopy (src : ptr)
  | ByMove (src : ptr).

(** The value a new [T] gets from its constructor arguments.  The move
    constructor is embedded as it runs when it does not throw. *)
Definition T_ctor (args : ctor_args) : M T :=
  match args with
  | ByCopy src =>
      x <- load src;;
      attempt (copy_construct x) >>
      ret x
  | ByMove src =>
      x <- load src;;
      store src (moved_from x) >>
      ret x
  end.

(** [std::construct_at(p, args...)] *)
Definition construct_at (p : ptr) (args : ctor_args) : M unit :=
  x <- T_ctor args;;
  emplace_slot p x.

(** [std::construct_at(p)], value initialisation *)
Definition value_construct_at (p : ptr) : M unit :=
  attempt (value_construct) >>
  emplace_slot p (value_init).

(** Copy assignment of the object at [src] to the object at [dst]. *)
Definition T_copy_assign (dst src : ptr) : M unit :=
  y <- load dst;;
  x <- load src;;
  attempt (copy_assign y x) >>
  store dst x.

(** Move assignment of the object at [src] to the object at [dst], as it
    runs when it does not throw. *)
Definition T_move_assign (dst src : ptr) : M unit :=
  x <- load src;;
  store src (moved_from x) >>
  store dst x.

(** ** Algorithms of the standard library, as the header uses them *)

(** [std::uninitialized_copy_n]: on an exception the objects constructed so
    far are destroyed (in an order the standard leaves open) and the exception
    goes on. *)
Fixpoint uninitialized_copy_n (first : ptr) (count : nat) (d_first : ptr) : M ptr :=
  match count with
  | 0 => ret d_first
  | S k =>
      construct_at d_first (ByCopy first) >>
      on_throw (uninitialized_copy_n (ptr_add first 1) k (ptr_add d_first 1))
               (destroy_at d_first)
  end.

Fixpoint uninitialized_move_n (first : ptr) (count : nat) (d_first : ptr) : M ptr :=
  match count with
  | 0 => ret d_first
  | S k =>
      construct_at d_first (ByMove first) >>
      uninitialized_move_n (ptr_add first 1) k (ptr_add d_first 1)
  end.

Fixpoint uninitialized_value_construct_n (first : ptr) (count : nat) : M ptr :=
  match count with
  | 0 => ret first
  | S k =>
      value_construct_at first >>
      on_throw (uninitialized_value_construct_n (ptr_add first 1) k)
               (destroy_at first)
  end.

Fixpoint destroy_n (first : ptr) (count : nat) : M ptr :=
  match count with
  | 0 => ret first
  | S k => destroy_at first >> destroy_n (ptr_add first 1) k
  end.

(** [std::copy_n]: copy assignment, front to back. *)
Fixpoint copy_n (first : ptr) (count : nat) (d_first : ptr) : M ptr :=
  match count with
  | 0 => ret d_first
  | S k =>
      T_copy_assign d_first first >>
      copy_n (ptr_add first 1) k (ptr_add d_first 1)
  end.

Fixpoint move_n (first : ptr) (count : nat) (d_first : ptr) : M ptr :=
  match count with
  | 0 => ret d_first
  | S k =>
      T_move_assign d_first first >>
      move_n (ptr_add first 1) k (ptr_add d_first 1)
  end.

(** [std::copy(first, last, d_first)] *)
Definition std_copy (first last d_first : ptr) : M ptr :=
  n <- ptr_diff last first;;
  copy_n first n d_first.

(** [std::move(first, last, d_first)], the algorithm *)
Definition std_move (first last d_first : ptr) : M ptr :=
  n <- ptr_diff last first;;
  move_n first n d_first.

(** The loop of [std::move_backward]: [count] times, both iterators step
    back by one and the object at [last] is move-assigned to the one at
    [d_last]. *)
Fixpoint move_backward_n (count : nat) (last d_last : ptr) : M ptr :=
  match count with
  | 0 => ret d_last
  | S k =>
      last' <- ptr_sub last 1;;
      d_last' <- ptr_sub d_last 1;;
      T_move_assign d_last' last' >>
      move_backward_n k last' d_last'
  end.

Definition move_backward (first last d_last : ptr) : M ptr :=
  n <- ptr_diff last first;;
  move_backward_n n last d_last.

(** ** The object store *)

Definition read (this : nat) : M Vector :=
  λ s, match objs s !! this with
       | Some v => (Ok v, s)
       | None => (Abort, s)
       end.

Definition write (this : nat) (v : Vector) : M unit :=
  λ s, (Ok (), set_objs (<[this := v]> (objs s)) s).

(** The storage of the object at [this] is given back. *)
Definition discard (this : nat) : M unit :=
  λ s, (Ok (), set_objs (delete this (objs s)) s).

(** Storage for a local [Vector]: an address no object lives at. *)
Definition alloca : M nat :=
  λ s, (Ok (fresh (dom (objs s))), s).

Definition set_data (this : nat) (d : RawMemory) : M unit :=
  v <- read this;;
  write this {| data_ := d; size_ := size_ v |}.

Definition set_size (this : nat) (n : nat) : M unit :=
  v <- read this;;
  write this {| data_ := data_ v; size_ := n |}.

(** ** [RawMemory<T>] *)

(** A [RawMemory] is a member of a [Vector] in the object store or a local of
    a member function; its member functions take and give back its value. *)

Definition RawMemory_Allocate (n : nat) : M ptr :=
  if decide (n ≠ 0) then operator_new n else ret nullptr.

Definition RawMemory_Deallocate (buf : ptr) : M unit :=
  operator_delete buf.

(** [RawMemory() = default] *)
Definition RawMemory_default : RawMemory :=
  {| buffer_ := nullptr; capacity_ := 0 |}.

(** [explicit RawMemory(size_t capacity)] *)
Definition RawMemory_ctor (capacity : nat) : M RawMemory :=
  b <- RawMemory_Allocate capacity;;
  ret {| buffer_ := b; capacity_ := capacity |}.

(** [RawMemory(RawMemory&& other)]: the new object, and [other] afterwards. *)
Definition RawMemory_move_ctor (other : RawMemory) : RawMemory * RawMemory :=
  ({| buffer_ := buffer_ other; capacity_ := capacity_ other |},
   {| buffer_ := nullptr; capacity_ := 0 |}).

(** [operator=(RawMemory&& other)] for [this != &other] (the header assigns
    from a temporary only): the object, and [other], afterwards. *)
Definition RawMemory_move_assign (self other : RawMemory) : M (RawMemory * RawMemory) :=
  RawMemory_Deallocate (buffer_ self) >>
  ret ({| buffer_ := buffer_ other; capacity_ := capacity_ other |},
       {| buffer_ := nullptr; capacity_ := 0 |}).

(** [~RawMemory()] *)
Definition RawMemory_dtor (self : RawMemory) : M unit :=
  RawMemory_Deallocate (buffer_ self).

(** [operator+(size_t offset)] *)
Definition RawMemory_plus (self : RawMemory) (offset : nat) : M ptr :=
  assert (bool_decide (offset ≤ capacity_ self)) >>
  ret (ptr_add (buffer_ self) offset).

(** [operator[](size_t index)]; the [T&] is the address of the slot. *)
Definition RawMemory_index (self : RawMemory) (index : nat) : M ptr :=
  assert (bool_decide (index < capacity_ self)) >>
  ret (ptr_add (buffer_ self) index).

(** [Swap(RawMemory& other)]: the object, and [other], afterwards. *)
Definition RawMemory_Swap (self other : RawMemory) : RawMemory * RawMemory :=
  ({| buffer_ := buffer_ other; capacity_ := capacity_ other |},
   {| buffer_ := buffer_ self; capacity_ := capacity_ self |}).

Definition RawMemory_GetAddress (self : RawMemory) : ptr := buffer_ self.

Definition RawMemory_Capacity (self : RawMemory) : nat := capacity_ self.

(** ** [Vector<T>] *)

(** [begin()] and [cbegin()] *)
Definition Vector_begin (this : nat) : M ptr :=
  v <- read this;;
  ret (RawMemory_GetAddress (data_ v)).

(** [end()] and [cend()] *)
Definition Vector_end (this : nat) : M ptr :=
  v <- read this;;
  ret (ptr_add (RawMemory_GetAddress (data_ v)) (size_ v)).

Definition Vector_Size (this : nat) : M nat :=
  v <- read this;;
  ret (size_ v).

Definition Vector_Capacity (this : nat) : M nat :=
  v <- read this;;
  ret (RawMemory_Capacity (data_ v)).

(** [Vector() = default] *)
Definition Vector_default_ctor (this : nat) : M unit :=
  write this {| data_ := RawMemory_default; size_ := 0 |}.

(** [explicit Vector(size_t size)].  An exception from the body destroys the
    members already initialised; the object never comes to life. *)
Definition Vector_sized_ctor (this : nat) (size : nat) : M unit :=
  d <- RawMemory_ctor size;;
  write this {| data_ := d; size_ := size |} >>
  on_throw
    (v <- read this;;
     uninitialized_value_construct_n (RawMemory_GetAddress (data_ v)) size >>
     ret ())
    (v <- read this;;
     RawMemory_dtor (data_ v) >>
     discard this).

(** [Vector(const Vector& other)] *)
Definition Vector_copy_ctor (this other : nat) : M unit :=
  o <- read other;;
  d <- RawMemory_ctor (size_ o);;
  write this {| data_ := d; size_ := size_ o |} >>
  on_throw
    (o <- read other;;
     v <- read this;;
     uninitialized_copy_n (RawMemory_GetAddress (data_ o)) (size_ o)
                          (RawMemory_GetAddress (data_ v)) >>
     ret ())
    (v <- read this;;
     RawMemory_dtor (data_ v) >>
     discard this).

(** [Vector(Vector&& other) noexcept]: both members are initialised with
    [std::exchange], which moves the old value out, assigns the new one and
    returns the old one. *)
Definition Vector_move_ctor (this other : nat) : M unit :=
  noexcept
    (o <- read other;;
     let (old_data, moved_out) := RawMemory_move_ctor (data_ o) in
     r <- RawMemory_move_assign moved_out RawMemory_default;;
     set_data other (fst r) >>
     RawMemory_dtor (snd r) >>
     o <- read other;;
     let old_size := size_ o in
     set_size other 0 >>
     write this {| data_ := old_data; size_ := old_size |}).

(** [Swap(Vector& other) noexcept]: [data_.Swap(other.data_)], then
    [std::swap(size_, other.size_)], member by member as the code does, so
    that [other] may be the object itself. *)
Definition Vector_Swap (this other : nat) : M unit :=
  noexcept
    (v <- read this;;
     o <- read other;;
     let (d, od) := RawMemory_Swap (data_ v) (data_ o) in
     set_data this d >>
     set_data other od >>
     v <- read this;;
     o <- read other;;
     set_size this (size_ o) >>
     set_size other (size_ v)).

(** [~Vector()], followed by the destruction of the member [data_]. *)
Definition Vector_dtor (this : nat) : M unit :=
  v <- read this;;
  destroy_n (RawMemory_GetAddress (data_ v)) (size_ v) >>
  RawMemory_dtor (data_ v) >>
  discard this.

(** [operator=(const Vector& rhs)] *)
Definition Vector_copy_assign (this rhs : nat) : M unit :=
  if decide (this ≠ rhs) then
    r <- read rhs;;
    v <- read this;;
    if decide (RawMemory_Capacity (data_ v) < size_ r) then
      rhs_copy <- alloca;;
      Vector_copy_ctor rhs_copy rhs >>
      Vector_Swap this rhs_copy >>
      Vector_dtor rhs_copy
    else
      (if decide (size_ r < size_ v) then
         copy_n (RawMemory_GetAddress (data_ r)) (size_ r)
                (RawMemory_GetAddress (data_ v)) >>
         destroy_n (ptr_add (RawMemory_GetAddress (data_ v)) (size_ r))
                   (size_ v - size_ r) >>
         ret ()
       else
         copy_n (RawMemory_GetAddress (data_ r)) (size_ v)
                (RawMemory_GetAddress (data_ v)) >>
         uninitialized_copy_n
           (ptr_add (RawMemory_GetAddress (data_ r)) (size_ v))
           (size_ r - size_ v)
           (ptr_add (RawMemory_GetAddress (data_ v)) (size_ v)) >>
         ret ()) >>
      set_size this (size_ r)
  else ret ().

(** [operator=(Vector&& rhs) noexcept] *)
Definition Vector_move_assign (this rhs : nat) : M unit :=
  noexcept
    (if decide (this ≠ rhs) then Vector_Swap this rhs else ret ()).

(** [operator[](size_t index)]; the [T&] is the address of the slot. *)
Definition Vector_index (this : nat) (index : nat) : M ptr :=
  v <- read this;;
  assert (bool_decide (index < size_ v)) >>
  RawMemory_index (data_ v) index.

(** The test [std::is_nothrow_move_constructible_v<T> ||
    !std::is_copy_constructible_v<T>] of the three [if constexpr]. *)
Definition relocate_by_move : bool :=
  is_nothrow_move_constructible || negb (is_copy_constructible).

(** [Reserve(size_t new_capacity)] *)
Definition Vector_Reserve (this : nat) (new_capacity : nat) : M unit :=
  v <- read this;;
  if decide (new_capacity ≤ RawMemory_Capacity (data_ v)) then ret ()
  else
    new_data <- RawMemory_ctor new_capacity;;
    on_throw
      (if relocate_by_move
       then uninitialized_move_n (RawMemory_GetAddress (data_ v)) (size_ v)
                                 (RawMemory_GetAddress new_data)
       else uninitialized_copy_n (RawMemory_GetAddress (data_ v)) (size_ v)
                                 (RawMemory_GetAddress new_data))
      (RawMemory_dtor new_data) >>
    destroy_n (RawMemory_GetAddress (data_ v)) (size_ v) >>
    let (d, new_data') := RawMemory_Swap (data_ v) new_data in
    set_data this d >>
    RawMemory_dtor new_data'.

(** [Resize(size_t new_size)] *)
Definition Vector_Resize (this : nat) (new_size : nat) : M unit :=
  v <- read this;;
  if decide (new_size < size_ v) then
    destroy_n (ptr_add (RawMemory_GetAddress (data_ v)) new_size)
              (size_ v - new_size) >>
    set_size this new_size
  else if decide (size_ v < new_size) then
    Vector_Reserve this new_size >>
    v <- read this;;
    uninitialized_value_construct_n
      (ptr_add (RawMemory_GetAddress (data_ v)) (size_ v))
      (new_size - size_ v) >>
    set_size this new_size
  else ret ().

(** [PopBack() noexcept] *)
Definition Vector_PopBack (this : nat) : M unit :=
  noexcept
    (v <- read this;;
     assert (bool_decide (0 < size_ v)) >>
     p <- ptr_sub (ptr_add (RawMemory_GetAddress (data_ v)) (size_ v)) 1;;
     destroy_at p >>
     set_size this (size_ v - 1)).

(** [Emplace(const_iterator pos, Args&&... args)] *)
Definition Vector_Emplace (this : nat) (pos : ptr) (args : ctor_args) : M ptr :=
  b <- Vector_begin this;;
  index <- ptr_diff pos b;;
  v <- read this;;
  assert (bool_decide (index ≤ size_ v)) >>
  if decide (size_ v < RawMemory_Capacity (data_ v)) then
    e <- Vector_end this;;
    if decide (pos = e) then
      construct_at e args >>
      set_size this (S (size_ v)) >>
      e <- Vector_end this;;
      ptr_sub e 1
    else
      tmp_copy <- T_ctor args;;
      e <- Vector_end this;;
      last <- ptr_sub e 1;;
      construct_at e (ByMove last) >>
      b <- Vector_begin this;;
      move_backward (ptr_add b index) last e >>
      slot_index <- RawMemory_index (data_ v) index;;
      store slot_index tmp_copy >>
      set_size this (S (size_ v)) >>
      b <- Vector_begin this;;
      ret (ptr_add b index)
  else
    new_data <- RawMemory_ctor
      (if decide (RawMemory_Capacity (data_ v) = 0) then 1
       else RawMemory_Capacity (data_ v) * 2);;
    on_throw
      (construct_at (ptr_add (RawMemory_GetAddress new_data) index) args >>
       b <- Vector_begin this;;
       if relocate_by_move then
         uninitialized_move_n b index (RawMemory_GetAddress new_data) >>
         uninitialized_move_n (ptr_add b index) (size_ v - index)
           (ptr_add (ptr_add (RawMemory_GetAddress new_data) index) 1)
       else
         uninitialized_copy_n b index (RawMemory_GetAddress new_data) >>
         uninitialized_copy_n (ptr_add b index) (size_ v - index)
           (ptr_add (ptr_add (RawMemory_GetAddress new_data) index) 1))
      (RawMemory_dtor new_data) >>
    b <- Vector_begin this;;
    destroy_n b (size_ v) >>
    let (d, new_data') := RawMemory_Swap (data_ v) new_data in
    set_data this d >>
    set_size this (S (size_ v)) >>
    b <- Vector_begin this;;
    RawMemory_dtor new_data' >>
    ret (ptr_add b index).

(** [EmplaceBack(Args&&... args)]; the [T&] is the address of the slot. *)
Definition Vector_EmplaceBack (this : nat) (args : ctor_args) : M ptr :=
  e <- Vector_end this;;
  Vector_Emplace this e args.

(** [PushBack(const T& value)] is [Vector_PushBack this (ByCopy value)],
    [PushBack(T&& value)] is [Vector_PushBack this (ByMove value)]. *)
Definition Vector_PushBack (this : nat) (value : ctor_args) : M unit :=
  Vector_EmplaceBack this value >>
  ret ().

(** [Insert(const_iterator pos, const T& value)] is
    [Vector_Insert this pos (ByCopy value)], [Insert(const_iterator pos, T&&
    value)] is [Vector_Insert this pos (ByMove value)]. *)
Definition Vector_Insert (this : nat) (pos : ptr) (value : ctor_args) : M ptr :=
  Vector_Emplace this pos value.

(** [Erase(const_iterator pos) noexcept(std::is_nothrow_move_assignable_v<T>)] *)
Definition Vector_Erase (this : nat) (pos : ptr) : M ptr :=
  (if is_nothrow_move_assignable then noexcept else id)
    (b <- Vector_begin this;;
     index <- ptr_diff pos b;;
     v <- read this;;
     assert (bool_decide (index < size_ v)) >>
     b <- Vector_begin this;;
     e <- Vector_end this;;
     (if relocate_by_move
      then std_move (ptr_add (ptr_add b index) 1) e (ptr_add b index)
      else std_copy (ptr_add (ptr_add b index) 1) e (ptr_add b index)) >>
     e <- Vector_end this;;
     last <- ptr_sub e 1;;
     destroy_at last >>
     set_size this (size_ v - 1) >>
     b <- Vector_begin this;;
     ret (ptr_add b index)).

(** ** What a caller observes *)

Definition live_prefix (n : nat) (blk : list slot) : option (list T) :=
  mapM (λ sl, match sl with Live x => Some x | Raw => None end) (take n blk).

(** The sequence of elements of the vector at [this]: the values of its
    slots [0, size). *)
Definition Vector_elems (s : state) (this : nat) : option (list T) :=
  v ← objs s !! this;
  match block (buffer_ (data_ v)) with
  | None => if decide (size_ v = 0) then Some [] else None
  | Some a => blk ← heap s !! a; live_prefix (size_ v) blk
  end.

Definition Vector_size (s : state) (this : nat) : option nat :=
  size_ <$> objs s !! this.

Definition Vector_capacity (s : state) (this : nat) : option nat :=
  (λ v, capacity_ (data_ v)) <$> objs s !! this.

Definition Vector_buffer (s : state) (this : nat) : option ptr :=
  (λ v, buffer_ (data_ v)) <$> objs s !! this.

(** The invariant of the dynamic array: [0 ≤ size ≤ capacity], the storage
    block has [capacity] slots (a null handle for capacity 0), slots
    [0, size) are live and slots [size, capacity) are raw. *)
Definition Vector_invariant (s : state) (this : nat) : Prop :=
  ∃ v, objs s !! this = Some v ∧
       size_ v ≤ capacity_ (data_ v) ∧
       off (buffer_ (data_ v)) = 0 ∧
       match block (buffer_ (data_ v)) with
       | None => capacity_ (data_ v) = 0
       | Some a =>
           ∃ blk, heap s !! a = Some blk ∧
                  length blk = capacity_ (data_ v) ∧
                  (∀ i, i < size_ v → ∃ x, blk !! i = Some (Live x)) ∧
                  (∀ i, size_ v ≤ i < capacity_ (data_ v) → blk !! i = Some Raw)
       end.

End WithPayload.

Notation "x <- m ;; k" := (bind m (λ x, k))
  (at level 100, m at next level, right associativity).
Notation "m >> k" := (bind m (λ _, k))
  (at level 100, right associativity).

(** * Specification vocabulary *)

Section Specification.
Context `{P : Payload}.

(** ** Storage blocks *)

(** The block [buf] points to holds the slots [blk]; the null handle stands
    for the block of no slots. *)
Definition block_is (s : state) (buf : ptr) (blk : list slot) : Prop :=
  off buf = 0 ∧
  match block buf with
  | None => blk = []
  | Some a => heap s !! a = Some blk
  end.

Definition set_block (buf : ptr) (blk : list slot) (s : state) : state :=
  match block buf with
  | None => s
  | Some a => set_heap (<[a := blk]> (heap s)) s
  end.

Definition free_block (buf : ptr) (s : state) : state :=
  match block buf with
  | None => s
  | Some a => set_heap (delete a (heap s)) s
  end.

(** The handle and the heap [RawMemory_Allocate n] produces. *)
Definition new_buffer (n : nat) (s : state) : ptr :=
  if decide (n ≠ 0) then Ptr (Some (fresh (dom (heap s)))) 0 else nullptr.

Definition alloc_block (n : nat) (s : state) : state :=
  if decide (n ≠ 0)
  then set_heap (<[fresh (dom (heap s)) := replicate n Raw]> (heap s)) s
  else s.

(** Two handles that do not designate the same block. *)
Definition separate (p q : ptr) : Prop :=
  ∀ a, block p = Some a → block q ≠ Some a.

(** ** The abstract value of a vector *)

(** The slots of a block of capacity [cap] whose live elements are [xs]. *)
Definition slots_of (xs : list T) (cap : nat) : list slot :=
  (Live <$> xs) ++ replicate (cap - length xs) Raw.

(** The object at [this] is a vector that owns the block at [buf], of
    capacity [cap], and whose elements are [xs]. *)
Definition represents (s : state) (this : nat) (buf : ptr) (xs : list T)
    (cap : nat) : Prop :=
  objs s !! this
    = Some {| data_ := {| buffer_ := buf; capacity_ := cap |};
              size_ := length xs |} ∧
  length xs ≤ cap ∧
  block_is s buf (slots_of xs cap).

(** The state after the elements of the vector at [this], which owned the
    block at [buf], have been settled as [xs] in a new block of [n] slots:
    the new block is adopted and the old one released. *)
Definition relocated (this : nat) (buf : ptr) (n : nat) (xs : list T)
    (s : state) : state :=
  set_objs
    (<[this := {| data_ := {| buffer_ := new_buffer n s; capacity_ := n |};
                  size_ := length xs |}]> (objs s))
    (free_block buf
       (set_block (new_buffer n s) (slots_of xs n) (alloc_block n s))).

(** The sequence [xs] with [x] inserted before position [index]; the
    capacity a full vector of capacity [cap] grows to. *)
Definition inserted (index : nat) (x : T) (xs : list T) : list T :=
  take index xs ++ x :: drop index xs.

Definition erased (index : nat) (xs : list T) : list T :=
  take index xs ++ drop (S index) xs.

Definition growth (cap : nat) : nat :=
  if decide (cap = 0) then 1 else cap * 2.

(** The state after the vector at [this] has changed its elements to [xs]
    inside its block. *)
Definition updated (this : nat) (buf : ptr) (cap : nat) (xs : list T)
    (s : state) : state :=
  set_objs
    (<[this := {| data_ := {| buffer_ := buf; capacity_ := cap |};
                  size_ := length xs |}]> (objs s))
    (set_block buf (slots_of xs cap) s).

(** The state after a vector of elements [xs] and of capacity [length xs]
    has been constructed at [this] in a block of its own. *)
Definition constructed (this : nat) (xs : list T) (s : state) : state :=
  set_objs
    (<[this := {| data_ := {| buffer_ := new_buffer (length xs) s;
                              capacity_ := length xs |};
                  size_ := length xs |}]> (objs s))
    (set_block (new_buffer (length xs) s) (slots_of xs (length xs))
       (alloc_block (length xs) s)).

(** ** Payload operations over a range *)

(** Copy construction of the values [xs] in order, up to the first that
    throws: did all complete, and the environment afterwards. *)
Fixpoint copy_all (xs : list T) (w : Env) : bool * Env :=
  match xs with
  | [] => (true, w)
  | x :: r =>
      let (ok, w') := copy_construct x w in
      if ok then copy_all r w' else (false, w')
  end.

(** [n] value initialisations, up to the first that throws. *)
Fixpoint value_all (n : nat) (w : Env) : bool * Env :=
  match n with
  | 0 => (true, w)
  | S k =>
      let (ok, w') := value_construct w in
      if ok then value_all k w' else (false, w')
  end.

(** Copy assignment of the values [xs] over the objects of values [ys], in
    order, up to the first that throws: the values of the destination range
    afterwards, did all complete, and the environment. *)
Fixpoint assign_all (ys xs : list T) (w : Env) : list T * bool * Env :=
  match ys, xs with
  | y :: ys', x :: xs' =>
      let (ok, w') := copy_assign y x w in
      if ok then
        let '(l, b, w'') := assign_all ys' xs' w' in (x :: l, b, w'')
      else (y :: ys', false, w')
  | _, _ => (ys, true, w)
  end.

(** The forward shift of [std::copy] inside one block: the object of value
    [y] is followed by those of values [xs], and each is copy-assigned to its
    predecessor, up to the first assignment that throws.  The values of the
    [1 + length xs] slots afterwards, did all complete, and the environment. *)
Fixpoint shift_copy (y : T) (xs : list T) (w : Env) : list T * bool * Env :=
  match xs with
  | [] => ([y], true, w)
  | x :: r =>
      let (ok, w') := copy_assign y x w in
      if ok then
        let '(l, b, w'') := shift_copy x r w' in (x :: l, b, w'')
      else (y :: x :: r, false, w')
  end.

(** The same shift by move assignment: what is left in the last slot. *)
Fixpoint shift_move_residue (y : T) (xs : list T) : T :=
  match xs with
  | [] => y
  | x :: r => shift_move_residue (moved_from x) r
  end.

(** The backward shift of [std::move_backward]: what is left in the first
    slot of the range [xs] when it is followed by an object of value [y]. *)
Definition shift_back_residue (xs : list T) (y : T) : T :=
  match xs with
  | [] => y
  | x :: _ => moved_from x
  end.

(** Copy assignment as the specification words it, for a destination of
    elements [xs] and capacity [cap] and a distinct source of elements [ys].
    If the source is larger than the capacity, a full copy is built and
    swapped in, and an exception while it is built leaves the destination
    untouched.  Otherwise the storage is reused: the overlapping prefix is
    overwritten by copy assignment, then the excess tail of the destination
    is destroyed or the new tail is copy-constructed from the source. *)
Definition copy_assigned (this : nat) (buf : ptr) (cap : nat)
    (xs ys : list T) (s : state) : outcome () * state :=
  if decide (cap < length ys) then
    if (copy_all ys (env s)).1
    then (Ok (), set_env (copy_all ys (env s)).2
                   (relocated this buf (length ys) ys s))
    else (Throw, set_env (copy_all ys (env s)).2 s)
  else
    let prefix := assign_all (take (length ys) xs) (take (length xs) ys) (env s) in
    if negb prefix.1.2 then
      (Throw, set_env prefix.2
                (set_block buf
                   (slots_of (prefix.1.1 ++ drop (length ys) xs) cap) s))
    else if decide (length ys < length xs) then
      (Ok (), set_env prefix.2 (updated this buf cap ys s))
    else
      let tail := copy_all (drop (length xs) ys) prefix.2 in
      if tail.1
      then (Ok (), set_env tail.2 (updated this buf cap ys s))
      else (Throw, set_env tail.2
                     (set_block buf (slots_of (take (length xs) ys) cap) s)).

(** What [Emplace] at [index] makes of a vector of elements [xs1] and
    capacity [cap] in the state [s1], once the new element has got its value
    [x] from the constructor arguments. *)
Definition emplaced (this : nat) (buf : ptr) (cap index : nat) (x : T)
    (xs1 : list T) (s1 : state) : outcome ptr * state :=
  if decide (length xs1 < cap) then
    (Ok (ptr_add buf index), updated this buf cap (inserted index x xs1) s1)
  else if relocate_by_move then
    (Ok (ptr_add (new_buffer (growth cap) s1) index),
     relocated this buf (growth cap) (inserted index x xs1) s1)
  else if (copy_all xs1 (env s1)).1 then
    (Ok (ptr_add (new_buffer (growth cap) s1) index),
     set_env (copy_all xs1 (env s1)).2
       (relocated this buf (growth cap) (inserted index x xs1) s1))
  else (Throw, set_env (copy_all xs1 (env s1)).2 s1).

(** ** The public interface *)

(** A call of a public member function of [Vector<T>] on the object at
    [this]; the overloads of [PushBack] and [Insert] are told apart by
    their argument. *)
Inductive call : Type :=
  | Call_default_ctor
  | Call_sized_ctor (size : nat)
  | Call_copy_ctor (other : nat)
  | Call_move_ctor (other : nat)
  | Call_copy_assign (rhs : nat)
  | Call_move_assign (rhs : nat)
  | Call_dtor
  | Call_begin
  | Call_end
  | Call_index (index : nat)
  | Call_Size
  | Call_Capacity
  | Call_Swap (other : nat)
  | Call_Reserve (new_capacity : nat)
  | Call_Resize (new_size : nat)
  | Call_PushBack (value : ctor_args)
  | Call_EmplaceBack (args : ctor_args)
  | Call_PopBack
  | Call_Insert (pos : ptr) (value : ctor_args)
  | Call_Emplace (pos : ptr) (args : ctor_args)
  | Call_Erase (pos : ptr).

Definition run_call (this : nat) (c : call) : M () :=
  match c with
  | Call_default_ctor => Vector_default_ctor this
  | Call_sized_ctor size => Vector_sized_ctor this size
  | Call_copy_ctor other => Vector_copy_ctor this other
  | Call_move_ctor other => Vector_move_ctor this other
  | Call_copy_assign rhs => Vector_copy_assign this rhs
  | Call_move_assign rhs => Vector_move_assign this rhs
  | Call_dtor => Vector_dtor this
  | Call_begin => Vector_begin this >> ret ()
  | Call_end => Vector_end this >> ret ()
  | Call_index index => Vector_index this index >> ret ()
  | Call_Size => Vector_Size this >> ret ()
  | Call_Capacity => Vector_Capacity this >> ret ()
  | Call_Swap other => Vector_Swap this other
  | Call_Reserve new_capacity => Vector_Reserve this new_capacity
  | Call_Resize new_size => Vector_Resize this new_size
  | Call_PushBack value => Vector_PushBack this value
  | Call_EmplaceBack args => Vector_EmplaceBack this args >> ret ()
  | Call_PopBack => Vector_PopBack this
  | Call_Insert pos value => Vector_Insert this pos value >> ret ()
  | Call_Emplace pos args => Vector_Emplace this pos args >> ret ()
  | Call_Erase pos => Vector_Erase this pos >> ret ()
  end.

(** The other vector a call works on, if any. *)
Definition other_operand (c : call) : option nat :=
  match c with
  | Call_copy_ctor other | Call_move_ctor other | Call_Swap other => Some other
  | Call_copy_assign rhs | Call_move_assign rhs => Some rhs
  | _ => None
  end.

Definition is_ctor (c : call) : bool :=
  match c with
  | Call_default_ctor | Call_sized_ctor _ | Call_copy_ctor _
  | Call_move_ctor _ => true
  | _ => false
  end.

Definition is_dtor (c : call) : bool :=
  match c with Call_dtor => true | _ => false end.

Definition is_Throw {A} (o : outcome A) : bool :=
  match o with Throw => true | _ => false end.

Definition is_Ok {A} (o : outcome A) : bool :=
  match o with Ok _ => true | _ => false end.

Definition is_Abort {A} (o : outcome A) : bool :=
  match o with Abort => true | _ => false end.

(** Ownership: two distinct vectors do not share a block. *)
Definition owns_apart (s : state) (this other : nat) : Prop :=
  ∀ v o, this ≠ other →
    objs s !! this = Some v → objs s !! other = Some o →
    separate (buffer_ (data_ v)) (buffer_ (data_ o)).

(** The object a constructor argument refers to. *)
Definition args_src (args : ctor_args) : ptr :=
  match args with ByCopy src | ByMove src => src end.

(** A position in the vector at [this], at most [slack] past its last
    element. *)
Definition valid_position (s : state) (this : nat) (pos : ptr) (slack : nat)
    : Prop :=
  ∃ buf n, Vector_buffer s this = Some buf ∧ Vector_size s this = Some n ∧
           block pos = block buf ∧ off pos < n + slack.

(** The move constructor and the move assignment of the payload are
    [noexcept]. *)
Definition noexcept_moves : Prop :=
  is_nothrow_move_constructible = true ∧ is_nothrow_move_assignable = true.

(** The preconditions of a call: an index or a position inside the vector
    (the end included for an insertion), a non-empty vector for [PopBack],
    a live object for the argument of an insertion, a number of slots the
    allocator can serve for a constructor, [Reserve] or [Resize]. *)
Definition valid_call (s : state) (this : nat) (c : call) : Prop :=
  match c with
  | Call_sized_ctor n | Call_Reserve n | Call_Resize n => allocatable n
  | Call_index index => ∃ n, Vector_size s this = Some n ∧ index < n
  | Call_PopBack => ∃ n, Vector_size s this = Some (S n)
  | Call_PushBack args | Call_EmplaceBack args =>
      ∃ x, load (args_src args) s = (Ok x, s)
  | Call_Insert pos args | Call_Emplace pos args =>
      valid_position s this pos 1 ∧ ∃ x, load (args_src args) s = (Ok x, s)
  | Call_Erase pos => valid_position s this pos 0
  | _ => True
  end.

(** [PushBack] of each value in turn, with the capacity read after each. *)
Fixpoint push_backs (this : nat) (values : list ctor_args) : M (list nat) :=
  match values with
  | [] => ret []
  | value :: rest =>
      Vector_PushBack this value >>
      c <- Vector_Capacity this;;
      cs <- push_backs this rest;;
      ret (c :: cs)
  end.

(** The capacities read after each of [k] appends to a vector of [size]
    elements and of capacity [cap], as the growth policy has them. *)
Fixpoint capacities (size cap k : nat) : list nat :=
  match k with
  | 0 => []
  | S k' =>
      let cap' := if decide (size < cap) then cap else Nat.max 1 (cap * 2) in
      cap' :: capacities (S size) cap' k'
  end.

(** The pointer [src] designates a live object of value [x] outside the
    block at [buf]. *)
Definition live_outside (s : state) (buf src : ptr) (x : T) : Prop :=
  ∃ a blk, block src = Some a ∧ block buf ≠ Some a ∧
           heap s !! a = Some blk ∧ blk !! off src = Some (Live x).

(** The argument of [Insert] or [PushBack] designates an object of value
    [x]: any live object for a [const T&], a live object outside the
    vector's block for a [T&&], which is left moved-from. *)
Definition designates (s : state) (buf : ptr) (value : ctor_args) (x : T)
    : Prop :=
  match value with
  | ByCopy src => load src s = (Ok x, s)
  | ByMove src => live_outside s buf src x
  end.

(** A payload none of whose operations throws. *)
Definition nothrow : Prop :=
  (∀ w, (value_construct w).1 = true) ∧
  (∀ x w, (copy_construct x w).1 = true) ∧
  (∀ y x w, (copy_assign y x w).1 = true).

End Specification.

(** ** Two payloads *)

(** A budget of operations that may throw: each one that is attempted uses
    one unit up, and the one attempted on an empty budget throws. *)
Definition countdown (w : nat) : bool * nat :=
  match w with
  | 0 => (false, 0)
  | S k => (true, k)
  end.

(** Numbers whose copies draw on a budget and whose move constructor is not
    [noexcept]: relocation is by copy. *)
Definition copied_numbers : Payload :=
  {| T := nat;
     Env := nat;
     sizeof_T := 4;
     max_alloc := 4294967296;
     is_nothrow_move_constructible := false;
     is_copy_constructible := true;
     is_nothrow_move_assignable := false;
     value_init := 0;
     value_construct := countdown;
     copy_construct := λ _, countdown;
     copy_assign := λ _ _, countdown;
     moved_from := λ _, 0 |}.

(** Numbers with a [noexcept] move constructor: relocation is by move. *)
Definition moved_numbers : Payload :=
  {| T := nat;
     Env := nat;
     sizeof_T := 4;
     max_alloc := 4294967296;
     is_nothrow_move_constructible := true;
     is_copy_constructible := true;
     is_nothrow_move_assignable := true;
     value_init := 0;
     value_construct := countdown;
     copy_construct := λ _, countdown;
     copy_assign := λ _ _, countdown;
     moved_from := λ _, 0 |}.

(** Numbers none of whose operations throws, relocated by move. *)
Definition plain_numbers : Payload :=
  {| T := nat;
     Env := unit;
     sizeof_T := 4;
     max_alloc := 4294967296;
     is_nothrow_move_constructible := true;
     is_copy_constructible := true;
     is_nothrow_move_assignable := true;
     value_init := 0;
     value_construct := λ w, (true, w);
     copy_construct := λ _ w, (true, w);
     copy_assign := λ _ _ w, (true, w);
     moved_from := λ _, 0 |}.

(** A vector at address 0 with the elements [l] in a block of capacity
    [cap] at address 0, and a budget of [w]. *)
Definition one_vector (P : Payload) (l : list (@T P)) (cap : nat) (w : @Env P)
    : @state P :=
  {| objs := {[ 0 := {| data_ := {| buffer_ := Ptr (Some 0) 0;
                                    capacity_ := cap |};
                        size_ := length l |} ]};
     heap := {[ 0 := @slots_of P l cap ]};
     env := w |}.

(** Two vectors, at addresses 0 and 1, with blocks at addresses 0 and 1. *)
Definition two_vectors (P : Payload) (l0 : list (@T P)) (cap0 : nat)
    (l1 : list (@T P)) (cap1 : nat) (w : @Env P) : @state P :=
  {| objs := {[ 0 := {| data_ := {| buffer_ := Ptr (Some 0) 0;
                                    capacity_ := cap0 |};
                        size_ := length l0 |};
                1 := {| data_ := {| buffer_ := Ptr (Some 1) 0;
                                    capacity_ := cap1 |};
                        size_ := length l1 |} ]};
     heap := {[ 0 := @slots_of P l0 cap0; 1 := @slots_of P l1 cap1 ]};
     env := w |}.

(** Numbers relocated by copy whose move assignment is [noexcept], so that
    [Erase] is [noexcept] and shifts by copy assignment. *)
Definition assignable_numbers : Payload :=
  {| T := nat;
     Env := nat;
     sizeof_T := 4;
     max_alloc := 4294967296;
     is_nothrow_move_constructible := false;
     is_copy_constructible := true;
     is_nothrow_move_assignable := true;
     value_init := 0;
     value_construct := countdown;
     copy_construct := λ _, countdown;
     copy_assign := λ _ _, countdown;
     moved_from := λ _, 0 |}.

(** * Running computations *)

Ltac solve_length :=
  try unfold slots_of in *;
  repeat first
    [ rewrite length_app | rewrite length_fmap | rewrite length_replicate
    | rewrite length_insert | progress cbn [length app] ];
  lia.

Section Running.
Context `{P : Payload}.

Lemma bind_Ok {A B} (m : M A) (f : A → M B) s a s1 :
  m s = (Ok a, s1) → bind m f s = f a s1.
Proof. unfold bind. by intros ->. Qed.

Lemma bind_Throw {A B} (m : M A) (f : A → M B) s s1 :
  m s = (Throw, s1) → bind m f s = (Throw, s1).
Proof. unfold bind. by intros ->. Qed.

Lemma bind_Abort {A B} (m : M A) (f : A → M B) s s1 :
  m s = (Abort, s1) → bind m f s = (Abort, s1).
Proof. unfold bind. by intros ->. Qed.

Lemma bind_assoc {A B C} (m : M A) (f : A → M B) (g : B → M C) s :
  bind (bind m f) g s = bind m (λ a, bind (f a) g) s.
Proof. unfold bind. by destruct (m s) as [[] ?]. Qed.

Lemma bind_ret {A B} (a : A) (f : A → M B) s : bind (ret a) f s = f a s.
Proof. done. Qed.

Lemma on_throw_Ok {A} (m : M A) c s a s1 :
  m s = (Ok a, s1) → on_throw m c s = (Ok a, s1).
Proof. unfold on_throw. by intros ->. Qed.

Lemma on_throw_Throw {A} (m : M A) c s s1 s2 :
  m s = (Throw, s1) → c s1 = (Ok (), s2) → on_throw m c s = (Throw, s2).
Proof. unfold on_throw. by intros -> ->. Qed.

Lemma on_throw_Abort {A} (m : M A) c s s1 :
  m s = (Abort, s1) → on_throw m c s = (Abort, s1).
Proof. unfold on_throw. by intros ->. Qed.

Lemma bind_on_throw_Ok {A B} (m : M A) c (k : A → M B) s a s1 :
  m s = (Ok a, s1) → bind (on_throw m c) k s = k a s1.
Proof. intros H. by rewrite (bind_Ok _ _ _ _ _ (on_throw_Ok _ _ _ _ _ H)). Qed.

Lemma bind_on_throw_Throw {A B} (m : M A) c (k : A → M B) s s1 s2 :
  m s = (Throw, s1) → c s1 = (Ok (), s2) →
  bind (on_throw m c) k s = (Throw, s2).
Proof.
  intros H Hc. by rewrite (bind_Throw _ _ _ _ (on_throw_Throw _ _ _ _ _ H Hc)).
Qed.

Lemma noexcept_Ok {A} (m : M A) s a s1 :
  m s = (Ok a, s1) → noexcept m s = (Ok a, s1).
Proof. unfold noexcept. by intros ->. Qed.

Lemma noexcept_Throw {A} (m : M A) s s1 :
  m s = (Throw, s1) → noexcept m s = (Abort, s1).
Proof. unfold noexcept. by intros ->. Qed.

(** ** States *)

Lemma state_eta (s : state) :
  {| objs := objs s; heap := heap s; env := env s |} = s.
Proof. by destruct s. Qed.

Lemma set_heap_id (s : state) : set_heap (heap s) s = s.
Proof. by destruct s. Qed.

Lemma set_objs_id (s : state) : set_objs (objs s) s = s.
Proof. by destruct s. Qed.

Lemma set_env_id (s : state) : set_env (env s) s = s.
Proof. by destruct s. Qed.

Lemma set_env_set_env w w' (s : state) : set_env w (set_env w' s) = set_env w s.
Proof. done. Qed.

Lemma env_set_env w (s : state) : env (set_env w s) = w.
Proof. done. Qed.

Lemma objs_set_env w (s : state) : objs (set_env w s) = objs s.
Proof. done. Qed.

Lemma heap_set_env w (s : state) : heap (set_env w s) = heap s.
Proof. done. Qed.

Lemma objs_set_objs o (s : state) : objs (set_objs o s) = o.
Proof. done. Qed.

Lemma env_set_objs o (s : state) : env (set_objs o s) = env s.
Proof. done. Qed.

Lemma heap_set_objs o (s : state) : heap (set_objs o s) = heap s.
Proof. done. Qed.

Lemma set_objs_set_objs o o' (s : state) :
  set_objs o (set_objs o' s) = set_objs o s.
Proof. done. Qed.

Lemma set_env_set_objs w o (s : state) :
  set_env w (set_objs o s) = set_objs o (set_env w s).
Proof. done. Qed.

Lemma attempt_eq f s :
  attempt f s
  = (if (f (env s)).1 then Ok () else Throw, set_env (f (env s)).2 s).
Proof. unfold attempt. by destruct (f (env s)) as [[] w]. Qed.

Lemma ptr_sub_Ok p n s :
  n ≤ off p → ptr_sub p n s = (Ok (Ptr (block p) (off p - n)), s).
Proof. intros Hn. unfold ptr_sub. by rewrite decide_True. Qed.

Lemma ptr_sub_add_S p k s :
  ptr_sub (ptr_add p (S k)) 1 s = (Ok (ptr_add p k), s).
Proof.
  unfold ptr_sub, ptr_add. cbn [block off]. rewrite decide_True by lia.
  unfold ret. do 3 f_equal. lia.
Qed.

Lemma ptr_diff_Ok p q s :
  block p = block q → off q ≤ off p → ptr_diff p q s = (Ok (off p - off q), s).
Proof. intros Hb Ho. unfold ptr_diff. by rewrite !decide_True. Qed.

(** ** The object store *)

Lemma read_Ok s this v : objs s !! this = Some v → read this s = (Ok v, s).
Proof. unfold read. by intros ->. Qed.

Lemma bind_assert_true {B} b (f : () → M B) s :
  b = true → bind (assert b) f s = f () s.
Proof. by intros ->. Qed.

Lemma bind_assert_false {B} b (f : () → M B) s :
  b = false → bind (assert b) f s = (Abort, s).
Proof. by intros ->. Qed.

Lemma write_eq this v s :
  write this v s = (Ok (), set_objs (<[this := v]> (objs s)) s).
Proof. done. Qed.

Lemma set_size_eq s this v n :
  objs s !! this = Some v →
  set_size this n s
  = (Ok (), set_objs (<[this := {| data_ := data_ v; size_ := n |}]> (objs s)) s).
Proof. intros Hv. unfold set_size. by rewrite (bind_Ok _ _ _ _ _ (read_Ok _ _ _ Hv)). Qed.

Lemma set_data_eq s this v d :
  objs s !! this = Some v →
  set_data this d s
  = (Ok (), set_objs (<[this := {| data_ := d; size_ := size_ v |}]> (objs s)) s).
Proof. intros Hv. unfold set_data. by rewrite (bind_Ok _ _ _ _ _ (read_Ok _ _ _ Hv)). Qed.

Lemma Vector_begin_eq s this v :
  objs s !! this = Some v → Vector_begin this s = (Ok (buffer_ (data_ v)), s).
Proof. intros Hv. unfold Vector_begin. by rewrite (bind_Ok _ _ _ _ _ (read_Ok _ _ _ Hv)). Qed.

Lemma Vector_end_eq s this v :
  objs s !! this = Some v →
  Vector_end this s = (Ok (ptr_add (buffer_ (data_ v)) (size_ v)), s).
Proof. intros Hv. unfold Vector_end. by rewrite (bind_Ok _ _ _ _ _ (read_Ok _ _ _ Hv)). Qed.

Lemma ptr_diff_add p i j s :
  i ≤ j → ptr_diff (ptr_add p j) (ptr_add p i) s = (Ok (j - i), s).
Proof.
  intros Hij. unfold ptr_diff, ptr_add. cbn [block off].
  rewrite !decide_True by (done || lia). unfold ret. do 2 f_equal. lia.
Qed.

Lemma ptr_diff_base p i s :
  off p = 0 → ptr_diff (ptr_add p i) p s = (Ok i, s).
Proof.
  intros Hp. unfold ptr_diff, ptr_add. cbn [block off].
  rewrite !decide_True by (done || lia). unfold ret. do 2 f_equal. lia.
Qed.

Lemma ptr_add_inj p i j : ptr_add p i = ptr_add p j → i = j.
Proof. unfold ptr_add. intros [= H]. lia. Qed.

(** ** Slots *)

Lemma slot_at_Ok s a i blk sl :
  heap s !! a = Some blk → blk !! i = Some sl →
  slot_at (Ptr (Some a) i) s = (Ok sl, s).
Proof. unfold slot_at. cbn [block off]. by intros -> ->. Qed.

Lemma set_slot_Ok s a i blk sl :
  heap s !! a = Some blk → i < length blk →
  set_slot (Ptr (Some a) i) sl s
  = (Ok (), set_heap (<[a := <[i := sl]> blk]> (heap s)) s).
Proof.
  unfold set_slot. cbn [block off]. intros -> Hi. by rewrite decide_True.
Qed.

Lemma load_Ok s a i blk x :
  heap s !! a = Some blk → blk !! i = Some (Live x) →
  load (Ptr (Some a) i) s = (Ok x, s).
Proof.
  intros Ha Hi. unfold load. by rewrite (bind_Ok _ _ _ _ _ (slot_at_Ok _ _ _ _ _ Ha Hi)).
Qed.

Lemma emplace_slot_Ok s a i blk x :
  heap s !! a = Some blk → blk !! i = Some Raw →
  emplace_slot (Ptr (Some a) i) x s
  = (Ok (), set_heap (<[a := <[i := Live x]> blk]> (heap s)) s).
Proof.
  intros Ha Hi. unfold emplace_slot.
  rewrite (bind_Ok _ _ _ _ _ (slot_at_Ok _ _ _ _ _ Ha Hi)).
  apply set_slot_Ok; [done | by eapply lookup_lt_Some].
Qed.

Lemma store_Ok s a i blk x y :
  heap s !! a = Some blk → blk !! i = Some (Live y) →
  store (Ptr (Some a) i) x s
  = (Ok (), set_heap (<[a := <[i := Live x]> blk]> (heap s)) s).
Proof.
  intros Ha Hi. unfold store.
  rewrite (bind_Ok _ _ _ _ _ (slot_at_Ok _ _ _ _ _ Ha Hi)).
  apply set_slot_Ok; [done | by eapply lookup_lt_Some].
Qed.

Lemma destroy_at_Ok s a i blk y :
  heap s !! a = Some blk → blk !! i = Some (Live y) →
  destroy_at (Ptr (Some a) i) s
  = (Ok (), set_heap (<[a := <[i := Raw]> blk]> (heap s)) s).
Proof.
  intros Ha Hi. unfold destroy_at.
  rewrite (bind_Ok _ _ _ _ _ (slot_at_Ok _ _ _ _ _ Ha Hi)).
  apply set_slot_Ok; [done | by eapply lookup_lt_Some].
Qed.

End Running.

(** * Storage blocks *)

Section Blocks.
Context `{P : Payload}.

Lemma ptr_add_add p i j : ptr_add (ptr_add p i) j = ptr_add p (i + j).
Proof. unfold ptr_add. cbn [block off]. f_equal. lia. Qed.

Lemma ptr_add_0 p : ptr_add p 0 = p.
Proof. destruct p as [b o]. unfold ptr_add. cbn [block off]. f_equal. lia. Qed.

Lemma insert_middle {A} (pre : list A) x y rest :
  <[length pre := y]> (pre ++ x :: rest) = pre ++ y :: rest.
Proof.
  replace (length pre) with (length pre + 0) by lia.
  by rewrite insert_app_r.
Qed.

Lemma insert_middle_S {A} (pre : list A) y x z rest :
  <[length pre + 1 := z]> (pre ++ y :: x :: rest) = pre ++ y :: z :: rest.
Proof. by rewrite insert_app_r. Qed.

Lemma lookup_middle_S {A} (pre : list A) y x rest :
  (pre ++ y :: x :: rest) !! (length pre + 1) = Some x.
Proof. by rewrite lookup_app_r, Nat.add_comm, Nat.add_sub by lia. Qed.

Lemma objs_set_block buf blk s : objs (set_block buf blk s) = objs s.
Proof. unfold set_block. by destruct (block buf). Qed.

Lemma env_set_block buf blk s : env (set_block buf blk s) = env s.
Proof. unfold set_block. by destruct (block buf). Qed.

Lemma objs_free_block buf s : objs (free_block buf s) = objs s.
Proof. unfold free_block. by destruct (block buf). Qed.

Lemma env_free_block buf s : env (free_block buf s) = env s.
Proof. unfold free_block. by destruct (block buf). Qed.

Lemma set_block_set_env buf blk w s :
  set_block buf blk (set_env w s) = set_env w (set_block buf blk s).
Proof. unfold set_block. by destruct (block buf). Qed.

Lemma set_block_set_objs buf blk o s :
  set_block buf blk (set_objs o s) = set_objs o (set_block buf blk s).
Proof. unfold set_block. by destruct (block buf). Qed.

Lemma block_is_set_env s w buf blk :
  block_is (set_env w s) buf blk ↔ block_is s buf blk.
Proof. done. Qed.

Lemma block_is_set_objs s o buf blk :
  block_is (set_objs o s) buf blk ↔ block_is s buf blk.
Proof. done. Qed.

Lemma block_is_length_nil s buf blk :
  block_is s buf blk → block buf = None → blk = [].
Proof. intros [_ H] Hb. by rewrite Hb in H. Qed.

Lemma block_is_inj s buf blk blk' :
  block_is s buf blk → block_is s buf blk' → blk = blk'.
Proof.
  intros [_ H] [_ H']. destruct (block buf); [congruence | by subst].
Qed.

Lemma block_is_set s buf blk blk' :
  block_is s buf blk → length blk' = length blk →
  block_is (set_block buf blk' s) buf blk'.
Proof.
  intros [Ho H] Hlen. split; [done |]. unfold set_block.
  destruct (block buf) as [a |] eqn:Hb; cbn [heap set_heap].
  - by rewrite lookup_insert_eq.
  - subst blk. by destruct blk'.
Qed.

Lemma block_is_set_other s p q blk blk' :
  separate p q → block_is s q blk' → block_is (set_block p blk s) q blk'.
Proof.
  intros Hsep [Ho H]. split; [done |]. unfold set_block.
  destruct (block p) as [a |] eqn:Hp; [| done].
  destruct (block q) as [b |] eqn:Hq; [| done].
  cbn [heap set_heap]. rewrite lookup_insert_ne; [done |].
  intros ->. by apply (Hsep b).
Qed.

Lemma set_block_set_block buf blk blk' s :
  set_block buf blk (set_block buf blk' s) = set_block buf blk s.
Proof.
  unfold set_block. destruct (block buf); [| done].
  unfold set_heap. cbn [heap objs env]. by rewrite insert_insert_eq.
Qed.

Lemma set_block_id s buf blk : block_is s buf blk → set_block buf blk s = s.
Proof.
  intros [_ H]. unfold set_block. destruct (block buf); [| done].
  rewrite insert_id by done. apply set_heap_id.
Qed.

Lemma set_block_comm p q b c s :
  separate p q →
  set_block p b (set_block q c s) = set_block q c (set_block p b s).
Proof.
  intros Hsep. unfold set_block.
  destruct (block p) as [a |] eqn:Hp; destruct (block q) as [a' |] eqn:Hq;
    try done.
  unfold set_heap. cbn [heap objs env]. f_equal.
  apply insert_insert_ne. intros ->. by apply (Hsep a').
Qed.

Lemma separate_sym p q : separate p q → separate q p.
Proof. intros H a Hq Hp. by apply (H a). Qed.

(** ** Slots of a block *)

Lemma load_block s buf blk i x :
  block_is s buf blk → blk !! i = Some (Live x) →
  load (ptr_add buf i) s = (Ok x, s).
Proof.
  intros [Ho H] Hi. destruct buf as [[a |] o]; cbn [block off] in *; subst.
  - by eapply load_Ok.
  - done.
Qed.

Lemma emplace_block s buf blk i x :
  block_is s buf blk → blk !! i = Some Raw →
  emplace_slot (ptr_add buf i) x s
  = (Ok (), set_block buf (<[i := Live x]> blk) s).
Proof.
  intros [Ho H] Hi. destruct buf as [[a |] o]; cbn [block off] in *; subst.
  - by eapply emplace_slot_Ok.
  - done.
Qed.

Lemma store_block s buf blk i x y :
  block_is s buf blk → blk !! i = Some (Live y) →
  store (ptr_add buf i) x s
  = (Ok (), set_block buf (<[i := Live x]> blk) s).
Proof.
  intros [Ho H] Hi. destruct buf as [[a |] o]; cbn [block off] in *; subst.
  - by eapply store_Ok.
  - done.
Qed.

Lemma destroy_block s buf blk i y :
  block_is s buf blk → blk !! i = Some (Live y) →
  destroy_at (ptr_add buf i) s
  = (Ok (), set_block buf (<[i := Raw]> blk) s).
Proof.
  intros [Ho H] Hi. destruct buf as [[a |] o]; cbn [block off] in *; subst.
  - by eapply destroy_at_Ok.
  - done.
Qed.

(** ** Allocation *)

Lemma RawMemory_Allocate_eq n s :
  RawMemory_Allocate n s = (Ok (new_buffer n s), alloc_block n s).
Proof.
  unfold RawMemory_Allocate, new_buffer, alloc_block.
  by destruct (decide (n ≠ 0)).
Qed.

Lemma RawMemory_ctor_eq n s :
  RawMemory_ctor n s
  = (Ok {| buffer_ := new_buffer n s; capacity_ := n |}, alloc_block n s).
Proof.
  unfold RawMemory_ctor. by rewrite (bind_Ok _ _ _ _ _ (RawMemory_Allocate_eq n s)).
Qed.

Lemma fresh_heap_None (s : state) : heap s !! fresh (dom (heap s)) = None.
Proof. apply not_elem_of_dom, is_fresh. Qed.

Lemma objs_alloc_block n s : objs (alloc_block n s) = objs s.
Proof. unfold alloc_block. by destruct (decide _). Qed.

Lemma env_alloc_block n s : env (alloc_block n s) = env s.
Proof. unfold alloc_block. by destruct (decide _). Qed.

Lemma new_buffer_off n s : off (new_buffer n s) = 0.
Proof. unfold new_buffer. by destruct (decide _). Qed.

Lemma block_is_new n s :
  block_is (alloc_block n s) (new_buffer n s) (replicate n Raw).
Proof.
  unfold alloc_block, new_buffer, block_is.
  destruct (decide (n ≠ 0)) as [Hn | Hn]; cbn [block off heap set_heap].
  - by rewrite lookup_insert_eq.
  - split; [done |]. by replace n with 0 by lia.
Qed.

Lemma block_is_alloc n s buf blk :
  block_is s buf blk → block_is (alloc_block n s) buf blk.
Proof.
  intros [Ho H]. split; [done |]. unfold alloc_block.
  destruct (decide _); [| done].
  destruct (block buf) as [a |]; [| done]. cbn [heap set_heap].
  rewrite lookup_insert_ne; [done |].
  intros <-. by rewrite fresh_heap_None in H.
Qed.

Lemma separate_new n s buf blk :
  block_is s buf blk → separate buf (new_buffer n s).
Proof.
  intros [_ H] a Ha. unfold new_buffer.
  destruct (decide _); cbn [block]; [| done].
  intros [= Hf]. rewrite Ha, <- Hf, fresh_heap_None in H. done.
Qed.

(** Releasing the block just allocated gives the heap back as it was. *)
Lemma free_new_block n blk s :
  free_block (new_buffer n s) (set_block (new_buffer n s) blk (alloc_block n s))
  = s.
Proof.
  unfold free_block, set_block, new_buffer, alloc_block.
  destruct (decide (n ≠ 0)); cbn [block heap set_heap objs env]; [| done].
  unfold set_heap. cbn [heap objs env].
  rewrite !delete_insert_eq, delete_id by apply fresh_heap_None.
  apply state_eta.
Qed.

Lemma free_alloc_block n s :
  free_block (new_buffer n s) (alloc_block n s) = s.
Proof.
  rewrite <- (set_block_id _ _ _ (block_is_new n s)) at 1.
  apply free_new_block.
Qed.

Lemma operator_delete_block s buf blk :
  block_is s buf blk → operator_delete buf s = (Ok (), free_block buf s).
Proof.
  intros [Ho H]. unfold operator_delete, free_block.
  destruct (block buf); [| done]. rewrite H. by rewrite decide_True.
Qed.

Lemma block_is_free_other s p q blk :
  separate p q → block_is s q blk → block_is (free_block p s) q blk.
Proof.
  intros Hsep [Ho H]. split; [done |]. unfold free_block.
  destruct (block p) as [a |] eqn:Hp; [| done].
  destruct (block q) as [b |] eqn:Hq; [| done].
  cbn [heap set_heap]. rewrite lookup_delete_ne; [done |].
  intros ->. by apply (Hsep b).
Qed.

Lemma free_block_set_block p blk s :
  free_block p (set_block p blk s) = free_block p s.
Proof.
  unfold free_block, set_block. destruct (block p); [| done].
  unfold set_heap. cbn [heap objs env]. by rewrite delete_insert_eq.
Qed.

Lemma free_block_set_other p q blk s :
  separate p q →
  free_block p (set_block q blk s) = set_block q blk (free_block p s).
Proof.
  intros Hsep. unfold free_block, set_block.
  destruct (block p) as [a |] eqn:Hp; destruct (block q) as [b |] eqn:Hq;
    try done.
  unfold set_heap. cbn [heap objs env]. rewrite delete_insert_ne; [done |].
  intros ->. by apply (Hsep b).
Qed.

Lemma free_block_set_env p w s :
  free_block p (set_env w s) = set_env w (free_block p s).
Proof. unfold free_block. by destruct (block p). Qed.

Lemma free_block_set_objs p o s :
  free_block p (set_objs o s) = set_objs o (free_block p s).
Proof. unfold free_block. by destruct (block p). Qed.

Lemma block_is_set_new s p blk :
  off p = 0 → block p ≠ None → block_is (set_block p blk s) p blk.
Proof.
  intros Ho Hb. split; [done |]. unfold set_block.
  destruct (block p); [| done]. cbn [heap set_heap].
  by rewrite lookup_insert_eq.
Qed.

Lemma new_buffer_block n s : n ≠ 0 → block (new_buffer n s) ≠ None.
Proof. intros Hn. unfold new_buffer. by rewrite decide_True. Qed.

Lemma block_is_eq s p blk blk' :
  block_is s p blk → blk = blk' → block_is s p blk'.
Proof. by intros H <-. Qed.

Lemma env_free_alloc_set buf blk n s :
  env (set_block buf blk (alloc_block n s)) = env s.
Proof. by rewrite env_set_block, env_alloc_block. Qed.

End Blocks.

(** States are kept in the form [set_objs _ (set_env _ (set_block _ ...))]. *)
Ltac norm_state :=
  repeat first
    [ rewrite set_block_set_block
    | rewrite free_block_set_block
    | rewrite set_block_set_env
    | rewrite free_block_set_env
    | rewrite set_env_set_env
    | rewrite set_block_set_objs
    | rewrite free_block_set_objs
    | rewrite set_objs_set_objs
    | rewrite set_env_set_objs
    | rewrite objs_set_block
    | rewrite objs_free_block
    | rewrite objs_alloc_block
    | rewrite objs_set_env
    | rewrite objs_set_objs
    | rewrite env_set_block
    | rewrite env_free_block
    | rewrite env_alloc_block
    | rewrite env_set_env
    | rewrite env_set_objs ].


(** What a block holds in a state built from [set_block], [set_env],
    [set_objs] and [alloc_block] over a state where it is known. *)
Ltac block_tac :=
  lazymatch goal with
  | |- block_is (set_objs _ _) _ _ => apply block_is_set_objs; block_tac
  | |- block_is (set_env _ _) _ _ => apply block_is_set_env; block_tac
  | |- block_is (set_block ?p _ _) ?p _ =>
      eapply block_is_eq;
      [ eapply block_is_set; [block_tac | solve_length] | try reflexivity ]
  | |- block_is (set_block _ _ _) _ _ =>
      apply block_is_set_other;
      [ first [assumption | apply separate_sym; assumption] | block_tac ]
  | |- block_is (alloc_block _ _) _ _ =>
      first [apply block_is_new | apply block_is_alloc; block_tac]
  | |- _ => eassumption
  end.

(** * The algorithms on blocks *)

Section Algorithms.
Context `{P : Payload}.

Lemma length_snoc {A} (l : list A) x : length (l ++ [x]) = length l + 1.
Proof. rewrite length_app. cbn [length]. lia. Qed.

Lemma destroy_n_block xs : ∀ s buf pre post,
  block_is s buf (pre ++ (Live <$> xs) ++ post) →
  destroy_n (ptr_add buf (length pre)) (length xs) s
  = (Ok (ptr_add buf (length pre + length xs)),
     set_block buf (pre ++ replicate (length xs) Raw ++ post) s).
Proof.
  induction xs as [| x xs IH]; intros s buf pre post Hb.
  - cbn [destroy_n length replicate app]. unfold ret.
    rewrite Nat.add_0_r. by rewrite set_block_id.
  - cbn [destroy_n length]. rewrite fmap_cons in Hb. cbn [app] in Hb.
    rewrite (bind_Ok _ _ _ _ _
      (destroy_block _ _ _ _ x Hb (list_lookup_middle _ _ _ _ eq_refl))).
    rewrite insert_middle, ptr_add_add, <- (length_snoc pre Raw).
    rewrite IH with (post := post).
    + rewrite set_block_set_block, length_snoc.
      rewrite <- app_assoc.
      by replace (length pre + 1 + length xs) with (length pre + S (length xs)) by lia.
    + rewrite <- app_assoc. eapply block_is_set; [done |].
      solve_length.
Qed.

(** ** Construction and assignment of one object *)

Lemma T_ctor_copy s src x :
  load src s = (Ok x, s) →
  T_ctor (ByCopy src) s
  = (if (copy_construct x (env s)).1 then Ok x else Throw,
     set_env (copy_construct x (env s)).2 s).
Proof.
  intros Hl. unfold T_ctor. rewrite (bind_Ok _ _ _ _ _ Hl).
  unfold bind. rewrite attempt_eq.
  by destruct (copy_construct x (env s)) as [[] w].
Qed.

Lemma T_ctor_move s p blk i x :
  block_is s p blk → blk !! i = Some (Live x) →
  T_ctor (ByMove (ptr_add p i)) s
  = (Ok x, set_block p (<[i := Live (moved_from x)]> blk) s).
Proof.
  intros Hb Hi. unfold T_ctor.
  rewrite (bind_Ok _ _ _ _ _ (load_block _ _ _ _ _ Hb Hi)).
  by rewrite (bind_Ok _ _ _ _ _ (store_block _ _ _ _ _ _ Hb Hi)).
Qed.

Lemma construct_copy_block s q bd j src x :
  block_is s q bd → bd !! j = Some Raw → load src s = (Ok x, s) →
  construct_at (ptr_add q j) (ByCopy src) s
  = if (copy_construct x (env s)).1
    then (Ok (), set_env (copy_construct x (env s)).2
                   (set_block q (<[j := Live x]> bd) s))
    else (Throw, set_env (copy_construct x (env s)).2 s).
Proof.
  intros Hq Hj Hl. unfold construct_at, bind. rewrite (T_ctor_copy _ _ _ Hl).
  destruct (copy_construct x (env s)) as [[] w]; cbn [fst snd]; [| done].
  rewrite (emplace_block _ _ bd j) by done.
  by rewrite set_block_set_env.
Qed.

Lemma construct_move_block s p q bs bd i j x :
  separate p q →
  block_is s p bs → block_is s q bd →
  bs !! i = Some (Live x) → bd !! j = Some Raw →
  construct_at (ptr_add q j) (ByMove (ptr_add p i)) s
  = (Ok (), set_block q (<[j := Live x]> bd)
              (set_block p (<[i := Live (moved_from x)]> bs) s)).
Proof.
  intros Hsep Hp Hq Hi Hj. unfold construct_at.
  rewrite (bind_Ok _ _ _ _ _ (T_ctor_move _ _ _ _ _ Hp Hi)).
  apply emplace_block; [| done]. by apply block_is_set_other.
Qed.

Lemma construct_move_same s p b i j x :
  block_is s p b → b !! i = Some (Live x) → b !! j = Some Raw →
  construct_at (ptr_add p j) (ByMove (ptr_add p i)) s
  = (Ok (), set_block p (<[j := Live x]> (<[i := Live (moved_from x)]> b)) s).
Proof.
  intros Hp Hi Hj. unfold construct_at.
  rewrite (bind_Ok _ _ _ _ _ (T_ctor_move _ _ _ _ _ Hp Hi)).
  assert (i ≠ j) by (intros ->; congruence).
  erewrite emplace_block.
  - by rewrite set_block_set_block.
  - eapply block_is_set; [done |]. by rewrite length_insert.
  - by rewrite list_lookup_insert_ne.
Qed.

Lemma value_construct_block s q bd j :
  block_is s q bd → bd !! j = Some Raw →
  value_construct_at (ptr_add q j) s
  = if (value_construct (env s)).1
    then (Ok (), set_env (value_construct (env s)).2
                   (set_block q (<[j := Live value_init]> bd) s))
    else (Throw, set_env (value_construct (env s)).2 s).
Proof.
  intros Hq Hj. unfold value_construct_at, bind. rewrite attempt_eq.
  destruct (value_construct (env s)) as [[] w]; cbn [fst snd]; [| done].
  rewrite (emplace_block _ _ bd j) by done.
  by rewrite set_block_set_env.
Qed.

Lemma T_copy_assign_block s q bd j y src x :
  block_is s q bd → bd !! j = Some (Live y) → load src s = (Ok x, s) →
  T_copy_assign (ptr_add q j) src s
  = if (copy_assign y x (env s)).1
    then (Ok (), set_env (copy_assign y x (env s)).2
                   (set_block q (<[j := Live x]> bd) s))
    else (Throw, set_env (copy_assign y x (env s)).2 s).
Proof.
  intros Hq Hj Hl. unfold T_copy_assign.
  rewrite (bind_Ok _ _ _ _ _ (load_block _ _ _ _ _ Hq Hj)).
  rewrite (bind_Ok _ _ _ _ _ Hl).
  unfold bind. rewrite attempt_eq.
  destruct (copy_assign y x (env s)) as [[] w]; cbn [fst snd]; [| done].
  rewrite (store_block _ _ bd j _ y) by done.
  by rewrite set_block_set_env.
Qed.

Lemma T_move_assign_same s p b i j x y :
  block_is s p b → b !! i = Some (Live x) → b !! j = Some (Live y) → i ≠ j →
  T_move_assign (ptr_add p j) (ptr_add p i) s
  = (Ok (), set_block p (<[j := Live x]> (<[i := Live (moved_from x)]> b)) s).
Proof.
  intros Hp Hi Hj Hij. unfold T_move_assign.
  rewrite (bind_Ok _ _ _ _ _ (load_block _ _ _ _ _ Hp Hi)).
  rewrite (bind_Ok _ _ _ _ _ (store_block _ _ _ _ _ _ Hp Hi)).
  erewrite store_block.
  - by rewrite set_block_set_block.
  - eapply block_is_set; [done |]. by rewrite length_insert.
  - by rewrite list_lookup_insert_ne.
Qed.

(** ** The loops *)

Lemma uninitialized_move_n_block xs : ∀ s p q pre post dpre dpost,
  separate p q →
  block_is s p (pre ++ (Live <$> xs) ++ post) →
  block_is s q (dpre ++ replicate (length xs) Raw ++ dpost) →
  uninitialized_move_n (ptr_add p (length pre)) (length xs)
                       (ptr_add q (length dpre)) s
  = (Ok (ptr_add q (length dpre + length xs)),
     set_block q (dpre ++ (Live <$> xs) ++ dpost)
       (set_block p (pre ++ (Live ∘ moved_from <$> xs) ++ post) s)).
Proof.
  induction xs as [| x xs IH]; intros s p q pre post dpre dpost Hsep Hp Hq.
  - cbn [uninitialized_move_n length replicate app fmap list_fmap] in *.
    unfold ret. rewrite Nat.add_0_r.
    rewrite (set_block_id _ p) by done. by rewrite set_block_id.
  - cbn [uninitialized_move_n length]. rewrite fmap_cons in Hp.
    cbn [app length replicate] in Hp, Hq.
    rewrite (bind_Ok _ _ _ _ _
      (construct_move_block _ _ _ _ _ _ _ x Hsep Hp Hq
         (list_lookup_middle _ _ _ _ eq_refl)
         (list_lookup_middle _ _ _ _ eq_refl))).
    rewrite !insert_middle, !ptr_add_add.
    rewrite <- (length_snoc pre (Live (moved_from x))).
    rewrite <- (length_snoc dpre (Live x)).
    rewrite (IH _ _ _ _ post _ dpost Hsep).
    + rewrite (set_block_comm p q) by done.
      rewrite !set_block_set_block.
      rewrite length_snoc, <- !app_assoc, fmap_cons.
      by replace (length dpre + 1 + length xs)
        with (length dpre + S (length xs)) by lia.
    + apply block_is_set_other; [by apply separate_sym |].
      rewrite <- app_assoc. eapply block_is_set; [done |]. solve_length.
    + rewrite <- app_assoc. eapply block_is_set.
      * by apply block_is_set_other.
      * solve_length.
Qed.

Lemma uninitialized_copy_n_block xs : ∀ s p q pre post dpre dpost,
  separate p q →
  block_is s p (pre ++ (Live <$> xs) ++ post) →
  block_is s q (dpre ++ replicate (length xs) Raw ++ dpost) →
  uninitialized_copy_n (ptr_add p (length pre)) (length xs)
                       (ptr_add q (length dpre)) s
  = if (copy_all xs (env s)).1
    then (Ok (ptr_add q (length dpre + length xs)),
          set_env (copy_all xs (env s)).2
            (set_block q (dpre ++ (Live <$> xs) ++ dpost) s))
    else (Throw, set_env (copy_all xs (env s)).2 s).
Proof.
  induction xs as [| x xs IH]; intros s p q pre post dpre dpost Hsep Hp Hq.
  - cbn [uninitialized_copy_n length replicate app fmap list_fmap copy_all
         fst snd] in *.
    unfold ret. rewrite Nat.add_0_r, set_block_id by done.
    by rewrite set_env_id.
  - cbn [uninitialized_copy_n length copy_all]. rewrite fmap_cons in Hp.
    cbn [app length replicate] in Hp, Hq.
    unfold bind at 1.
    rewrite (construct_copy_block _ _ _ _ _ x Hq
               (list_lookup_middle _ _ _ _ eq_refl)
               (load_block _ _ _ _ _ Hp (list_lookup_middle _ _ _ _ eq_refl))).
    destruct (copy_construct x (env s)) as [[] w]; cbn [fst snd]; [| done].
    rewrite !insert_middle, !ptr_add_add.
    rewrite <- (length_snoc pre (Live x)), <- (length_snoc dpre (Live x)).
    unfold on_throw.
    rewrite (IH _ _ _ _ post _ dpost Hsep).
    + rewrite env_set_env.
      destruct (copy_all xs w) as [[] w2]; cbn [fst snd].
      * rewrite set_block_set_env, set_block_set_block, set_env_set_env.
        rewrite length_snoc, <- !app_assoc.
        by replace (length dpre + 1 + length xs)
          with (length dpre + S (length xs)) by lia.
      * erewrite destroy_block.
        -- rewrite insert_middle, !set_block_set_env, set_env_set_env.
           rewrite set_block_set_block.
           by rewrite set_block_id.
        -- apply block_is_set_env. eapply block_is_set; [done |]. solve_length.
        -- apply list_lookup_middle. done.
    + apply block_is_set_env. apply block_is_set_other; [by apply separate_sym |].
      by rewrite <- app_assoc.
    + apply block_is_set_env. rewrite <- app_assoc.
      eapply block_is_set; [done |]. solve_length.
Qed.

Lemma uninitialized_value_construct_n_block n : ∀ s q dpre dpost,
  block_is s q (dpre ++ replicate n Raw ++ dpost) →
  uninitialized_value_construct_n (ptr_add q (length dpre)) n s
  = if (value_all n (env s)).1
    then (Ok (ptr_add q (length dpre + n)),
          set_env (value_all n (env s)).2
            (set_block q (dpre ++ replicate n (Live value_init) ++ dpost) s))
    else (Throw, set_env (value_all n (env s)).2 s).
Proof.
  induction n as [| n IH]; intros s q dpre dpost Hq.
  - cbn [uninitialized_value_construct_n replicate app value_all fst snd] in *.
    unfold ret. rewrite Nat.add_0_r, set_block_id by done.
    by rewrite set_env_id.
  - cbn [uninitialized_value_construct_n value_all].
    cbn [app replicate] in Hq.
    unfold bind at 1.
    rewrite (value_construct_block _ _ _ _ Hq
               (list_lookup_middle _ _ _ _ eq_refl)).
    destruct (value_construct (env s)) as [[] w]; cbn [fst snd]; [| done].
    rewrite !insert_middle, !ptr_add_add.
    rewrite <- (length_snoc dpre (Live value_init)).
    unfold on_throw.
    rewrite (IH _ _ _ dpost).
    + rewrite env_set_env.
      destruct (value_all n w) as [[] w2]; cbn [fst snd].
      * rewrite set_block_set_env, set_block_set_block, set_env_set_env.
        rewrite length_snoc, <- !app_assoc.
        by replace (length dpre + 1 + n) with (length dpre + S n) by lia.
      * erewrite destroy_block.
        -- rewrite insert_middle, !set_block_set_env, set_env_set_env.
           rewrite set_block_set_block.
           by rewrite set_block_id.
        -- apply block_is_set_env. eapply block_is_set; [done |]. solve_length.
        -- apply list_lookup_middle. done.
    + apply block_is_set_env. rewrite <- app_assoc.
      eapply block_is_set; [done |]. solve_length.
Qed.

(** Copy assignment from one block to another. *)
Lemma copy_n_block xs : ∀ ys s p q pre post dpre dpost,
  length ys = length xs →
  separate p q →
  block_is s p (pre ++ (Live <$> xs) ++ post) →
  block_is s q (dpre ++ (Live <$> ys) ++ dpost) →
  copy_n (ptr_add p (length pre)) (length xs) (ptr_add q (length dpre)) s
  = (if (assign_all ys xs (env s)).1.2
     then Ok (ptr_add q (length dpre + length xs)) else Throw,
     set_env (assign_all ys xs (env s)).2
       (set_block q (dpre ++ (Live <$> (assign_all ys xs (env s)).1.1) ++ dpost)
          s)).
Proof.
  induction xs as [| x xs IH];
    intros [| y ys] s p q pre post dpre dpost Hlen Hsep Hp Hq;
    try discriminate Hlen.
  - cbn [copy_n length app fmap list_fmap assign_all fst snd] in *.
    unfold ret. rewrite Nat.add_0_r, set_block_id by done.
    by rewrite set_env_id.
  - cbn [copy_n length assign_all]. rewrite fmap_cons in Hp, Hq.
    cbn [app length] in Hp, Hq.
    unfold bind at 1.
    rewrite (T_copy_assign_block _ _ _ _ y _ x Hq
               (list_lookup_middle _ _ _ _ eq_refl)
               (load_block _ _ _ _ _ Hp (list_lookup_middle _ _ _ _ eq_refl))).
    destruct (copy_assign y x (env s)) as [[] w]; cbn [fst snd].
    + rewrite !insert_middle, !ptr_add_add.
      rewrite <- (length_snoc pre (Live x)), <- (length_snoc dpre (Live x)).
      rewrite (IH ys _ _ _ _ post _ dpost); [| by injection Hlen | done | |].
      * rewrite env_set_env.
        destruct (assign_all ys xs w) as [[l b] w2]; cbn [fst snd].
        rewrite set_block_set_env, set_block_set_block, set_env_set_env.
        rewrite length_snoc, <- !app_assoc, fmap_cons.
        by replace (length dpre + 1 + length xs)
          with (length dpre + S (length xs)) by lia.
      * apply block_is_set_env.
        apply block_is_set_other; [by apply separate_sym |].
        by rewrite <- app_assoc.
      * apply block_is_set_env. rewrite <- app_assoc.
        eapply block_is_set; [done |]. solve_length.
    + rewrite fmap_cons. cbn [app]. by rewrite set_block_id.
Qed.

(** Copy assignment of a range to the range one slot earlier, in one block. *)
Lemma copy_n_shift xs : ∀ y s p pre post,
  block_is s p (pre ++ Live y :: (Live <$> xs) ++ post) →
  copy_n (ptr_add p (length pre + 1)) (length xs) (ptr_add p (length pre)) s
  = (if (shift_copy y xs (env s)).1.2
     then Ok (ptr_add p (length pre + length xs)) else Throw,
     set_env (shift_copy y xs (env s)).2
       (set_block p (pre ++ (Live <$> (shift_copy y xs (env s)).1.1) ++ post)
          s)).
Proof.
  induction xs as [| x xs IH]; intros y s p pre post Hp.
  - cbn [copy_n length app fmap list_fmap shift_copy fst snd] in *.
    unfold ret. rewrite Nat.add_0_r, set_block_id by done.
    by rewrite set_env_id.
  - cbn [copy_n length shift_copy]. rewrite fmap_cons in Hp.
    cbn [app length] in Hp.
    unfold bind at 1.
    rewrite (T_copy_assign_block _ _ _ _ y _ x Hp
               (list_lookup_middle _ _ _ _ eq_refl)).
    2:{ eapply load_block; [done |]. apply lookup_middle_S. }
    destruct (copy_assign y x (env s)) as [[] w]; cbn [fst snd].
    + rewrite !insert_middle, !ptr_add_add.
      rewrite <- (length_snoc pre (Live x)).
      rewrite (IH x _ _ _ post).
      * rewrite env_set_env.
        destruct (shift_copy x xs w) as [[l b] w2]; cbn [fst snd].
        rewrite set_block_set_env, set_block_set_block, set_env_set_env.
        rewrite length_snoc, <- !app_assoc, fmap_cons.
        by replace (length pre + 1 + length xs)
          with (length pre + S (length xs)) by lia.
      * apply block_is_set_env. rewrite <- app_assoc.
        eapply block_is_set; [done |]. solve_length.
    + rewrite !fmap_cons. cbn [app]. by rewrite set_block_id.
Qed.

(** Move assignment of a range to the range one slot earlier, in one block. *)
Lemma move_n_shift xs : ∀ y s p pre post,
  block_is s p (pre ++ Live y :: (Live <$> xs) ++ post) →
  move_n (ptr_add p (length pre + 1)) (length xs) (ptr_add p (length pre)) s
  = (Ok (ptr_add p (length pre + length xs)),
     set_block p
       (pre ++ (Live <$> xs) ++ Live (shift_move_residue y xs) :: post) s).
Proof.
  induction xs as [| x xs IH]; intros y s p pre post Hp.
  - cbn [move_n length app fmap list_fmap shift_move_residue] in *.
    unfold ret. by rewrite Nat.add_0_r, set_block_id.
  - cbn [move_n length shift_move_residue]. rewrite fmap_cons in Hp.
    cbn [app length] in Hp.
    erewrite bind_Ok.
    2:{ eapply (T_move_assign_same _ _ _ (length pre + 1) (length pre) x y);
          [done | apply lookup_middle_S | by apply list_lookup_middle | lia]. }
    rewrite insert_middle_S, insert_middle, !ptr_add_add.
    rewrite <- (length_snoc pre (Live x)).
    rewrite (IH (moved_from x) _ _ _ post).
    + rewrite set_block_set_block.
      rewrite length_snoc, <- !app_assoc, fmap_cons.
      by replace (length pre + 1 + length xs)
        with (length pre + S (length xs)) by lia.
    + rewrite <- app_assoc.
      eapply block_is_set; [done |]. solve_length.
Qed.

Lemma shift_back_residue_snoc r x y :
  shift_back_residue (r ++ [x]) y = shift_back_residue r (moved_from x).
Proof. by destruct r. Qed.

(** Move assignment of a range to the range one slot later, back to front,
    in one block. *)
Lemma move_backward_n_block xs : ∀ y s p pre post,
  block_is s p (pre ++ (Live <$> xs) ++ Live y :: post) →
  move_backward_n (length xs) (ptr_add p (length pre + length xs))
                  (ptr_add p (S (length pre + length xs))) s
  = (Ok (ptr_add p (S (length pre))),
     set_block p
       (pre ++ Live (shift_back_residue xs y) :: (Live <$> xs) ++ post) s).
Proof.
  induction xs as [| x r IH] using rev_ind; intros y s p pre post Hp.
  - cbn [move_backward_n length app fmap list_fmap shift_back_residue] in *.
    unfold ret. by rewrite Nat.add_0_r, set_block_id.
  - rewrite length_snoc, shift_back_residue_snoc.
    replace (length r + 1) with (S (length r)) by lia.
    replace (length pre + S (length r)) with (S (length pre + length r)) by lia.
    cbn [move_backward_n].
    rewrite (bind_Ok _ _ _ _ _ (ptr_sub_add_S _ _ _)).
    rewrite (bind_Ok _ _ _ _ _ (ptr_sub_add_S _ _ _)).
    rewrite fmap_app, <- app_assoc in Hp. cbn [fmap list_fmap app] in Hp.
    rewrite app_assoc in Hp.
    erewrite bind_Ok.
    2:{ replace (S (length pre + length r))
          with (length (pre ++ (Live <$> r)) + 1) by solve_length.
        replace (length pre + length r)
          with (length (pre ++ (Live <$> r))) by solve_length.
        eapply (T_move_assign_same _ _ _ _ _ x y);
          [done | by apply list_lookup_middle | apply lookup_middle_S | lia]. }
    rewrite insert_middle, insert_middle_S, <- app_assoc.
    rewrite (IH (moved_from x) _ _ _ (Live x :: post)).
    + rewrite set_block_set_block.
      rewrite fmap_app, <- app_assoc. done.
    + eapply block_is_set; [done |]. solve_length.
Qed.

(** ** The same, with the positions given by equations *)

Lemma destroy_n_at xs s buf pre post i n :
  i = length pre → n = length xs →
  block_is s buf (pre ++ (Live <$> xs) ++ post) →
  destroy_n (ptr_add buf i) n s
  = (Ok (ptr_add buf (i + n)),
     set_block buf (pre ++ replicate n Raw ++ post) s).
Proof. intros -> ->. apply destroy_n_block. Qed.

Lemma uninitialized_move_n_at xs s p q pre post dpre dpost i j n :
  i = length pre → j = length dpre → n = length xs →
  separate p q →
  block_is s p (pre ++ (Live <$> xs) ++ post) →
  block_is s q (dpre ++ replicate n Raw ++ dpost) →
  uninitialized_move_n (ptr_add p i) n (ptr_add q j) s
  = (Ok (ptr_add q (j + n)),
     set_block q (dpre ++ (Live <$> xs) ++ dpost)
       (set_block p (pre ++ (Live ∘ moved_from <$> xs) ++ post) s)).
Proof. intros -> -> ->. apply uninitialized_move_n_block. Qed.

Lemma uninitialized_copy_n_at xs s p q pre post dpre dpost i j n :
  i = length pre → j = length dpre → n = length xs →
  separate p q →
  block_is s p (pre ++ (Live <$> xs) ++ post) →
  block_is s q (dpre ++ replicate n Raw ++ dpost) →
  uninitialized_copy_n (ptr_add p i) n (ptr_add q j) s
  = if (copy_all xs (env s)).1
    then (Ok (ptr_add q (j + n)),
          set_env (copy_all xs (env s)).2
            (set_block q (dpre ++ (Live <$> xs) ++ dpost) s))
    else (Throw, set_env (copy_all xs (env s)).2 s).
Proof. intros -> -> ->. apply uninitialized_copy_n_block. Qed.

(** ** The same, from the start of a block *)

Lemma destroy_n_front xs s buf post :
  block_is s buf ((Live <$> xs) ++ post) →
  destroy_n buf (length xs) s
  = (Ok (ptr_add buf (length xs)),
     set_block buf (replicate (length xs) Raw ++ post) s).
Proof.
  intros Hb. pose proof (destroy_n_block xs s buf [] post Hb) as H.
  cbn [length app] in H. by rewrite ptr_add_0 in H.
Qed.

Lemma destroy_n_front_len xs n s buf post :
  n = length xs →
  block_is s buf ((Live <$> xs) ++ post) →
  destroy_n buf n s
  = (Ok (ptr_add buf n), set_block buf (replicate n Raw ++ post) s).
Proof. intros ->. apply destroy_n_front. Qed.

Lemma uninitialized_move_n_front xs s p q post dpost :
  separate p q →
  block_is s p ((Live <$> xs) ++ post) →
  block_is s q (replicate (length xs) Raw ++ dpost) →
  uninitialized_move_n p (length xs) q s
  = (Ok (ptr_add q (length xs)),
     set_block q ((Live <$> xs) ++ dpost)
       (set_block p ((Live ∘ moved_from <$> xs) ++ post) s)).
Proof.
  intros Hsep Hp Hq.
  pose proof (uninitialized_move_n_block xs s p q [] post [] dpost Hsep Hp Hq)
    as H.
  cbn [length app] in H. by rewrite !ptr_add_0 in H.
Qed.

Lemma uninitialized_copy_n_front xs s p q post dpost :
  separate p q →
  block_is s p ((Live <$> xs) ++ post) →
  block_is s q (replicate (length xs) Raw ++ dpost) →
  uninitialized_copy_n p (length xs) q s
  = if (copy_all xs (env s)).1
    then (Ok (ptr_add q (length xs)),
          set_env (copy_all xs (env s)).2
            (set_block q ((Live <$> xs) ++ dpost) s))
    else (Throw, set_env (copy_all xs (env s)).2 s).
Proof.
  intros Hsep Hp Hq.
  pose proof (uninitialized_copy_n_block xs s p q [] post [] dpost Hsep Hp Hq)
    as H.
  cbn [length app] in H. by rewrite !ptr_add_0 in H.
Qed.

Lemma copy_n_front xs ys s p q post dpost :
  length ys = length xs →
  separate p q →
  block_is s p ((Live <$> xs) ++ post) →
  block_is s q ((Live <$> ys) ++ dpost) →
  copy_n p (length xs) q s
  = (if (assign_all ys xs (env s)).1.2
     then Ok (ptr_add q (length xs)) else Throw,
     set_env (assign_all ys xs (env s)).2
       (set_block q ((Live <$> (assign_all ys xs (env s)).1.1) ++ dpost) s)).
Proof.
  intros Hlen Hsep Hp Hq.
  pose proof (copy_n_block xs ys s p q [] post [] dpost Hlen Hsep Hp Hq) as H.
  cbn [length app] in H. by rewrite !ptr_add_0 in H.
Qed.

Lemma uninitialized_value_construct_n_front n s q dpost :
  block_is s q (replicate n Raw ++ dpost) →
  uninitialized_value_construct_n q n s
  = if (value_all n (env s)).1
    then (Ok (ptr_add q n),
          set_env (value_all n (env s)).2
            (set_block q (replicate n (Live value_init) ++ dpost) s))
    else (Throw, set_env (value_all n (env s)).2 s).
Proof.
  intros Hq.
  pose proof (uninitialized_value_construct_n_block n s q [] dpost Hq) as H.
  cbn [length app] in H. by rewrite !ptr_add_0 in H.
Qed.

End Algorithms.

(** * Vectors and what they represent *)

Section Representation.
Context `{P : Payload}.

Lemma length_slots_of xs cap : length xs ≤ cap → length (slots_of xs cap) = cap.
Proof. intros H. unfold slots_of. solve_length. Qed.

Lemma slots_of_split xs cap :
  slots_of xs cap = [] ++ (Live <$> xs) ++ replicate (cap - length xs) Raw.
Proof. done. Qed.

Lemma replicate_split n k (x : slot) :
  k ≤ n → replicate n x = [] ++ replicate k x ++ replicate (n - k) x.
Proof.
  intros Hk. cbn [app]. rewrite <- replicate_add. f_equal. lia.
Qed.

Lemma represents_read s this buf xs cap :
  represents s this buf xs cap →
  read this s
  = (Ok {| data_ := {| buffer_ := buf; capacity_ := cap |};
           size_ := length xs |}, s).
Proof. intros (Ho & _ & _). by apply read_Ok. Qed.

Lemma represents_set_env s w this buf xs cap :
  represents s this buf xs cap → represents (set_env w s) this buf xs cap.
Proof. done. Qed.

Lemma represents_relocated s this buf blk xs n :
  block_is s buf blk → length xs ≤ n → n ≠ 0 →
  represents (relocated this buf n xs s) this (new_buffer n s) xs n.
Proof.
  intros Hb Hlen Hn. unfold relocated. split; [| split; [done |]].
  - rewrite objs_set_objs. by rewrite lookup_insert_eq.
  - apply block_is_set_objs. apply block_is_free_other.
    + by eapply separate_new.
    + apply block_is_set_new; [apply new_buffer_off | by apply new_buffer_block].
Qed.

(** ** Observations *)

Lemma live_prefix_slots_of xs cap :
  live_prefix (length xs) (slots_of xs cap) = Some xs.
Proof.
  unfold live_prefix, slots_of.
  rewrite take_app_length' by by rewrite length_fmap.
  by apply mapM_fmap_Some.
Qed.

Lemma slots_of_nil_inv xs cap : slots_of xs cap = [] → xs = [].
Proof. unfold slots_of. by destruct xs. Qed.

Lemma represents_elems s this buf xs cap :
  represents s this buf xs cap → Vector_elems s this = Some xs.
Proof.
  intros (Ho & Hlen & _ & Hb). unfold Vector_elems. rewrite Ho.
  cbn [mbind option_bind data_ buffer_ size_].
  destruct (block buf) as [a |].
  - rewrite Hb. cbn [mbind option_bind]. apply live_prefix_slots_of.
  - apply slots_of_nil_inv in Hb. by subst.
Qed.

Lemma represents_size s this buf xs cap :
  represents s this buf xs cap → Vector_size s this = Some (length xs).
Proof. intros (Ho & _). unfold Vector_size. by rewrite Ho. Qed.

Lemma represents_capacity s this buf xs cap :
  represents s this buf xs cap → Vector_capacity s this = Some cap.
Proof. intros (Ho & _). unfold Vector_capacity. by rewrite Ho. Qed.

Lemma represents_buffer s this buf xs cap :
  represents s this buf xs cap → Vector_buffer s this = Some buf.
Proof. intros (Ho & _). unfold Vector_buffer. by rewrite Ho. Qed.

Lemma represents_inj s this buf xs cap buf' xs' cap' :
  represents s this buf xs cap → represents s this buf' xs' cap' →
  buf' = buf ∧ xs' = xs ∧ cap' = cap.
Proof.
  intros H H'.
  pose proof (represents_elems _ _ _ _ _ H).
  pose proof (represents_elems _ _ _ _ _ H').
  destruct H as (Ho & _), H' as (Ho' & _). rewrite Ho in Ho'.
  injection Ho' as -> -> _. split; [done |]. split; [congruence | done].
Qed.

Lemma lookup_slots_of_live xs cap i :
  i < length xs → ∃ x, slots_of xs cap !! i = Some (Live x).
Proof.
  intros Hi. destruct (lookup_lt_is_Some_2 xs i Hi) as [x Hx]. exists x.
  unfold slots_of. rewrite lookup_app_l by by rewrite length_fmap.
  by rewrite list_lookup_fmap, Hx.
Qed.

Lemma lookup_slots_of_raw xs cap i :
  length xs ≤ i < cap → slots_of xs cap !! i = Some Raw.
Proof.
  intros Hi. unfold slots_of.
  rewrite lookup_app_r by (rewrite length_fmap; lia).
  rewrite length_fmap. apply lookup_replicate_2. lia.
Qed.

Lemma represents_invariant s this buf xs cap :
  represents s this buf xs cap → Vector_invariant s this.
Proof.
  intros (Ho & Hlen & Hoff & Hb). eexists. split; [done |].
  cbn [data_ size_ buffer_ capacity_]. split; [done |]. split; [done |].
  destruct (block buf) as [a |].
  - eexists. split; [done |]. split; [by apply length_slots_of |].
    split; [apply lookup_slots_of_live | apply lookup_slots_of_raw].
  - pose proof (slots_of_nil_inv _ _ Hb) as ->.
    unfold slots_of in Hb. cbn [fmap list_fmap app length] in Hb.
    destruct (cap - 0) eqn:E; [lia | done].
Qed.

Lemma live_prefix_exists (blk : list slot) n :
  (∀ i, i < n → ∃ x, blk !! i = Some (Live x)) →
  ∃ xs, length xs = n ∧ take n blk = Live <$> xs.
Proof.
  induction n as [| n IH]; intros H.
  - exists []. by rewrite take_0.
  - destruct IH as (xs & Hlen & Ht); [intros i Hi; apply H; lia |].
    destruct (H n) as [x Hx]; [lia |].
    exists (xs ++ [x]). split; [solve_length |].
    rewrite (take_S_r _ _ _ Hx), Ht, fmap_app. done.
Qed.

Lemma invariant_represents s this :
  Vector_invariant s this → ∃ buf xs cap, represents s this buf xs cap.
Proof.
  intros ([[buf cap] size] & Ho & Hle & Hoff & Hb).
  cbn [data_ size_ buffer_ capacity_] in *.
  destruct (block buf) as [a |] eqn:Ha.
  - destruct Hb as (blk & Hblk & Hlen & Hlive & Hraw).
    destruct (live_prefix_exists blk size Hlive) as (xs & Hxs & Ht).
    exists buf, xs, cap. subst size. split; [done |]. split; [done |].
    split; [done |]. rewrite Ha, Hblk. f_equal.
    rewrite <- (take_drop (length xs) blk), Ht. unfold slots_of. f_equal.
    apply list_eq. intros i. rewrite lookup_drop.
    destruct (decide (i < cap - length xs)) as [Hi | Hi].
    + rewrite lookup_replicate_2 by done. apply Hraw. lia.
    + rewrite (proj1 (lookup_replicate_None _ _ _)) by lia.
      apply lookup_ge_None. lia.
  - exists buf, [], 0. cbn [length]. assert (size = 0) as -> by lia.
    subst cap. split; [done |]. split; [done |]. split; [done |].
    by rewrite Ha.
Qed.

(** ** [Reserve] *)

Lemma Vector_Reserve_noop s this buf xs cap n :
  represents s this buf xs cap → n ≤ cap →
  Vector_Reserve this n s = (Ok (), s).
Proof.
  intros Hr Hn. unfold Vector_Reserve.
  rewrite (bind_Ok _ _ _ _ _ (represents_read _ _ _ _ _ Hr)).
  cbn [data_ size_ RawMemory_Capacity capacity_].
  by rewrite decide_True.
Qed.

Lemma Vector_Reserve_grow s this buf xs cap n :
  represents s this buf xs cap → cap < n →
  Vector_Reserve this n s
  = if relocate_by_move then (Ok (), relocated this buf n xs s)
    else if (copy_all xs (env s)).1
         then (Ok (), set_env (copy_all xs (env s)).2 (relocated this buf n xs s))
         else (Throw, set_env (copy_all xs (env s)).2 s).
Proof.
  intros Hr Hn. pose proof Hr as (Ho & Hlen & Hb).
  unfold Vector_Reserve.
  rewrite (bind_Ok _ _ _ _ _ (represents_read _ _ _ _ _ Hr)).
  cbn [data_ size_ RawMemory_Capacity capacity_ RawMemory_GetAddress buffer_].
  rewrite decide_False by lia.
  rewrite (bind_Ok _ _ _ _ _ (RawMemory_ctor_eq _ _)).
  cbn [RawMemory_GetAddress buffer_ capacity_].
  assert (Hsep : separate buf (new_buffer n s)) by by eapply separate_new.
  assert (Hb' : block_is (alloc_block n s) buf
                  ((Live <$> xs) ++ replicate (cap - length xs) Raw))
    by by apply block_is_alloc.
  assert (Hnew : block_is (alloc_block n s) (new_buffer n s)
                   (replicate (length xs) Raw ++ replicate (n - length xs) Raw)).
  { rewrite <- replicate_add. replace (length xs + (n - length xs)) with n by lia.
    apply block_is_new. }
  destruct relocate_by_move.
  - unfold bind at 1.
    erewrite on_throw_Ok; [| by apply uninitialized_move_n_front].
    erewrite bind_Ok;
      [| apply (destroy_n_front_len (moved_from <$> xs)); [solve_length |] ].
    2:{ apply block_is_set_other; [by apply separate_sym |].
        rewrite <- list_fmap_compose.
        eapply block_is_set; [done |]. solve_length. }
    unfold RawMemory_Swap. cbn [buffer_ capacity_].
    unfold set_data.
    erewrite bind_Ok; [| erewrite bind_Ok; [ reflexivity |] ].
    2:{ apply read_Ok. rewrite !objs_set_block, objs_alloc_block. done. }
    cbn [data_ size_]. unfold RawMemory_dtor, RawMemory_Deallocate.
    cbn [buffer_]. unfold write.
    erewrite operator_delete_block.
    2:{ apply block_is_set_objs. eapply block_is_set.
        - apply block_is_set_other; [by apply separate_sym |].
          eapply block_is_set; [done |]. solve_length.
        - solve_length. }
    f_equal. unfold relocated.
    rewrite !objs_set_block, objs_alloc_block, free_block_set_objs.
    f_equal. rewrite free_block_set_block.
    rewrite !(free_block_set_other buf (new_buffer n s)) by done.
    by rewrite free_block_set_block.
  - unfold bind at 1.
    unfold on_throw.
    rewrite (uninitialized_copy_n_front _ _ _ _ _ _ Hsep Hb' Hnew).
    rewrite env_alloc_block.
    destruct (copy_all xs (env s)) as [[] w]; cbn [fst snd].
    + erewrite bind_Ok; [| apply destroy_n_front].
      2:{ apply block_is_set_env.
          apply block_is_set_other; [by apply separate_sym | done]. }
      unfold RawMemory_Swap. cbn [buffer_ capacity_].
      unfold set_data.
      erewrite bind_Ok; [| erewrite bind_Ok; [ reflexivity |] ].
      2:{ apply read_Ok.
          rewrite !objs_set_block, objs_set_env, objs_set_block, objs_alloc_block.
          done. }
      cbn [data_ size_]. unfold RawMemory_dtor, RawMemory_Deallocate.
      cbn [buffer_]. unfold write.
      erewrite operator_delete_block.
      2:{ apply block_is_set_objs. eapply block_is_set.
          - apply block_is_set_env.
            apply block_is_set_other; [by apply separate_sym | done].
          - solve_length. }
      f_equal. unfold relocated.
      rewrite !objs_set_block, objs_set_env, objs_set_block, objs_alloc_block.
      rewrite free_block_set_objs, free_block_set_block, free_block_set_env.
      rewrite !(free_block_set_other buf (new_buffer n s)) by done.
      done.
    + unfold RawMemory_dtor, RawMemory_Deallocate. cbn [buffer_].
      erewrite operator_delete_block.
      2:{ apply block_is_set_env. apply block_is_new. }
      rewrite free_block_set_env.
      rewrite <- (set_block_id _ _ _ (block_is_new n s)).
      by rewrite free_new_block.
Qed.

End Representation.

(** * [Emplace] *)

Section Emplace.
Context `{P : Payload}.

Lemma copy_all_app xs ys w :
  copy_all (xs ++ ys) w
  = if (copy_all xs w).1 then copy_all ys (copy_all xs w).2
    else (false, (copy_all xs w).2).
Proof.
  revert w. induction xs as [| x xs IH]; intros w; [done |].
  cbn [app copy_all]. destruct (copy_construct x w) as [[] w']; [| done].
  apply IH.
Qed.

Lemma new_buffer_dom n (s s1 : state) :
  dom (heap s1) = dom (heap s) → new_buffer n s1 = new_buffer n s.
Proof. intros H. unfold new_buffer. by rewrite H. Qed.

Lemma slots_of_app xs ys cap :
  slots_of (xs ++ ys) cap
  = (Live <$> xs) ++ (Live <$> ys)
      ++ replicate (cap - length xs - length ys) Raw.
Proof.
  unfold slots_of. rewrite fmap_app, <- app_assoc, length_app.
  do 3 f_equal. lia.
Qed.

Lemma insert_slots_of_end xs x cap :
  length xs < cap →
  <[length xs := Live x]> (slots_of xs cap) = slots_of (xs ++ [x]) cap.
Proof.
  intros Hlt. unfold slots_of.
  destruct (cap - length xs) as [| k] eqn:E; [lia |]. cbn [replicate].
  rewrite <- (length_fmap Live xs) at 1.
  rewrite insert_middle, fmap_app, <- app_assoc.
  replace (cap - length (xs ++ [x])) with k by solve_length. done.
Qed.

Lemma inserted_length index x xs :
  length (inserted index x xs) = S (length xs).
Proof.
  unfold inserted. rewrite length_app. cbn [length].
  rewrite length_take, length_drop. lia.
Qed.

Lemma inserted_end x xs : inserted (length xs) x xs = xs ++ [x].
Proof. unfold inserted. by rewrite take_ge, drop_ge. Qed.

Lemma inserted_app x xs ys : inserted (length xs) x (xs ++ ys) = xs ++ x :: ys.
Proof. unfold inserted. by rewrite take_app_length, drop_app_length. Qed.

Lemma slots_of_middle A B l cap' :
  length (A ++ B ++ [l]) < cap' →
  slots_of (A ++ B ++ [l]) cap'
  = ((Live <$> A) ++ (Live <$> B))
      ++ Live l :: Raw :: replicate (cap' - length (A ++ B ++ [l]) - 1) Raw.
Proof.
  intros Hlt. unfold slots_of. rewrite !fmap_app, <- !app_assoc.
  do 2 f_equal. cbn [fmap list_fmap app]. f_equal.
  destruct (cap' - length (A ++ B ++ [l])) as [| k] eqn:E; [lia |].
  cbn [replicate]. do 2 f_equal. lia.
Qed.

Lemma slots_of_inserted_middle (x : T) A B l cap' :
  length (A ++ B ++ [l]) < cap' →
  slots_of (A ++ x :: B ++ [l]) cap'
  = (Live <$> A) ++ Live x :: (Live <$> B)
      ++ Live l :: replicate (cap' - length (A ++ B ++ [l]) - 1) Raw.
Proof.
  intros Hlt. unfold slots_of. rewrite fmap_app, fmap_cons, fmap_app.
  rewrite <- !app_assoc. cbn [fmap list_fmap app]. rewrite <- !app_assoc.
  cbn [app].
  replace (cap' - length (A ++ x :: B ++ [l]))
    with (cap' - length (A ++ B ++ [l]) - 1); [done |].
  clear. solve_length.
Qed.

Lemma growth_gt c : c < growth c.
Proof. unfold growth. destruct (decide (c = 0)); lia. Qed.

Lemma insert_replicate_raw n i (sl : slot) :
  i < n →
  <[i := sl]> (replicate n Raw)
  = replicate i Raw ++ sl :: replicate (n - i - 1) Raw.
Proof.
  intros Hi. replace n with (i + S (n - i - 1)) at 1 by lia.
  rewrite replicate_add. cbn [replicate].
  rewrite <- (length_replicate i Raw) at 1. by rewrite insert_middle.
Qed.

Lemma slots_of_inserted (x : T) A B n :
  S (length A + length B) ≤ n →
  slots_of (A ++ x :: B) n
  = ((Live <$> A) ++ [Live x]) ++ (Live <$> B)
      ++ replicate (n - length A - 1 - length B) Raw.
Proof.
  intros Hn. unfold slots_of. rewrite fmap_app, fmap_cons, <- !app_assoc.
  cbn [app].
  replace (n - length (A ++ x :: B)) with (n - length A - 1 - length B);
    [done | solve_length].
Qed.

(** The vector at [this] represents [xs] in the state [s]; the constructor
    arguments evaluate to [x] and leave the state [s1], in which the vector
    has the elements [xs1] (the arguments may have been moved out of an
    element). *)
Variables (s s1 : state) (this : nat) (buf : ptr) (xs xs1 : list T).
Variables (cap : nat) (args : ctor_args) (x : T).
Hypothesis Hr : represents s this buf xs cap.
Hypothesis Hc : T_ctor args s = (Ok x, s1).
Hypothesis Hca : ∀ n, T_ctor args (alloc_block n s) = (Ok x, alloc_block n s1).
Hypothesis Hobjs : objs s1 = objs s.
Hypothesis Hdom : dom (heap s1) = dom (heap s).
Hypothesis Hb1 : block_is s1 buf (slots_of xs1 cap).
Hypothesis Hlen1 : length xs1 = length xs.

Lemma Emplace_at_end :
  length xs < cap →
  Vector_Emplace this (ptr_add buf (length xs)) args s
  = (Ok (ptr_add buf (length xs)),
     updated this buf cap (inserted (length xs) x xs1) s1).
Proof.
  intros Hroom. pose proof Hr as (Ho & Hlen & Hb).
  pose proof (proj1 Hb) as Hoff.
  unfold Vector_Emplace.
  rewrite (bind_Ok _ _ _ _ _ (Vector_begin_eq _ _ _ Ho)).
  cbn [data_ buffer_].
  rewrite (bind_Ok _ _ _ _ _ (ptr_diff_base _ _ _ Hoff)).
  rewrite (bind_Ok _ _ _ _ _ (read_Ok _ _ _ Ho)).
  cbn [data_ size_ buffer_ capacity_ RawMemory_Capacity].
  rewrite bind_assert_true by by apply bool_decide_eq_true_2.
  rewrite decide_True by done.
  rewrite (bind_Ok _ _ _ _ _ (Vector_end_eq _ _ _ Ho)).
  cbn [data_ size_ buffer_].
  rewrite decide_True by done.
  unfold construct_at.
  rewrite bind_assoc, (bind_Ok _ _ _ _ _ Hc).
  rewrite (bind_Ok _ _ _ _ _ (emplace_block _ _ _ _ x Hb1
             (lookup_slots_of_raw xs1 cap (length xs) ltac:(lia)))).
  erewrite bind_Ok.
  2:{ apply set_size_eq. rewrite objs_set_block, Hobjs. done. }
  cbn [data_].
  erewrite bind_Ok.
  2:{ apply Vector_end_eq. rewrite objs_set_objs. apply lookup_insert_eq. }
  cbn [data_ size_ buffer_].
  rewrite ptr_sub_add_S. f_equal.
  unfold updated. rewrite objs_set_block.
  rewrite inserted_length, <- Hlen1, inserted_end.
  by rewrite insert_slots_of_end by lia.
Qed.

Lemma Emplace_in_middle A B l :
  xs1 = A ++ B ++ [l] → length xs < cap →
  Vector_Emplace this (ptr_add buf (length A)) args s
  = (Ok (ptr_add buf (length A)),
     updated this buf cap (A ++ x :: B ++ [l]) s1).
Proof.
  intros HA Hroom. pose proof Hr as (Ho & Hlen & Hb).
  pose proof (proj1 Hb) as Hoff.
  assert (Hsize : length xs = S (length A + length B)).
  { rewrite <- Hlen1, HA. solve_length. }
  assert (Ho1 : objs s1 !! this
                = Some {| data_ := {| buffer_ := buf; capacity_ := cap |};
                          size_ := length xs |}) by by rewrite Hobjs.
  unfold Vector_Emplace.
  rewrite (bind_Ok _ _ _ _ _ (Vector_begin_eq _ _ _ Ho)).
  cbn [data_ buffer_].
  rewrite (bind_Ok _ _ _ _ _ (ptr_diff_base _ _ _ Hoff)).
  rewrite (bind_Ok _ _ _ _ _ (read_Ok _ _ _ Ho)).
  cbn [data_ size_ buffer_ capacity_ RawMemory_Capacity].
  rewrite bind_assert_true by (apply bool_decide_eq_true_2; lia).
  rewrite decide_True by done.
  rewrite (bind_Ok _ _ _ _ _ (Vector_end_eq _ _ _ Ho)).
  cbn [data_ size_ buffer_].
  rewrite decide_False by (intros Heq; apply ptr_add_inj in Heq; lia).
  rewrite (bind_Ok _ _ _ _ _ Hc).
  rewrite (bind_Ok _ _ _ _ _ (Vector_end_eq _ _ _ Ho1)).
  cbn [data_ size_ buffer_].
  rewrite Hsize, (bind_Ok _ _ _ _ _ (ptr_sub_add_S _ _ _)).
  assert (Hlt : length (A ++ B ++ [l]) < cap) by (rewrite <- HA; lia).
  rewrite HA, (slots_of_middle _ _ _ _ Hlt) in Hb1.
  set (rest := replicate (cap - length (A ++ B ++ [l]) - 1) Raw) in *.
  set (pre := (Live <$> A) ++ (Live <$> B)) in *.
  assert (Hpre : length A + length B = length pre)
    by (unfold pre; solve_length).
  erewrite bind_Ok.
  2:{ rewrite Hpre, <- Nat.add_1_r.
      apply (construct_move_same _ _ _ _ _ l Hb1);
        [by apply list_lookup_middle | apply lookup_middle_S]. }
  rewrite insert_middle, insert_middle_S.
  erewrite bind_Ok.
  2:{ apply Vector_begin_eq. by rewrite objs_set_block. }
  cbn [data_ buffer_].
  unfold move_backward.
  rewrite bind_assoc, (bind_Ok _ _ _ _ _ (ptr_diff_add buf (length A) (length A + length B) _ ltac:(lia))).
  replace (length A + length B - length A) with (length B) by lia.
  erewrite bind_Ok.
  2:{ rewrite <- (length_fmap Live A).
      apply (move_backward_n_block B (moved_from l) _ _ (Live <$> A)
               (Live l :: rest)).
      unfold pre. rewrite <- app_assoc.
      eapply block_is_set; [done |]. unfold pre. solve_length. }
  unfold RawMemory_index. cbn [capacity_ buffer_].
  rewrite bind_assoc, bind_assert_true by (apply bool_decide_eq_true_2; lia).
  rewrite bind_ret.
  erewrite bind_Ok.
  2:{ rewrite <- (length_fmap Live A).
      eapply store_block; [| by apply list_lookup_middle].
      eapply block_is_set.
      - eapply block_is_set; [done |]. unfold pre. solve_length.
      - unfold pre. solve_length. }
  rewrite insert_middle, !set_block_set_block.
  erewrite bind_Ok.
  2:{ apply set_size_eq. by rewrite objs_set_block. }
  erewrite bind_Ok.
  2:{ apply Vector_begin_eq. rewrite objs_set_objs. apply lookup_insert_eq. }
  cbn [data_ buffer_]. unfold ret. f_equal.
  unfold updated. rewrite objs_set_block.
  rewrite (slots_of_inserted_middle _ _ _ _ _ Hlt).
  do 4 f_equal. solve_length.
Qed.

Lemma Emplace_grow A B :
  xs1 = A ++ B → length xs = cap →
  Vector_Emplace this (ptr_add buf (length A)) args s
  = if relocate_by_move then
      (Ok (ptr_add (new_buffer (growth cap) s1) (length A)),
       relocated this buf (growth cap) (A ++ x :: B) s1)
    else if (copy_all xs1 (env s1)).1 then
      (Ok (ptr_add (new_buffer (growth cap) s1) (length A)),
       set_env (copy_all xs1 (env s1)).2
         (relocated this buf (growth cap) (A ++ x :: B) s1))
    else (Throw, set_env (copy_all xs1 (env s1)).2 s1).
Proof.
  intros HA Hfull. pose proof Hr as (Ho & Hlen & Hb).
  pose proof (proj1 Hb) as Hoff.
  assert (Hsize : length xs = length A + length B).
  { rewrite <- Hlen1, HA. solve_length. }
  assert (Ho1 : objs s1 !! this
                = Some {| data_ := {| buffer_ := buf; capacity_ := cap |};
                          size_ := length xs |}) by by rewrite Hobjs.
  pose proof (growth_gt cap) as Hg.
  set (n := growth cap) in *.
  unfold Vector_Emplace.
  rewrite (bind_Ok _ _ _ _ _ (Vector_begin_eq _ _ _ Ho)).
  cbn [data_ buffer_].
  rewrite (bind_Ok _ _ _ _ _ (ptr_diff_base _ _ _ Hoff)).
  rewrite (bind_Ok _ _ _ _ _ (read_Ok _ _ _ Ho)).
  cbn [data_ size_ buffer_ capacity_ RawMemory_Capacity].
  rewrite bind_assert_true by (apply bool_decide_eq_true_2; lia).
  rewrite decide_False by lia.
  change (if decide (cap = 0) then 1 else cap * 2) with n.
  rewrite (bind_Ok _ _ _ _ _ (RawMemory_ctor_eq _ _)).
  cbn [RawMemory_GetAddress buffer_ capacity_].
  rewrite <- (new_buffer_dom n s s1 Hdom).
  set (q := new_buffer n s1).
  assert (Hsep : separate buf q) by by eapply separate_new.
  assert (Hqoff : off q = 0) by apply new_buffer_off.
  assert (Hqb : block q ≠ None) by (apply new_buffer_block; lia).
  set (old := slots_of xs1 cap) in *.
  assert (Hold : old = (Live <$> A) ++ (Live <$> B) ++ []).
  { unfold old. rewrite HA, slots_of_app.
    do 2 f_equal. replace (cap - length A - length B) with 0 by lia. done. }
  (* the new element *)
  set (s2 := set_block q (replicate (length A) Raw
                            ++ Live x :: replicate (n - length A - 1) Raw)
               (alloc_block n s1)).
  assert (Hnew : construct_at (ptr_add q (length A)) args (alloc_block n s)
                 = (Ok (), s2)).
  { unfold construct_at. rewrite (bind_Ok _ _ _ _ _ (Hca n)).
    erewrite emplace_block;
      [| apply block_is_new | apply lookup_replicate_2; lia].
    by rewrite insert_replicate_raw by lia. }
  assert (Hq2 : block_is s2 q (replicate (length A) Raw
                   ++ Live x :: replicate (n - length A - 1) Raw))
    by by apply block_is_set_new.
  assert (Hb2 : block_is s2 buf ((Live <$> A) ++ (Live <$> B) ++ [])).
  { apply block_is_set_other; [by apply separate_sym |].
    apply block_is_alloc. by rewrite <- Hold. }
  assert (Ho2 : objs s2 !! this
                = Some {| data_ := {| buffer_ := buf; capacity_ := cap |};
                          size_ := length xs |}).
  { unfold s2. by norm_state. }
  assert (He2 : env s2 = env s1) by (unfold s2; by norm_state).
  assert (Hfree : ∀ w, free_block q (set_env w s2) = set_env w s1).
  { intros w. unfold s2, q. by rewrite free_block_set_env, free_new_block. }
  rewrite HA, copy_all_app.
  destruct relocate_by_move.
  - (* relocation by move *)
    erewrite bind_on_throw_Ok.
    2:{ rewrite (bind_Ok _ _ _ _ _ Hnew).
        rewrite (bind_Ok _ _ _ _ _ (Vector_begin_eq _ _ _ Ho2)).
        cbn [data_ buffer_].
        erewrite bind_Ok; [| by apply uninitialized_move_n_front].
        rewrite ptr_add_add.
        apply (uninitialized_move_n_at B _ buf q (Live ∘ moved_from <$> A) []
                 ((Live <$> A) ++ [Live x])
                 (replicate (n - length A - 1 - length B) Raw));
          [solve_length | solve_length | lia | done | |].
        - apply block_is_set_other; [by apply separate_sym |].
          eapply block_is_set; [done |]. solve_length.
        - rewrite <- app_assoc. cbn [app]. rewrite <- replicate_add.
          replace (length xs - length A + (n - length A - 1 - length B))
            with (n - length A - 1) by lia.
          eapply block_is_set; [by apply block_is_set_other |].
          solve_length. }
    erewrite bind_Ok.
    2:{ apply Vector_begin_eq. by norm_state. }
    cbn [data_ buffer_].
    erewrite bind_Ok.
    2:{ apply (destroy_n_front_len (moved_from <$> (A ++ B))); [solve_length |].
        rewrite !fmap_app, <- !list_fmap_compose.
        rewrite <- (app_assoc (Live ∘ moved_from <$> A)).
        apply block_is_set_other; [by apply separate_sym |].
        eapply block_is_set.
        - apply block_is_set_other; [by apply separate_sym |].
          eapply block_is_set; [done |]. solve_length.
        - solve_length. }
    unfold RawMemory_Swap. cbn [buffer_ capacity_].
    erewrite bind_Ok.
    2:{ eapply set_data_eq. by norm_state. }
    cbn [size_].
    erewrite bind_Ok.
    2:{ eapply set_size_eq. norm_state. apply lookup_insert_eq. }
    cbn [data_].
    erewrite bind_Ok.
    2:{ eapply Vector_begin_eq. norm_state. apply lookup_insert_eq. }
    cbn [data_ buffer_].
    unfold RawMemory_dtor, RawMemory_Deallocate. cbn [buffer_].
    erewrite bind_Ok.
    2:{ eapply operator_delete_block. block_tac. }
    unfold ret. f_equal. unfold relocated, s2. fold q. norm_state.
    rewrite insert_insert_eq.
    repeat (rewrite (free_block_set_other buf q) by done; norm_state).
    rewrite slots_of_inserted by lia.
    by replace (length (A ++ x :: B)) with (S (length xs)) by solve_length.
  - (* relocation by copy *)
    assert (Hdel : ∀ w blk,
              RawMemory_dtor {| buffer_ := q; capacity_ := n |}
                (set_env w (set_block q blk s2)) = (Ok (), set_env w s1)).
    { intros w blk. unfold RawMemory_dtor, RawMemory_Deallocate.
      cbn [buffer_]. erewrite operator_delete_block
        by by apply block_is_set_env, block_is_set_new.
      norm_state. by rewrite <- free_block_set_env, Hfree. }
    destruct (copy_all A (env s1)) as [[] w1] eqn:E1; cbn [fst snd].
    2:{ (* a copy of the prefix throws *)
        rewrite (bind_on_throw_Throw _ _ _ _ (set_env w1 s2) (set_env w1 s1));
          [done | |].
        - rewrite (bind_Ok _ _ _ _ _ Hnew).
          rewrite (bind_Ok _ _ _ _ _ (Vector_begin_eq _ _ _ Ho2)).
          cbn [data_ buffer_].
          erewrite bind_Throw; [reflexivity |].
          rewrite (uninitialized_copy_n_front A s2 buf q _ _ Hsep Hb2 Hq2).
          by rewrite He2, E1.
        - rewrite <- (set_block_id _ _ _ Hq2) at 1. apply Hdel. }
    assert (H1 : uninitialized_copy_n buf (length A) q s2
                 = (Ok (ptr_add q (length A)),
                    set_env w1
                      (set_block q
                         ((Live <$> A)
                            ++ Live x :: replicate (n - length A - 1) Raw)
                         s2))).
    { rewrite (uninitialized_copy_n_front A s2 buf q _ _ Hsep Hb2 Hq2).
      by rewrite He2, E1. }
    assert (H2 : uninitialized_copy_n (ptr_add buf (length A))
                   (length xs - length A) (ptr_add (ptr_add q (length A)) 1)
                   (set_env w1
                      (set_block q
                         ((Live <$> A)
                            ++ Live x :: replicate (n - length A - 1) Raw)
                         s2))
                 = if (copy_all B w1).1
                   then (Ok (ptr_add q (length A + 1 + (length xs - length A))),
                         set_env (copy_all B w1).2
                           (set_block q
                              (((Live <$> A) ++ [Live x]) ++ (Live <$> B)
                                 ++ replicate (n - length A - 1 - length B) Raw)
                              s2))
                   else (Throw, set_env (copy_all B w1).2
                           (set_block q
                              ((Live <$> A)
                                 ++ Live x :: replicate (n - length A - 1) Raw)
                              s2))).
    { rewrite ptr_add_add.
      erewrite (uninitialized_copy_n_at B _ buf q (Live <$> A) []
                  ((Live <$> A) ++ [Live x])
                  (replicate (n - length A - 1 - length B) Raw));
        [| solve_length | solve_length | lia | done | |].
      - norm_state. by destruct (copy_all B w1) as [[] w2].
      - block_tac.
      - rewrite <- app_assoc. cbn [app]. rewrite <- replicate_add.
        replace (length xs - length A + (n - length A - 1 - length B))
          with (n - length A - 1) by lia.
        block_tac. }
    destruct (copy_all B w1) as [[] w2] eqn:E2; cbn [fst snd] in *.
    2:{ (* a copy of the suffix throws *)
        erewrite bind_on_throw_Throw;
          [ | rewrite (bind_Ok _ _ _ _ _ Hnew);
              rewrite (bind_Ok _ _ _ _ _ (Vector_begin_eq _ _ _ Ho2));
              cbn [data_ buffer_];
              rewrite (bind_Ok _ _ _ _ _ H1); apply H2
            | apply Hdel ].
        done. }
    erewrite bind_on_throw_Ok.
    2:{ rewrite (bind_Ok _ _ _ _ _ Hnew).
        rewrite (bind_Ok _ _ _ _ _ (Vector_begin_eq _ _ _ Ho2)).
        cbn [data_ buffer_].
        rewrite (bind_Ok _ _ _ _ _ H1). apply H2. }
    erewrite bind_Ok.
    2:{ apply Vector_begin_eq. by norm_state. }
    cbn [data_ buffer_].
    erewrite bind_Ok.
    2:{ apply (destroy_n_front_len (A ++ B)); [solve_length |].
        rewrite fmap_app, <- (app_assoc (Live <$> A) (Live <$> B)).
        block_tac. }
    unfold RawMemory_Swap. cbn [buffer_ capacity_].
    erewrite bind_Ok.
    2:{ eapply set_data_eq. by norm_state. }
    cbn [size_].
    erewrite bind_Ok.
    2:{ eapply set_size_eq. norm_state. apply lookup_insert_eq. }
    cbn [data_].
    erewrite bind_Ok.
    2:{ eapply Vector_begin_eq. norm_state. apply lookup_insert_eq. }
    cbn [data_ buffer_].
    unfold RawMemory_dtor, RawMemory_Deallocate. cbn [buffer_].
    erewrite bind_Ok.
    2:{ eapply operator_delete_block. block_tac. }
    unfold ret. f_equal. unfold relocated, s2. fold q. norm_state.
    rewrite insert_insert_eq.
    repeat (rewrite (free_block_set_other buf q) by done; norm_state).
    rewrite slots_of_inserted by lia.
    by replace (length (A ++ x :: B)) with (S (length xs)) by solve_length.
Qed.

Lemma Vector_Emplace_eval index :
  index ≤ length xs →
  Vector_Emplace this (ptr_add buf index) args s
  = emplaced this buf cap index x xs1 s1.
Proof.
  intros Hidx. pose proof Hr as (Ho & Hlen & Hb).
  assert (HA : length (take index xs1) = index)
    by (rewrite length_take; lia).
  unfold emplaced, inserted. rewrite Hlen1.
  destruct (decide (length xs < cap)) as [Hroom | Hfull].
  - destruct (decide (index = length xs)) as [-> | Hne].
    + rewrite Emplace_at_end by done. unfold inserted. done.
    + destruct (drop index xs1) as [| y B] eqn:HB using rev_ind.
      { apply (f_equal length) in HB. rewrite length_drop in HB.
        cbn [length] in HB. lia. }
      clear IHB.
      pose proof (Emplace_in_middle (take index xs1) B y) as H.
      rewrite HA in H. apply H; [| done].
      by rewrite <- HB, take_drop.
  - pose proof (Emplace_grow (take index xs1) (drop index xs1)) as H.
    rewrite HA in H. apply H; [by rewrite take_drop | lia].
Qed.

End Emplace.

(** * Constructor arguments, in general *)

Section Arguments.
Context `{P : Payload}.

Lemma alloc_block_set_env n w s :
  alloc_block n (set_env w s) = set_env w (alloc_block n s).
Proof. unfold alloc_block. by destruct (decide _). Qed.

(** A read through a pointer ends in one of two ways. *)
Lemma load_cases src s :
  (load src s = (Abort, s) ∧ ∀ n, load src (alloc_block n s) = (Abort, alloc_block n s))
  ∨ ∃ a blk x, block src = Some a ∧ heap s !! a = Some blk ∧
               blk !! off src = Some (Live x) ∧
               load src s = (Ok x, s) ∧
               (∀ n, load src (alloc_block n s) = (Ok x, alloc_block n s)) ∧
               (∀ n, heap (alloc_block n s) !! a = Some blk).
Proof.
  destruct src as [[a |] o]; [| left; split; [done |]; intros; reflexivity].
  unfold load, bind, slot_at. cbn [block off].
  assert (Hfresh : ∀ n, n ≠ 0 →
            heap (alloc_block n s) !! a
            = if decide (fresh (dom (heap s)) = a)
              then Some (replicate n Raw) else heap s !! a).
  { intros n Hn. unfold alloc_block. rewrite decide_True by done.
    cbn [heap set_heap]. by rewrite lookup_insert. }
  assert (Hz : ∀ n, ¬ n ≠ 0 → alloc_block n s = s).
  { intros n Hn. unfold alloc_block. by rewrite decide_False. }
  destruct (heap s !! a) as [blk |] eqn:Hblk.
  - assert (Hne : fresh (dom (heap s)) ≠ a).
    { intros <-. by rewrite fresh_heap_None in Hblk. }
    assert (Hsame : ∀ n, heap (alloc_block n s) !! a = Some blk).
    { intros n. destruct (decide (n ≠ 0)) as [Hn | Hn].
      - by rewrite Hfresh, decide_False.
      - by rewrite Hz. }
    destruct (blk !! o) as [[| x] |] eqn:Ho.
    + left. split; [done |]. intros n. by rewrite Hsame, Ho.
    + right. exists a, blk, x. repeat split; try done.
      intros n. by rewrite Hsame, Ho.
    + left. split; [done |]. intros n. by rewrite Hsame, Ho.
  - left. split; [done |]. intros n.
    destruct (decide (n ≠ 0)) as [Hn | Hn]; [| by rewrite Hz, Hblk].
    rewrite Hfresh by done. destruct (decide _); [| by rewrite ?Hblk].
    destruct (replicate n Raw !! o) as [sl |] eqn:Ho; [| done].
    apply lookup_replicate in Ho as [-> _]. done.
Qed.

(** The shape of a block: which of its slots are live. *)
Lemma same_shape_insert (blk : list slot) i x y :
  blk !! i = Some (Live x) →
  is_live <$> (<[i := Live y]> blk) = is_live <$> blk.
Proof.
  intros Hi. rewrite list_fmap_insert. apply list_insert_id.
  by rewrite list_lookup_fmap, Hi.
Qed.

Lemma shape_raw (blk : list slot) k :
  is_live <$> blk = replicate k false → blk = replicate k Raw.
Proof.
  revert k. induction blk as [| sl blk IH]; intros [| k] H; try done.
  injection H as Hsl H. destruct sl; [| done]. cbn [replicate]. f_equal.
  by apply IH.
Qed.

Lemma shape_live_raw (blk : list slot) xs k :
  is_live <$> blk = is_live <$> ((Live <$> xs) ++ replicate k Raw) →
  ∃ xs1, length xs1 = length xs ∧ blk = (Live <$> xs1) ++ replicate k Raw.
Proof.
  revert blk. induction xs as [| x xs IH]; intros blk H.
  - exists []. split; [done |]. cbn [fmap list_fmap app] in *.
    apply shape_raw. rewrite H. clear. induction k; [done |].
    cbn [replicate fmap list_fmap]. by f_equal.
  - destruct blk as [| sl blk]; [done |]. cbn [fmap list_fmap app] in H.
    injection H as Hsl H. destruct sl as [| y]; [done |].
    destruct (IH blk H) as (xs1 & Hlen & ->).
    exists (y :: xs1). split; [by cbn [length]; rewrite Hlen | done].
Qed.

Lemma shape_slots_of (blk : list slot) xs cap :
  is_live <$> blk = is_live <$> slots_of xs cap →
  ∃ xs1, length xs1 = length xs ∧ blk = slots_of xs1 cap.
Proof.
  intros H. destruct (shape_live_raw _ _ _ H) as (xs1 & Hlen & ->).
  exists xs1. split; [done |]. unfold slots_of. by rewrite Hlen.
Qed.

(** How the evaluation of constructor arguments ends, and what it leaves:
    the same objects, the same blocks with the same live slots (a moved-from
    object has changed its value, no more), and the same again when a fresh
    block has been allocated before. *)
Lemma T_ctor_result args s o s1 :
  T_ctor args s = (o, s1) →
  match o with
  | Abort => ∀ n, ∃ s', T_ctor args (alloc_block n s) = (Abort, s')
  | _ =>
      (∀ n, T_ctor args (alloc_block n s) = (o, alloc_block n s1)) ∧
      objs s1 = objs s ∧
      dom (heap s1) = dom (heap s) ∧
      (∀ p blk, block_is s p blk →
         ∃ blk1, block_is s1 p blk1 ∧ is_live <$> blk1 = is_live <$> blk) ∧
      (o = Throw → ∃ w, s1 = set_env w s)
  end.
Proof.
  destruct args as [src | src]; unfold T_ctor.
  - destruct (load_cases src s)
      as [[Hl Hla] | (a & blk & x & Hb & Hh & Hi & Hl & Hla & _)].
    + rewrite (bind_Abort _ _ _ _ Hl). intros [= <- <-]. intros n.
      eexists. by rewrite (bind_Abort _ _ _ _ (Hla n)).
    + rewrite (bind_Ok _ _ _ _ _ Hl). unfold bind at 1. rewrite attempt_eq.
      assert (Ha : ∀ n,
        bind (load src)
          (λ x0, bind (attempt (copy_construct x0)) (λ _, ret x0))
          (alloc_block n s)
        = (if (copy_construct x (env s)).1 then Ok x else Throw,
           alloc_block n (set_env (copy_construct x (env s)).2 s))).
      { intros n. rewrite (bind_Ok _ _ _ _ _ (Hla n)). unfold bind.
        rewrite attempt_eq, env_alloc_block, alloc_block_set_env.
        by destruct (copy_construct x (env s)) as [[] w]. }
      destruct (copy_construct x (env s)) as [[] w]; cbn [fst snd] in *;
        intros [= <- <-]; (split; [done |]); (split; [done |]);
        (split; [done |]); (split; [| by eauto]); intros p b Hp; by exists b.
  - destruct (load_cases src s)
      as [[Hl Hla] | (a & blk & x & Hb & Hh & Hi & Hl & Hla & Hha)].
    + rewrite (bind_Abort _ _ _ _ Hl). intros [= <- <-]. intros n.
      eexists. by rewrite (bind_Abort _ _ _ _ (Hla n)).
    + destruct src as [b i]. cbn [block off] in *. subst b.
      rewrite (bind_Ok _ _ _ _ _ Hl).
      rewrite (bind_Ok _ _ _ _ _ (store_Ok _ _ _ _ _ _ Hh Hi)).
      intros [= <- <-].
      assert (Hdom : dom (<[a := <[i := Live (moved_from x)]> blk]> (heap s))
                     = dom (heap s)) by by apply dom_insert_lookup_L.
      split; [| split; [done |]; split; [done |]; split; [| done] ].
      * intros n. rewrite (bind_Ok _ _ _ _ _ (Hla n)).
        rewrite (bind_Ok _ _ _ _ _ (store_Ok _ _ _ _ _ _ (Hha n) Hi)).
        unfold ret. f_equal. unfold alloc_block.
        destruct (decide (n ≠ 0)); [| done].
        unfold set_heap. cbn [heap objs env]. rewrite Hdom. f_equal.
        apply insert_insert_ne. intros ->.
        by rewrite fresh_heap_None in Hh.
      * intros p b [Hoff Hp]. unfold block_is. cbn [heap set_heap].
        destruct (block p) as [a' |]; [| by exists b].
        destruct (decide (a' = a)) as [-> | Hne].
        -- rewrite lookup_insert_eq. rewrite Hh in Hp. injection Hp as <-.
           eexists. split; [done |]. by eapply same_shape_insert.
        -- rewrite lookup_insert_ne by done. by exists b.
Qed.

End Arguments.

(** * [Emplace], whatever its arguments *)

Section EmplaceGeneral.
Context `{P : Payload}.

Lemma represents_updated s this buf blk xs cap :
  block_is s buf blk → length blk = cap → length xs ≤ cap →
  represents (updated this buf cap xs s) this buf xs cap.
Proof.
  intros Hb Hblk Hlen. unfold updated. split; [| split; [done |]].
  - rewrite objs_set_objs. apply lookup_insert_eq.
  - apply block_is_set_objs. eapply block_is_set; [done |].
    by rewrite length_slots_of.
Qed.

Lemma Vector_Emplace_ctor_throws s s1 this buf xs cap args index :
  represents s this buf xs cap → index ≤ length xs →
  T_ctor args s = (Throw, s1) →
  (∀ n, T_ctor args (alloc_block n s) = (Throw, alloc_block n s1)) →
  dom (heap s1) = dom (heap s) →
  Vector_Emplace this (ptr_add buf index) args s = (Throw, s1).
Proof.
  intros Hr Hidx Hc Hca Hdom. pose proof Hr as (Ho & Hlen & Hb).
  pose proof (proj1 Hb) as Hoff.
  unfold Vector_Emplace.
  rewrite (bind_Ok _ _ _ _ _ (Vector_begin_eq _ _ _ Ho)).
  cbn [data_ buffer_].
  rewrite (bind_Ok _ _ _ _ _ (ptr_diff_base _ _ _ Hoff)).
  rewrite (bind_Ok _ _ _ _ _ (read_Ok _ _ _ Ho)).
  cbn [data_ size_ buffer_ capacity_ RawMemory_Capacity].
  rewrite bind_assert_true by (apply bool_decide_eq_true_2; lia).
  destruct (decide (length xs < cap)).
  - rewrite (bind_Ok _ _ _ _ _ (Vector_end_eq _ _ _ Ho)).
    cbn [data_ size_ buffer_].
    destruct (decide _).
    + unfold construct_at. rewrite bind_assoc.
      by rewrite (bind_Throw _ _ _ _ Hc).
    + by rewrite (bind_Throw _ _ _ _ Hc).
  - rewrite (bind_Ok _ _ _ _ _ (RawMemory_ctor_eq _ _)).
    cbn [RawMemory_GetAddress buffer_ capacity_].
    erewrite bind_on_throw_Throw; [reflexivity | |].
    + unfold construct_at. rewrite !bind_assoc.
      by rewrite (bind_Throw _ _ _ _ (Hca _)).
    + unfold RawMemory_dtor, RawMemory_Deallocate. cbn [buffer_].
      rewrite <- (new_buffer_dom _ s s1 Hdom).
      erewrite operator_delete_block by apply block_is_new.
      rewrite <- (set_block_id _ _ _ (block_is_new _ s1)).
      by rewrite free_new_block.
Qed.

Lemma Vector_Emplace_ctor_aborts s s1 this buf xs cap args index :
  represents s this buf xs cap → index ≤ length xs →
  T_ctor args s = (Abort, s1) →
  (∀ n, ∃ s', T_ctor args (alloc_block n s) = (Abort, s')) →
  ∃ s', Vector_Emplace this (ptr_add buf index) args s = (Abort, s').
Proof.
  intros Hr Hidx Hc Hca. pose proof Hr as (Ho & Hlen & Hb).
  pose proof (proj1 Hb) as Hoff.
  unfold Vector_Emplace.
  rewrite (bind_Ok _ _ _ _ _ (Vector_begin_eq _ _ _ Ho)).
  cbn [data_ buffer_].
  rewrite (bind_Ok _ _ _ _ _ (ptr_diff_base _ _ _ Hoff)).
  rewrite (bind_Ok _ _ _ _ _ (read_Ok _ _ _ Ho)).
  cbn [data_ size_ buffer_ capacity_ RawMemory_Capacity].
  rewrite bind_assert_true by (apply bool_decide_eq_true_2; lia).
  destruct (decide (length xs < cap)).
  - rewrite (bind_Ok _ _ _ _ _ (Vector_end_eq _ _ _ Ho)).
    cbn [data_ size_ buffer_].
    destruct (decide _).
    + unfold construct_at. rewrite bind_assoc.
      rewrite (bind_Abort _ _ _ _ Hc). by eexists.
    + rewrite (bind_Abort _ _ _ _ Hc). by eexists.
  - rewrite (bind_Ok _ _ _ _ _ (RawMemory_ctor_eq _ _)).
    cbn [RawMemory_GetAddress buffer_ capacity_].
    destruct (Hca (if decide (cap = 0) then 1 else cap * 2)) as [s' Hs'].
    eexists. apply bind_Abort. apply on_throw_Abort.
    unfold construct_at. rewrite !bind_assoc.
    by rewrite (bind_Abort _ _ _ _ Hs').
Qed.

Lemma Vector_Emplace_bad_position s this buf xs cap pos args :
  represents s this buf xs cap →
  ¬ (block pos = block buf ∧ off pos ≤ length xs) →
  Vector_Emplace this pos args s = (Abort, s).
Proof.
  intros Hr Hpos. pose proof Hr as (Ho & Hlen & Hb).
  pose proof (proj1 Hb) as Hoff.
  unfold Vector_Emplace.
  rewrite (bind_Ok _ _ _ _ _ (Vector_begin_eq _ _ _ Ho)).
  cbn [data_ buffer_]. unfold ptr_diff.
  destruct (decide (block pos = block buf)); [| done].
  rewrite (decide_True (P := off buf ≤ off pos)) by lia. rewrite bind_ret.
  rewrite (bind_Ok _ _ _ _ _ (read_Ok _ _ _ Ho)).
  cbn [data_ size_ buffer_ capacity_ RawMemory_Capacity].
  rewrite bind_assert_false; [done |].
  apply bool_decide_eq_false_2. intros H. apply Hpos. split; [done | lia].
Qed.

Lemma position_ptr_add pos buf :
  block pos = block buf → off buf = 0 → pos = ptr_add buf (off pos).
Proof.
  destruct pos as [b i], buf as [b' i']. cbn [block off]. intros -> ->.
  by unfold ptr_add.
Qed.

(** [Emplace] with a [const T&] argument that designates a live object,
    wherever it is. *)
Lemma Vector_Emplace_copy s this buf xs cap index src x :
  represents s this buf xs cap → index ≤ length xs →
  load src s = (Ok x, s) →
  Vector_Emplace this (ptr_add buf index) (ByCopy src) s
  = if (copy_construct x (env s)).1
    then emplaced this buf cap index x xs
           (set_env (copy_construct x (env s)).2 s)
    else (Throw, set_env (copy_construct x (env s)).2 s).
Proof.
  intros Hr Hidx Hl. pose proof (T_ctor_copy _ _ _ Hl) as Hc.
  pose proof (T_ctor_result _ _ _ _ Hc) as Hres.
  destruct (copy_construct x (env s)) as [[] w]; cbn [fst snd] in *;
    destruct Hres as (Hca & Hobjs & Hdom & _ & _).
  - apply (Vector_Emplace_eval s _ this buf xs xs cap (ByCopy src) x);
      try done. apply Hr.
  - by eapply Vector_Emplace_ctor_throws.
Qed.

(** [Emplace] with a [T&&] argument that designates a live object outside
    the vector. *)
Lemma Vector_Emplace_move s this buf xs cap index p blk i x :
  represents s this buf xs cap → index ≤ length xs →
  block_is s p blk → blk !! i = Some (Live x) → separate p buf →
  Vector_Emplace this (ptr_add buf index) (ByMove (ptr_add p i)) s
  = emplaced this buf cap index x xs
      (set_block p (<[i := Live (moved_from x)]> blk) s).
Proof.
  intros Hr Hidx Hp Hi Hsep. pose proof (T_ctor_move _ _ _ _ _ Hp Hi) as Hc.
  pose proof (T_ctor_result _ _ _ _ Hc) as (Hca & Hobjs & Hdom & _ & _).
  apply (Vector_Emplace_eval s _ this buf xs xs cap _ x); try done.
  apply block_is_set_other; [done | apply Hr].
Qed.

(** What [emplaced] leaves: the new sequence in the same or in a grown
    block, or, after an exception, the vector as it was. *)
Lemma emplaced_spec s1 this buf xs1 cap index x :
  represents s1 this buf xs1 cap → index ≤ length xs1 →
  match emplaced this buf cap index x xs1 s1 with
  | (Ok p, s') =>
      ∃ buf', p = ptr_add buf' index ∧
        represents s' this buf' (inserted index x xs1)
          (if decide (length xs1 < cap) then cap else growth cap)
  | (Throw, s') =>
      length xs1 = cap ∧ relocate_by_move = false ∧
      (copy_all xs1 (env s1)).1 = false ∧
      s' = set_env (copy_all xs1 (env s1)).2 s1
  | (Abort, _) => False
  end.
Proof.
  intros Hr Hidx. pose proof Hr as (Ho & Hlen & Hb).
  pose proof (growth_gt cap) as Hg.
  unfold emplaced. destruct (decide (length xs1 < cap)) as [Hroom | Hfull].
  - exists buf. split; [done |].
    eapply represents_updated; [done | by apply length_slots_of |].
    rewrite inserted_length. lia.
  - destruct relocate_by_move.
    + eexists. split; [done |].
      eapply represents_relocated; [done | rewrite inserted_length; lia | lia].
    + destruct (copy_all xs1 (env s1)) as [[] w]; cbn [fst snd].
      * eexists. split; [done |]. apply represents_set_env.
        eapply represents_relocated;
          [done | rewrite inserted_length; lia | lia].
      * repeat split; lia.
Qed.

(** Whatever the position and the arguments: a call that returns has
    inserted one element, in place if there was room and in a block of the
    grown capacity otherwise; a call that throws has left the number of
    elements, the block and the capacity as they were. *)
Lemma Vector_Emplace_outcome s this buf xs cap pos args o s' :
  represents s this buf xs cap →
  Vector_Emplace this pos args s = (o, s') →
  match o with
  | Ok p =>
      ∃ buf' xs', p = ptr_add buf' (off pos) ∧
        length xs' = S (length xs) ∧
        represents s' this buf' xs'
          (if decide (length xs < cap) then cap else growth cap)
  | Throw => ∃ xs', length xs' = length xs ∧ represents s' this buf xs' cap
  | Abort => True
  end.
Proof.
  intros Hr He. pose proof Hr as (Ho & Hlen & Hb).
  destruct (decide (block pos = block buf ∧ off pos ≤ length xs))
    as [[Hblock Hoff] | Hbad].
  2:{ rewrite (Vector_Emplace_bad_position _ _ _ _ _ _ _ Hr Hbad) in He.
      by injection He as <- _. }
  rewrite (position_ptr_add _ _ Hblock (proj1 Hb)) in He.
  destruct (T_ctor args s) as [o1 s1] eqn:Hc.
  pose proof (T_ctor_result _ _ _ _ Hc) as Hres.
  destruct o1 as [x | |].
  - destruct Hres as (Hca & Hobjs & Hdom & Hshape & _).
    destruct (Hshape _ _ Hb) as (blk1 & Hb1 & Hs).
    destruct (shape_slots_of _ _ _ Hs) as (xs1 & Hlen1 & ->).
    rewrite (Vector_Emplace_eval s s1 this buf xs xs1 cap args x) in He
      by done.
    assert (Hr1 : represents s1 this buf xs1 cap).
    { split; [by rewrite Hobjs, Hlen1 |]. split; [lia | done]. }
    pose proof (emplaced_spec s1 this buf xs1 cap (off pos) x Hr1
                  ltac:(lia)) as Hs'.
    rewrite He in Hs'. destruct o as [p | |]; [| | done].
    + destruct Hs' as (buf' & -> & Hr'). exists buf', (inserted (off pos) x xs1).
      split; [done |]. split; [by rewrite inserted_length, Hlen1 |].
      by rewrite <- Hlen1.
    + destruct Hs' as (_ & _ & _ & ->). exists xs1.
      split; [done |]. by apply represents_set_env.
  - destruct Hres as (Hca & Hobjs & Hdom & _ & Hw).
    destruct (Hw eq_refl) as [w ->].
    rewrite (Vector_Emplace_ctor_throws _ _ _ _ _ _ _ _ Hr Hoff Hc Hca Hdom)
      in He.
    injection He as <- <-. exists xs. split; [done |].
    by apply represents_set_env.
  - destruct (Vector_Emplace_ctor_aborts _ _ _ _ _ _ _ _ Hr Hoff Hc Hres)
      as [s'' Hs''].
    rewrite Hs'' in He. by injection He as <- _.
Qed.

Lemma Vector_EmplaceBack_outcome s this buf xs cap args o s' :
  represents s this buf xs cap →
  Vector_EmplaceBack this args s = (o, s') →
  match o with
  | Ok p =>
      ∃ buf' xs', length xs' = S (length xs) ∧
        represents s' this buf' xs'
          (if decide (length xs < cap) then cap else growth cap)
  | Throw => ∃ xs', length xs' = length xs ∧ represents s' this buf xs' cap
  | Abort => True
  end.
Proof.
  intros Hr. pose proof Hr as (Ho & _). unfold Vector_EmplaceBack.
  rewrite (bind_Ok _ _ _ _ _ (Vector_end_eq _ _ _ Ho)). intros He.
  pose proof (Vector_Emplace_outcome _ _ _ _ _ _ _ _ _ Hr He) as H.
  destruct o; [| done | done].
  destruct H as (buf' & xs' & _ & Hlen & Hr'). eauto.
Qed.

Lemma bind_ret_unit_outcome {A} (m : M A) s o s' :
  (m >> ret ()) s = (o, s') →
  ∃ o1, m s = (o1, s') ∧
        match o1 with Ok _ => o = Ok () | Throw => o = Throw | Abort => o = Abort end.
Proof.
  unfold bind. destruct (m s) as [[a | |] s1]; intros [= <- <-];
    eexists; (split; [reflexivity | done]).
Qed.

Lemma Vector_PushBack_outcome s this buf xs cap value o s' :
  represents s this buf xs cap →
  Vector_PushBack this value s = (o, s') →
  match o with
  | Ok _ =>
      ∃ buf' xs', length xs' = S (length xs) ∧
        represents s' this buf' xs'
          (if decide (length xs < cap) then cap else growth cap)
  | Throw => ∃ xs', length xs' = length xs ∧ represents s' this buf xs' cap
  | Abort => True
  end.
Proof.
  intros Hr He. unfold Vector_PushBack in He.
  destruct (bind_ret_unit_outcome _ _ _ _ He) as (o1 & He1 & Ho1).
  pose proof (Vector_EmplaceBack_outcome _ _ _ _ _ _ _ _ Hr He1) as H.
  destruct o1; subst o; done.
Qed.

End EmplaceGeneral.

(** * [Erase] and [PopBack] *)

Section Erase.
Context `{P : Payload}.

Lemma shift_copy_length y B w :
  length (shift_copy y B w).1.1 = S (length B).
Proof.
  revert y w. induction B as [| x B IH]; intros y w; [done |].
  cbn [shift_copy]. destruct (copy_assign y x w) as [[] w']; [| done].
  specialize (IH x w'). destruct (shift_copy x B w') as [[l b] w''].
  cbn [fst snd length] in *. by rewrite IH.
Qed.

Lemma shift_copy_ok y B w :
  (shift_copy y B w).1.2 = true →
  ∃ z, (shift_copy y B w).1.1 = B ++ [z].
Proof.
  revert y w. induction B as [| x B IH]; intros y w; [by exists y |].
  cbn [shift_copy]. destruct (copy_assign y x w) as [[] w']; [| done].
  specialize (IH x w'). destruct (shift_copy x B w') as [[l b] w''].
  cbn [fst snd] in *. intros Hb. destruct (IH Hb) as [z ->]. by exists z.
Qed.

Lemma slots_of_cons_middle A (y : T) B cap :
  slots_of (A ++ y :: B) cap
  = (Live <$> A) ++ Live y :: (Live <$> B)
      ++ replicate (cap - length (A ++ y :: B)) Raw.
Proof. unfold slots_of. by rewrite fmap_app, fmap_cons, <- app_assoc. Qed.

Lemma slots_of_erased A (y : T) B cap :
  length (A ++ y :: B) ≤ cap →
  slots_of (A ++ B) cap
  = ((Live <$> A) ++ (Live <$> B))
      ++ Raw :: replicate (cap - length (A ++ y :: B)) Raw.
Proof.
  intros Hlen. unfold slots_of. rewrite fmap_app. f_equal.
  replace (cap - length (A ++ B)) with (S (cap - length (A ++ y :: B)));
    [done |].
  revert Hlen. rewrite !length_app. cbn [length]. lia.
Qed.

(** The body of [Erase], before its exception specification. *)
Lemma Vector_Erase_eval s this buf A y B cap :
  represents s this buf (A ++ y :: B) cap →
  Vector_Erase this (ptr_add buf (length A)) s
  = if relocate_by_move then
      (Ok (ptr_add buf (length A)), updated this buf cap (A ++ B) s)
    else if (shift_copy y B (env s)).1.2 then
      (Ok (ptr_add buf (length A)),
       set_env (shift_copy y B (env s)).2 (updated this buf cap (A ++ B) s))
    else
      (if is_nothrow_move_assignable then Abort else Throw,
       set_env (shift_copy y B (env s)).2
         (set_block buf (slots_of (A ++ (shift_copy y B (env s)).1.1) cap) s)).
Proof.
  intros Hr. pose proof Hr as (Ho & Hlen & Hb).
  pose proof (proj1 Hb) as Hoff.
  assert (Hsize : length (A ++ y :: B) = S (length A + length B))
    by solve_length.
  rewrite slots_of_cons_middle in Hb.
  set (raws := replicate (cap - length (A ++ y :: B)) Raw) in *.
  unfold Vector_Erase.
  match goal with
  | |- _ ?body s = _ => set (BODY := body)
  end.
  assert (Hbody : BODY s
    = if relocate_by_move then
        (Ok (ptr_add buf (length A)), updated this buf cap (A ++ B) s)
      else if (shift_copy y B (env s)).1.2 then
        (Ok (ptr_add buf (length A)),
         set_env (shift_copy y B (env s)).2
           (updated this buf cap (A ++ B) s))
      else
        (Throw,
         set_env (shift_copy y B (env s)).2
           (set_block buf
              (slots_of (A ++ (shift_copy y B (env s)).1.1) cap) s))).
  { unfold BODY.
    rewrite (bind_Ok _ _ _ _ _ (Vector_begin_eq _ _ _ Ho)).
    cbn [data_ buffer_].
    rewrite (bind_Ok _ _ _ _ _ (ptr_diff_base _ _ _ Hoff)).
    rewrite (bind_Ok _ _ _ _ _ (read_Ok _ _ _ Ho)).
    cbn [data_ size_ buffer_ capacity_].
    rewrite bind_assert_true by (apply bool_decide_eq_true_2; lia).
    rewrite (bind_Ok _ _ _ _ _ (Vector_begin_eq _ _ _ Ho)).
    rewrite (bind_Ok _ _ _ _ _ (Vector_end_eq _ _ _ Ho)).
    cbn [data_ size_ buffer_]. rewrite ptr_add_add, Hsize.
    assert (Hdiff : ∀ s0, ptr_diff (ptr_add buf (S (length A + length B)))
                      (ptr_add buf (length A + 1)) s0
                    = (Ok (length B), s0)).
    { intros s0. rewrite ptr_diff_add by lia. do 2 f_equal. lia. }
    assert (Hfin : ∀ s0 z,
      objs s0 = objs s →
      block_is s0 buf ((Live <$> A) ++ (Live <$> B) ++ Live z :: raws) →
      (e <- Vector_end this;;
       last <- ptr_sub e 1;;
       destroy_at last >>
       set_size this (S (length A + length B) - 1) >>
       b <- Vector_begin this;;
       ret (ptr_add b (length A))) s0
      = (Ok (ptr_add buf (length A)),
         set_objs
           (<[this := {| data_ := {| buffer_ := buf; capacity_ := cap |};
                         size_ := length (A ++ B) |}]> (objs s))
           (set_block buf (slots_of (A ++ B) cap) s0))).
    { intros s0 z Hobjs0 Hb0.
      assert (Ho0 : objs s0 !! this
                = Some {| data_ := {| buffer_ := buf; capacity_ := cap |};
                          size_ := length (A ++ y :: B) |})
        by by rewrite Hobjs0.
      rewrite (bind_Ok _ _ _ _ _ (Vector_end_eq _ _ _ Ho0)).
      cbn [data_ size_ buffer_]. rewrite Hsize.
      rewrite (bind_Ok _ _ _ _ _ (ptr_sub_add_S _ _ _)).
      rewrite app_assoc in Hb0.
      erewrite bind_Ok.
      2:{ eapply (destroy_block _ _ _ (length A + length B) z Hb0).
          apply list_lookup_middle. solve_length. }
      erewrite bind_Ok.
      2:{ apply set_size_eq. rewrite objs_set_block. done. }
      erewrite bind_Ok.
      2:{ apply Vector_begin_eq. rewrite objs_set_objs. apply lookup_insert_eq. }
      cbn [data_ buffer_]. unfold ret. f_equal.
      rewrite objs_set_block, Hobjs0.
      replace (length A + length B)
        with (length ((Live <$> A) ++ (Live <$> B))) at 2 by solve_length.
      rewrite insert_middle, (slots_of_erased A y B) by done.
      do 3 f_equal. solve_length. }
    destruct relocate_by_move.
    - unfold std_move. rewrite bind_assoc, (bind_Ok _ _ _ _ _ (Hdiff _)).
      erewrite bind_Ok.
      2:{ rewrite <- (length_fmap Live A). by apply move_n_shift. }
      rewrite (Hfin _ (shift_move_residue y B)); [| by rewrite objs_set_block | ].
      + unfold updated. by rewrite set_block_set_block.
      + eapply block_is_set; [done |]. solve_length.
    - unfold std_copy. rewrite bind_assoc, (bind_Ok _ _ _ _ _ (Hdiff _)).
      unfold bind at 1.
      rewrite <- (length_fmap Live A) at 1 2.
      rewrite (copy_n_shift B y s buf _ _ Hb).
      pose proof (shift_copy_ok y B (env s)) as Hok.
      pose proof (shift_copy_length y B (env s)) as Hl.
      destruct (shift_copy y B (env s)) as [[l []] w]; cbn [fst snd] in *.
      + destruct Hok as [z ->]; [done |].
        rewrite (Hfin _ z); [| by rewrite objs_set_env, objs_set_block | ].
        * unfold updated. by norm_state.
        * rewrite fmap_app, <- app_assoc. block_tac.
      + f_equal. f_equal. f_equal.
        unfold slots_of. rewrite fmap_app, <- app_assoc. do 2 f_equal.
        unfold raws. f_equal. rewrite !length_app. cbn [length]. lia. }
  destruct is_nothrow_move_assignable.
  - unfold noexcept. rewrite Hbody.
    destruct relocate_by_move; [done |].
    by destruct (shift_copy y B (env s)) as [[l []] w].
  - unfold id. apply Hbody.
Qed.

Lemma Vector_Erase_bad_position s this buf xs cap pos :
  represents s this buf xs cap →
  ¬ (block pos = block buf ∧ off pos < length xs) →
  Vector_Erase this pos s = (Abort, s).
Proof.
  intros Hr Hpos. pose proof Hr as (Ho & Hlen & Hb).
  pose proof (proj1 Hb) as Hoff.
  unfold Vector_Erase.
  match goal with
  | |- _ ?body s = _ => assert (Hbody : body s = (Abort, s))
  end.
  { rewrite (bind_Ok _ _ _ _ _ (Vector_begin_eq _ _ _ Ho)).
    cbn [data_ buffer_]. unfold ptr_diff.
    destruct (decide (block pos = block buf)); [| done].
    rewrite (decide_True (P := off buf ≤ off pos)) by lia. rewrite bind_ret.
    rewrite (bind_Ok _ _ _ _ _ (read_Ok _ _ _ Ho)).
    cbn [data_ size_ buffer_ capacity_].
    rewrite bind_assert_false; [done |].
    apply bool_decide_eq_false_2. intros H. apply Hpos. split; [done | lia]. }
  destruct is_nothrow_move_assignable; [| done].
  unfold noexcept. by rewrite Hbody.
Qed.

Lemma erased_split (xs : list T) i y :
  xs !! i = Some y →
  xs = take i xs ++ y :: drop (S i) xs ∧ length (take i xs) = i.
Proof.
  intros Hi. split; [by rewrite take_drop_middle |].
  apply lookup_lt_Some in Hi. rewrite length_take. lia.
Qed.

Lemma erased_length (xs : list T) i :
  i < length xs → S (length (erased i xs)) = length xs.
Proof.
  intros Hi. unfold erased. rewrite length_app, length_take, length_drop. lia.
Qed.

(** Whatever the position: a call that returns has removed the element at
    that position; a call that throws has left the number of elements. *)
Lemma Vector_Erase_outcome s this buf xs cap pos o s' :
  represents s this buf xs cap →
  Vector_Erase this pos s = (o, s') →
  match o with
  | Ok q =>
      q = pos ∧ off pos < length xs ∧
      represents s' this buf (erased (off pos) xs) cap
  | Throw => ∃ xs', length xs' = length xs ∧ represents s' this buf xs' cap
  | Abort => True
  end.
Proof.
  intros Hr He. pose proof Hr as (Ho & Hlen & Hb).
  destruct (decide (block pos = block buf ∧ off pos < length xs))
    as [[Hblock Hoff] | Hbad].
  2:{ rewrite (Vector_Erase_bad_position _ _ _ _ _ _ Hr Hbad) in He.
      by injection He as <- _. }
  destruct (lookup_lt_is_Some_2 xs (off pos) Hoff) as [y Hy].
  destruct (erased_split _ _ _ Hy) as [Hxs HA].
  pose proof (position_ptr_add _ _ Hblock (proj1 Hb)) as Hpos.
  unfold erased.
  set (A := take (off pos) xs) in *. set (B := drop (S (off pos)) xs) in *.
  assert (Hr' : represents s this buf (A ++ y :: B) cap) by by rewrite <- Hxs.
  pose proof (Vector_Erase_eval _ _ _ _ _ _ _ Hr') as Hev.
  rewrite HA, <- Hpos, He in Hev. clear He.
  assert (Hlen' : length (A ++ B) ≤ cap).
  { pose proof (f_equal length Hxs) as HH. revert HH.
    rewrite !length_app. cbn [length]. lia. }
  assert (Hup : represents (updated this buf cap (A ++ B) s) this buf
                  (A ++ B) cap).
  { eapply represents_updated; [done | by apply length_slots_of | done]. }
  destruct relocate_by_move.
  - by injection Hev as -> ->.
  - pose proof (shift_copy_length y B (env s)) as Hl.
    destruct (shift_copy y B (env s)) as [[l []] w]; cbn [fst snd] in *.
    + injection Hev as -> ->. repeat split; try done; apply Hup.
    + destruct is_nothrow_move_assignable; injection Hev as -> ->; [done |].
      exists (A ++ l).
      assert (Hll : length (A ++ l) = length xs).
      { pose proof (f_equal length Hxs) as HH. revert HH.
        rewrite !length_app. cbn [length]. lia. }
      split; [done |]. apply represents_set_env.
      split; [by rewrite objs_set_block, Hll |]. split; [lia |].
      eapply block_is_set; [done |]. rewrite !length_slots_of; lia.
Qed.

End Erase.

(** * Construction, destruction, assignment *)

Section Lifecycle.
Context `{P : Payload}.

Lemma represents_frame s s' this buf xs cap :
  represents s this buf xs cap →
  objs s' !! this = objs s !! this →
  block_is s' buf (slots_of xs cap) →
  represents s' this buf xs cap.
Proof. intros (Ho & Hlen & _) Ho' Hb. split; [by rewrite Ho' | done]. Qed.

(** ** [Swap] and the moves *)

Lemma Vector_Swap_eval s this other v o :
  this ≠ other →
  objs s !! this = Some v → objs s !! other = Some o →
  Vector_Swap this other s
  = (Ok (), set_objs (<[other := v]> (<[this := o]> (objs s))) s).
Proof.
  intros Hne Hv Ho. destruct v as [vd vs], o as [od os].
  unfold Vector_Swap. apply noexcept_Ok.
  rewrite (bind_Ok _ _ _ _ _ (read_Ok _ _ _ Hv)).
  rewrite (bind_Ok _ _ _ _ _ (read_Ok _ _ _ Ho)).
  unfold RawMemory_Swap. cbn [data_ size_ buffer_ capacity_].
  rewrite (bind_Ok _ _ _ _ _ (set_data_eq _ _ _ _ Hv)).
  erewrite bind_Ok.
  2:{ apply set_data_eq. rewrite objs_set_objs, lookup_insert_ne by done.
      apply Ho. }
  erewrite bind_Ok.
  2:{ apply read_Ok. rewrite !objs_set_objs, lookup_insert_ne by done.
      apply lookup_insert_eq. }
  erewrite bind_Ok.
  2:{ apply read_Ok. rewrite !objs_set_objs. apply lookup_insert_eq. }
  cbn [data_ size_].
  erewrite bind_Ok.
  2:{ apply set_size_eq. rewrite !objs_set_objs, lookup_insert_ne by done.
      apply lookup_insert_eq. }
  erewrite set_size_eq.
  2:{ rewrite !objs_set_objs, lookup_insert_ne by done.
      apply lookup_insert_eq. }
  cbn [data_ size_]. f_equal. rewrite !objs_set_objs, !set_objs_set_objs.
  f_equal. destruct vd as [vb vc], od as [ob oc]. cbn [buffer_ capacity_].
  apply map_eq. intros i. rewrite !lookup_insert.
  repeat case_decide; subst; done.
Qed.

Lemma Vector_Swap_self s this v :
  objs s !! this = Some v → Vector_Swap this this s = (Ok (), s).
Proof.
  intros Hv. destruct v as [[vb vc] vs].
  unfold Vector_Swap. apply noexcept_Ok.
  rewrite !(bind_Ok _ _ _ _ _ (read_Ok _ _ _ Hv)).
  unfold RawMemory_Swap. cbn [data_ size_ buffer_ capacity_].
  rewrite (bind_Ok _ _ _ _ _ (set_data_eq _ _ _ _ Hv)).
  cbn [data_ size_].
  rewrite insert_id by done. rewrite set_objs_id.
  rewrite (bind_Ok _ _ _ _ _ (set_data_eq _ _ _ _ Hv)).
  cbn [data_ size_].
  rewrite insert_id by done. rewrite set_objs_id.
  rewrite !(bind_Ok _ _ _ _ _ (read_Ok _ _ _ Hv)).
  cbn [data_ size_].
  rewrite (bind_Ok _ _ _ _ _ (set_size_eq _ _ _ _ Hv)).
  cbn [data_ size_].
  rewrite insert_id by done. rewrite set_objs_id.
  rewrite (set_size_eq _ _ _ _ Hv).
  cbn [data_ size_].
  rewrite insert_id by done. by rewrite set_objs_id.
Qed.

Lemma Vector_move_assign_eval s this rhs v o :
  this ≠ rhs →
  objs s !! this = Some v → objs s !! rhs = Some o →
  Vector_move_assign this rhs s
  = (Ok (), set_objs (<[rhs := v]> (<[this := o]> (objs s))) s).
Proof.
  intros Hne Hv Ho. unfold Vector_move_assign. apply noexcept_Ok.
  rewrite decide_True by done. by apply Vector_Swap_eval.
Qed.

Lemma Vector_move_assign_self s this :
  Vector_move_assign this this s = (Ok (), s).
Proof. unfold Vector_move_assign. apply noexcept_Ok. by rewrite decide_False by auto. Qed.

Lemma Vector_move_ctor_eval s this other o :
  this ≠ other →
  objs s !! other = Some o →
  Vector_move_ctor this other s
  = (Ok (),
     set_objs
       (<[this := o]>
          (<[other := {| data_ := RawMemory_default; size_ := 0 |}]> (objs s)))
       s).
Proof.
  intros Hne Ho. destruct o as [[ob oc] os].
  unfold Vector_move_ctor. apply noexcept_Ok.
  rewrite (bind_Ok _ _ _ _ _ (read_Ok _ _ _ Ho)).
  unfold RawMemory_move_ctor, RawMemory_move_assign, RawMemory_Deallocate,
    RawMemory_dtor, RawMemory_Deallocate, RawMemory_default.
  cbn [data_ size_ buffer_ capacity_].
  rewrite bind_assoc.
  assert (Hdel : ∀ s0 : state, operator_delete nullptr s0 = (Ok (), s0))
    by done.
  rewrite (bind_Ok _ _ _ _ _ (Hdel _)), bind_ret. cbn [fst snd buffer_].
  rewrite (bind_Ok _ _ _ _ _ (set_data_eq _ _ _ _ Ho)).
  rewrite (bind_Ok _ _ _ _ _ (Hdel _)).
  erewrite bind_Ok.
  2:{ apply read_Ok. rewrite objs_set_objs. apply lookup_insert_eq. }
  cbn [data_ size_].
  erewrite bind_Ok.
  2:{ apply set_size_eq. rewrite objs_set_objs. apply lookup_insert_eq. }
  rewrite write_eq. cbn [data_ size_].
  rewrite !objs_set_objs, !set_objs_set_objs. by rewrite insert_insert_eq.
Qed.

(** ** Constructors and destructor *)

Lemma represents_constructed s this xs :
  represents (constructed this xs s) this (new_buffer (length xs) s) xs
    (length xs).
Proof.
  unfold constructed. split; [| split; [done |]].
  - rewrite objs_set_objs. apply lookup_insert_eq.
  - apply block_is_set_objs. eapply block_is_set; [apply block_is_new |].
    rewrite length_slots_of by done. solve_length.
Qed.

Lemma slots_of_full xs : slots_of xs (length xs) = (Live <$> xs) ++ [].
Proof. unfold slots_of. by rewrite Nat.sub_diag. Qed.

Lemma Vector_copy_ctor_eval s this other buf xs cap :
  this ≠ other →
  represents s other buf xs cap →
  Vector_copy_ctor this other s
  = if (copy_all xs (env s)).1
    then (Ok (), set_env (copy_all xs (env s)).2 (constructed this xs s))
    else (Throw, set_env (copy_all xs (env s)).2
                   (set_objs (delete this (objs s)) s)).
Proof.
  intros Hne Hr. pose proof Hr as (Ho & Hlen & Hb).
  set (q := new_buffer (length xs) s).
  assert (Hsep : separate buf q) by by eapply separate_new.
  unfold Vector_copy_ctor.
  rewrite (bind_Ok _ _ _ _ _ (read_Ok _ _ _ Ho)). cbn [size_].
  rewrite (bind_Ok _ _ _ _ _ (RawMemory_ctor_eq _ _)). fold q.
  rewrite (bind_Ok _ _ _ _ _ (write_eq _ _ _)).
  set (s1 := set_objs _ (alloc_block (length xs) s)).
  assert (Ho1 : objs s1 !! other = objs s !! other).
  { unfold s1. norm_state. by rewrite lookup_insert_ne. }
  assert (Ht1 : objs s1 !! this
                = Some {| data_ := {| buffer_ := q; capacity_ := length xs |};
                          size_ := length xs |}).
  { unfold s1. norm_state. apply lookup_insert_eq. }
  assert (Hb1 : block_is s1 buf ((Live <$> xs) ++ replicate (cap - length xs) Raw)).
  { unfold s1. block_tac. }
  assert (Hq1 : block_is s1 q (replicate (length xs) Raw ++ [])).
  { unfold s1. rewrite app_nil_r. block_tac. }
  assert (Hcopy : (o <- read other;;
                   v <- read this;;
                   uninitialized_copy_n (RawMemory_GetAddress (data_ o))
                     (size_ o) (RawMemory_GetAddress (data_ v)) >>
                   ret ()) s1
                  = if (copy_all xs (env s)).1
                    then (Ok (), set_env (copy_all xs (env s)).2
                                   (set_block q ((Live <$> xs) ++ []) s1))
                    else (Throw, set_env (copy_all xs (env s)).2 s1)).
  { erewrite bind_Ok; [| apply read_Ok; by rewrite Ho1].
    rewrite (bind_Ok _ _ _ _ _ (read_Ok _ _ _ Ht1)).
    cbn [data_ size_ buffer_ RawMemory_GetAddress].
    unfold bind. rewrite (uninitialized_copy_n_front xs s1 buf q _ _ Hsep Hb1 Hq1).
    replace (env s1) with (env s) by (unfold s1; by norm_state).
    by destruct (copy_all xs (env s)) as [[] w]. }
  unfold on_throw. rewrite Hcopy.
  destruct (copy_all xs (env s)) as [[] w]; cbn [fst snd].
  - f_equal. unfold constructed, s1. fold q. norm_state.
    by rewrite slots_of_full.
  - erewrite bind_Ok; [| apply read_Ok; by rewrite objs_set_env].
    unfold RawMemory_dtor, RawMemory_Deallocate. cbn [data_ buffer_].
    erewrite bind_Ok.
    2:{ eapply operator_delete_block. block_tac. }
    unfold discard. f_equal. unfold s1. norm_state.
    rewrite delete_insert_eq.
    unfold q. by rewrite free_alloc_block.
Qed.

Lemma Vector_sized_ctor_eval s this n :
  Vector_sized_ctor this n s
  = if (value_all n (env s)).1
    then (Ok (), set_env (value_all n (env s)).2
                   (constructed this (replicate n value_init) s))
    else (Throw, set_env (value_all n (env s)).2
                   (set_objs (delete this (objs s)) s)).
Proof.
  set (q := new_buffer n s).
  unfold Vector_sized_ctor.
  rewrite (bind_Ok _ _ _ _ _ (RawMemory_ctor_eq _ _)). fold q.
  rewrite (bind_Ok _ _ _ _ _ (write_eq _ _ _)).
  set (s1 := set_objs _ (alloc_block n s)).
  assert (Ht1 : objs s1 !! this
                = Some {| data_ := {| buffer_ := q; capacity_ := n |};
                          size_ := n |}).
  { unfold s1. norm_state. apply lookup_insert_eq. }
  assert (Hq1 : block_is s1 q (replicate n Raw ++ [])).
  { unfold s1. rewrite app_nil_r. block_tac. }
  assert (Hbody : (v <- read this;;
                   uninitialized_value_construct_n
                     (RawMemory_GetAddress (data_ v)) n >>
                   ret ()) s1
                  = if (value_all n (env s)).1
                    then (Ok (), set_env (value_all n (env s)).2
                                   (set_block q
                                      (replicate n (Live value_init) ++ []) s1))
                    else (Throw, set_env (value_all n (env s)).2 s1)).
  { rewrite (bind_Ok _ _ _ _ _ (read_Ok _ _ _ Ht1)).
    cbn [data_ size_ buffer_ RawMemory_GetAddress].
    unfold bind. rewrite (uninitialized_value_construct_n_front n s1 q _ Hq1).
    replace (env s1) with (env s) by (unfold s1; by norm_state).
    by destruct (value_all n (env s)) as [[] w]. }
  unfold on_throw. rewrite Hbody.
  destruct (value_all n (env s)) as [[] w]; cbn [fst snd].
  - f_equal. unfold constructed, s1. rewrite length_replicate. fold q.
    norm_state. unfold slots_of.
    by rewrite length_replicate, Nat.sub_diag, fmap_replicate.
  - erewrite bind_Ok; [| apply read_Ok; by rewrite objs_set_env].
    unfold RawMemory_dtor, RawMemory_Deallocate. cbn [data_ buffer_].
    erewrite bind_Ok.
    2:{ eapply operator_delete_block. block_tac. }
    unfold discard. f_equal. unfold s1. norm_state.
    rewrite delete_insert_eq.
    unfold q. by rewrite free_alloc_block.
Qed.

Lemma Vector_dtor_eval s this buf xs cap :
  represents s this buf xs cap →
  Vector_dtor this s
  = (Ok (), set_objs (delete this (objs s)) (free_block buf s)).
Proof.
  intros Hr. pose proof Hr as (Ho & Hlen & Hb).
  unfold Vector_dtor.
  rewrite (bind_Ok _ _ _ _ _ (read_Ok _ _ _ Ho)).
  cbn [data_ size_ buffer_ RawMemory_GetAddress].
  erewrite bind_Ok; [| by apply destroy_n_front].
  unfold RawMemory_dtor, RawMemory_Deallocate. cbn [data_ buffer_].
  erewrite bind_Ok.
  2:{ eapply operator_delete_block. block_tac. }
  unfold discard. by norm_state.
Qed.

End Lifecycle.

(** * Copy assignment *)

Section CopyAssign.
Context `{P : Payload}.

Lemma assign_all_length ys xs w :
  length ys = length xs → length (assign_all ys xs w).1.1 = length ys.
Proof.
  revert xs w. induction ys as [| y ys IH]; intros [| x xs] w Hlen;
    try done.
  cbn [assign_all]. destruct (copy_assign y x w) as [[] w']; [| done].
  specialize (IH xs w' ltac:(by injection Hlen)).
  destruct (assign_all ys xs w') as [[l b] w'']. cbn [fst snd length] in *.
  by rewrite IH.
Qed.

Lemma assign_all_ok ys xs w :
  length ys = length xs → (assign_all ys xs w).1.2 = true →
  (assign_all ys xs w).1.1 = xs.
Proof.
  revert xs w. induction ys as [| y ys IH]; intros [| x xs] w Hlen;
    try done.
  cbn [assign_all]. destruct (copy_assign y x w) as [[] w']; [| done].
  specialize (IH xs w' ltac:(by injection Hlen)).
  destruct (assign_all ys xs w') as [[l b] w'']. cbn [fst snd] in *.
  intros Hb. by rewrite IH.
Qed.

Lemma fresh_objs_None (s : state) : objs s !! fresh (dom (objs s)) = None.
Proof. apply not_elem_of_dom, is_fresh. Qed.

Variables (s : state) (this rhs : nat) (buf rbuf : ptr).
Variables (xs ys : list T) (cap rcap : nat).
Hypothesis Hne : this ≠ rhs.
Hypothesis Hr : represents s this buf xs cap.
Hypothesis Hrr : represents s rhs rbuf ys rcap.
Hypothesis Hsep : separate buf rbuf.

(** The source is larger than the capacity: copy and swap. *)
Lemma copy_assign_rebuild :
  cap < length ys →
  (rhs_copy <- alloca;;
   Vector_copy_ctor rhs_copy rhs >>
   Vector_Swap this rhs_copy >>
   Vector_dtor rhs_copy) s
  = if (copy_all ys (env s)).1
    then (Ok (), set_env (copy_all ys (env s)).2
                   (relocated this buf (length ys) ys s))
    else (Throw, set_env (copy_all ys (env s)).2 s).
Proof.
  intros Hcap. pose proof Hr as (Ho & Hlen & Hb).
  pose proof Hrr as (Hor & Hlenr & Hbr).
  set (t := fresh (dom (objs s))).
  assert (Ht : objs s !! t = None) by apply fresh_objs_None.
  assert (Htt : t ≠ this) by (intros Heq; by rewrite Heq, Ho in Ht).
  assert (Htr : t ≠ rhs) by (intros Heq; by rewrite Heq, Hor in Ht).
  assert (Halloca : alloca s = (Ok t, s)) by done.
  rewrite (bind_Ok _ _ _ _ _ Halloca).
  unfold bind at 1.
  rewrite (Vector_copy_ctor_eval s t rhs rbuf ys rcap Htr Hrr).
  destruct (copy_all ys (env s)) as [[] w]; cbn [fst snd].
  2:{ rewrite delete_id by done. by rewrite set_objs_id. }
  set (q := new_buffer (length ys) s).
  assert (Hsepq : separate buf q) by by eapply separate_new.
  erewrite bind_Ok.
  2:{ eapply (Vector_Swap_eval _ this t); [done | |].
      - unfold constructed. norm_state.
        rewrite lookup_insert_ne by done. apply Ho.
      - unfold constructed. norm_state. apply lookup_insert_eq. }
  erewrite (Vector_dtor_eval _ t buf xs cap).
  2:{ split; [| split; [done |]].
      - norm_state. apply lookup_insert_eq.
      - unfold constructed. fold q. block_tac. }
  f_equal. unfold relocated, constructed. fold q. norm_state.
  rewrite (free_block_set_other buf q) by done.
  f_equal. apply map_eq. intros i. rewrite lookup_delete, !lookup_insert.
  repeat case_decide; subst; done.
Qed.

Lemma slots_of_take_drop (l : list T) n c :
  slots_of l c
  = (Live <$> take n l) ++ (Live <$> drop n l)
      ++ replicate (c - length l) Raw.
Proof.
  unfold slots_of. by rewrite app_assoc, <- fmap_app, take_drop.
Qed.

(** The source is smaller than the destination: overwrite, then destroy the
    excess. *)
Lemma copy_assign_shrink :
  length ys < length xs →
  (copy_n rbuf (length ys) buf >>
   destroy_n (ptr_add buf (length ys)) (length xs - length ys) >>
   ret ()) s
  = (if (assign_all (take (length ys) xs) ys (env s)).1.2
     then Ok () else Throw,
     set_env (assign_all (take (length ys) xs) ys (env s)).2
       (set_block buf
          (if (assign_all (take (length ys) xs) ys (env s)).1.2
           then slots_of ys cap
           else slots_of ((assign_all (take (length ys) xs) ys (env s)).1.1
                            ++ drop (length ys) xs) cap)
          s)).
Proof.
  intros Hlt. pose proof Hr as (Ho & Hlen & Hb).
  pose proof Hrr as (Hor & Hlenr & Hbr).
  assert (Htake : length (take (length ys) xs) = length ys)
    by (rewrite length_take; lia).
  rewrite (slots_of_take_drop xs (length ys)) in Hb.
  unfold bind at 1.
  rewrite (copy_n_front ys (take (length ys) xs) s rbuf buf _ _ Htake
             (separate_sym _ _ Hsep) Hbr Hb).
  pose proof (assign_all_length (take (length ys) xs) ys (env s) Htake) as Hl.
  pose proof (assign_all_ok (take (length ys) xs) ys (env s) Htake) as Hok.
  destruct (assign_all (take (length ys) xs) ys (env s)) as [[l []] w];
    cbn [fst snd] in *.
  - rewrite Hok by done.
    erewrite bind_Ok.
    2:{ apply (destroy_n_at (drop (length ys) xs) _ buf (Live <$> ys)
                 (replicate (cap - length xs) Raw));
          [solve_length | by rewrite length_drop | block_tac]. }
    rewrite set_block_set_env, set_block_set_block.
    unfold ret. do 3 f_equal. unfold slots_of. f_equal.
    rewrite <- replicate_add. f_equal. lia.
  - do 3 f_equal. unfold slots_of. rewrite fmap_app, <- app_assoc.
    do 3 f_equal. rewrite length_app, length_drop. lia.
Qed.

(** The source is at least as large as the destination: overwrite, then
    construct the new tail. *)
Lemma copy_assign_extend :
  length xs ≤ length ys → length ys ≤ cap →
  (copy_n rbuf (length xs) buf >>
   uninitialized_copy_n (ptr_add rbuf (length xs)) (length ys - length xs)
     (ptr_add buf (length xs)) >>
   ret ()) s
  = let prefix := assign_all xs (take (length xs) ys) (env s) in
    if negb prefix.1.2 then
      (Throw, set_env prefix.2 (set_block buf (slots_of prefix.1.1 cap) s))
    else
      let tail := copy_all (drop (length xs) ys) prefix.2 in
      if tail.1
      then (Ok (), set_env tail.2 (set_block buf (slots_of ys cap) s))
      else (Throw, set_env tail.2
                     (set_block buf (slots_of (take (length xs) ys) cap) s)).
Proof.
  intros Hle Hcap. pose proof Hr as (Ho & Hlen & Hb).
  pose proof Hrr as (Hor & Hlenr & Hbr).
  assert (Htake : length xs = length (take (length xs) ys))
    by (rewrite length_take; lia).
  rewrite (slots_of_take_drop ys (length xs)) in Hbr.
  unfold slots_of in Hb.
  unfold bind at 1. rewrite Htake at 1.
  rewrite (copy_n_front (take (length xs) ys) xs s rbuf buf _ _ Htake
             (separate_sym _ _ Hsep) Hbr Hb).
  pose proof (assign_all_length xs (take (length xs) ys) (env s) Htake) as Hl.
  pose proof (assign_all_ok xs (take (length xs) ys) (env s) Htake) as Hok.
  cbv zeta.
  destruct (assign_all xs (take (length xs) ys) (env s)) as [[l []] w];
    cbn [fst snd negb] in *.
  2:{ do 3 f_equal. unfold slots_of. by rewrite Hl. }
  rewrite Hok by done.
  unfold bind at 1.
  erewrite (uninitialized_copy_n_at (drop (length xs) ys) _ rbuf buf
              (Live <$> take (length xs) ys)
              (replicate (rcap - length ys) Raw)
              (Live <$> take (length xs) ys)
              (replicate (cap - length ys) Raw));
    [| solve_length | solve_length | by rewrite length_drop
     | by apply separate_sym | block_tac | ].
  2:{ rewrite <- replicate_add.
      replace (length ys - length xs + (cap - length ys))
        with (cap - length xs) by lia.
      block_tac. }
  rewrite env_set_env.
  destruct (copy_all (drop (length xs) ys) w) as [[] w2]; cbn [fst snd].
  - unfold ret. norm_state. do 3 f_equal.
    unfold slots_of. by rewrite app_assoc, <- fmap_app, take_drop.
  - norm_state. do 3 f_equal. unfold slots_of. f_equal. f_equal.
    rewrite length_take. lia.
Qed.

Lemma Vector_copy_assign_eval :
  Vector_copy_assign this rhs s = copy_assigned this buf cap xs ys s.
Proof.
  pose proof Hr as (Ho & Hlen & Hb). pose proof Hrr as (Hor & Hlenr & Hbr).
  unfold Vector_copy_assign, copy_assigned.
  rewrite decide_True by done.
  rewrite (bind_Ok _ _ _ _ _ (read_Ok _ _ _ Hor)).
  rewrite (bind_Ok _ _ _ _ _ (read_Ok _ _ _ Ho)).
  cbn [data_ size_ buffer_ capacity_ RawMemory_Capacity RawMemory_GetAddress].
  destruct (decide (cap < length ys)) as [Hcap | Hcap].
  { by apply copy_assign_rebuild. }
  cbv zeta.
  destruct (decide (length ys < length xs)) as [Hlt | Hge].
  - rewrite (take_ge ys) by lia.
    unfold bind at 1. rewrite copy_assign_shrink by done.
    destruct (assign_all (take (length ys) xs) ys (env s)) as [[l []] w];
      cbn [fst snd negb]; [| done].
    erewrite set_size_eq.
    2:{ norm_state. apply Ho. }
    cbn [data_]. unfold updated. by norm_state.
  - rewrite (take_ge xs) by lia. rewrite (drop_ge xs) by lia.
    rewrite app_nil_r.
    unfold bind at 1.
    rewrite copy_assign_extend by lia. cbv zeta.
    destruct (assign_all xs (take (length xs) ys) (env s)) as [[l []] w];
      cbn [fst snd negb]; [| done].
    destruct (copy_all (drop (length xs) ys) w) as [[] w2]; cbn [fst snd];
      [| done].
    erewrite set_size_eq.
    2:{ norm_state. apply Ho. }
    cbn [data_]. unfold updated. by norm_state.
Qed.

Lemma Vector_copy_assign_self : Vector_copy_assign this this s = (Ok (), s).
Proof. unfold Vector_copy_assign. by rewrite decide_False by auto. Qed.

End CopyAssign.

(** * [Reserve], [Resize], [PopBack], element access *)

Section Sizes.
Context `{P : Payload}.

Lemma Vector_Reserve_represents s this buf xs cap n o s' :
  represents s this buf xs cap →
  Vector_Reserve this n s = (o, s') →
  match o with
  | Ok _ => ∃ buf' cap', represents s' this buf' xs cap' ∧ n ≤ cap'
  | Throw => ∃ w, s' = set_env w s
  | Abort => False
  end.
Proof.
  intros Hr He. pose proof Hr as (Ho & Hlen & Hb).
  destruct (decide (n ≤ cap)) as [Hn | Hn].
  - rewrite (Vector_Reserve_noop _ _ _ _ _ _ Hr Hn) in He.
    injection He as <- <-. eauto.
  - rewrite (Vector_Reserve_grow _ _ _ _ _ _ Hr) in He by lia.
    assert (Hrel : represents (relocated this buf n xs s) this
                     (new_buffer n s) xs n)
      by (eapply represents_relocated; [done | lia | lia]).
    destruct relocate_by_move.
    + injection He as <- <-. eauto.
    + destruct (copy_all xs (env s)) as [[] w]; cbn [fst snd] in He;
        injection He as <- <-; eauto using represents_set_env.
Qed.

Lemma take_slots_of xs n cap :
  n ≤ length xs → length xs ≤ cap →
  slots_of (take n xs) cap
  = (Live <$> take n xs) ++ replicate (length (drop n xs)) Raw
      ++ replicate (cap - length xs) Raw.
Proof.
  intros Hn Hcap. unfold slots_of. f_equal. rewrite <- replicate_add.
  f_equal. rewrite length_take, length_drop. lia.
Qed.

Lemma Vector_Resize_shrink s this buf xs cap n :
  represents s this buf xs cap → n < length xs →
  Vector_Resize this n s = (Ok (), updated this buf cap (take n xs) s).
Proof.
  intros Hr Hn. pose proof Hr as (Ho & Hlen & Hb).
  unfold Vector_Resize.
  rewrite (bind_Ok _ _ _ _ _ (read_Ok _ _ _ Ho)).
  cbn [data_ size_ buffer_ RawMemory_GetAddress].
  rewrite decide_True by done.
  rewrite (slots_of_take_drop xs n) in Hb.
  erewrite bind_Ok.
  2:{ apply (destroy_n_at (drop n xs) _ buf (Live <$> take n xs)
               (replicate (cap - length xs) Raw));
        [rewrite length_fmap, length_take; lia | rewrite length_drop; lia
        | done]. }
  erewrite set_size_eq; [| rewrite objs_set_block; apply Ho].
  cbn [data_]. unfold updated. norm_state.
  rewrite take_slots_of by lia.
  rewrite length_drop, length_take. by replace (n `min` length xs) with n by lia.
Qed.

Lemma Vector_Resize_same s this buf xs cap :
  represents s this buf xs cap →
  Vector_Resize this (length xs) s = (Ok (), s).
Proof.
  intros Hr. pose proof Hr as (Ho & Hlen & Hb).
  unfold Vector_Resize.
  rewrite (bind_Ok _ _ _ _ _ (read_Ok _ _ _ Ho)). cbn [size_].
  by rewrite !decide_False by lia.
Qed.

Lemma Vector_Resize_grow s this buf xs cap n o s' :
  represents s this buf xs cap → length xs < n →
  Vector_Resize this n s = (o, s') →
  match o with
  | Ok _ => ∃ buf' cap',
      represents s' this buf' (xs ++ replicate (n - length xs) value_init) cap'
  | Throw => ∃ buf' cap', represents s' this buf' xs cap'
  | Abort => False
  end.
Proof.
  intros Hr Hn. pose proof Hr as (Ho & Hlen & Hb).
  unfold Vector_Resize.
  rewrite (bind_Ok _ _ _ _ _ (read_Ok _ _ _ Ho)). cbn [size_].
  rewrite decide_False, decide_True by lia.
  destruct (Vector_Reserve this n s) as [o1 s1] eqn:Hres.
  pose proof (Vector_Reserve_represents _ _ _ _ _ _ _ _ Hr Hres) as H1.
  destruct o1 as [[] | |]; [| | done].
  2:{ rewrite (bind_Throw _ _ _ _ Hres). intros [= <- <-].
      destruct H1 as [w ->]. eauto using represents_set_env. }
  rewrite (bind_Ok _ _ _ _ _ Hres).
  destruct H1 as (buf1 & cap1 & Hr1 & Hcap1).
  pose proof Hr1 as (Ho1 & Hlen1 & Hb1).
  rewrite (bind_Ok _ _ _ _ _ (read_Ok _ _ _ Ho1)).
  cbn [data_ size_ buffer_ RawMemory_GetAddress].
  unfold bind at 1.
  assert (Hb1' : block_is s1 buf1
            ((Live <$> xs) ++ replicate (n - length xs) Raw
               ++ replicate (cap1 - n) Raw)).
  { rewrite <- replicate_add.
    by replace (n - length xs + (cap1 - n)) with (cap1 - length xs) by lia. }
  rewrite <- (length_fmap Live xs) at 1.
  rewrite (uninitialized_value_construct_n_block _ _ _ _ _ Hb1').
  destruct (value_all (n - length xs) (env s1)) as [[] w]; cbn [fst snd].
  - erewrite set_size_eq; [| norm_state; apply Ho1].
    intros [= <- <-]. exists buf1, cap1. cbn [data_].
    split; [| split].
    + norm_state. rewrite lookup_insert_eq. do 3 f_equal. solve_length.
    + solve_length.
    + apply block_is_set_objs, block_is_set_env.
      eapply block_is_eq; [eapply block_is_set; [done |]; solve_length |].
      unfold slots_of. rewrite fmap_app, fmap_replicate, <- app_assoc.
      do 3 f_equal. solve_length.
  - intros [= <- <-]. eauto using represents_set_env.
Qed.

Lemma Vector_PopBack_eval s this buf xs l cap :
  represents s this buf (xs ++ [l]) cap →
  Vector_PopBack this s = (Ok (), updated this buf cap xs s).
Proof.
  intros Hr. pose proof Hr as (Ho & Hlen & Hb).
  unfold Vector_PopBack. apply noexcept_Ok.
  rewrite (bind_Ok _ _ _ _ _ (read_Ok _ _ _ Ho)).
  cbn [data_ size_ buffer_ RawMemory_GetAddress].
  rewrite bind_assert_true by (apply bool_decide_eq_true_2; solve_length).
  rewrite length_snoc, Nat.add_1_r.
  rewrite (bind_Ok _ _ _ _ _ (ptr_sub_add_S _ _ _)).
  unfold slots_of in Hb. rewrite fmap_app, <- app_assoc in Hb.
  cbn [fmap list_fmap app] in Hb.
  erewrite bind_Ok.
  2:{ rewrite <- (length_fmap Live xs).
      eapply destroy_block; [done | by apply list_lookup_middle]. }
  erewrite set_size_eq; [| rewrite objs_set_block; apply Ho].
  cbn [data_]. unfold updated. norm_state.
  rewrite <- (length_fmap Live xs) at 2. rewrite insert_middle.
  rewrite length_fmap. replace (S (length xs) - 1) with (length xs) by lia.
  unfold slots_of.
  replace (cap - length xs) with (S (cap - length (xs ++ [l])));
    [done | revert Hlen; rewrite length_snoc; lia].
Qed.

Lemma Vector_PopBack_empty s this buf cap :
  represents s this buf [] cap → Vector_PopBack this s = (Abort, s).
Proof.
  intros (Ho & _). unfold Vector_PopBack, noexcept.
  by rewrite (bind_Ok _ _ _ _ _ (read_Ok _ _ _ Ho)).
Qed.

Lemma Vector_index_eval s this buf xs cap i :
  represents s this buf xs cap →
  Vector_index this i s
  = if decide (i < length xs) then (Ok (ptr_add buf i), s) else (Abort, s).
Proof.
  intros (Ho & Hlen & _). unfold Vector_index.
  rewrite (bind_Ok _ _ _ _ _ (read_Ok _ _ _ Ho)). cbn [data_ size_].
  destruct (decide (i < length xs)).
  - rewrite bind_assert_true by by apply bool_decide_eq_true_2.
    unfold RawMemory_index. cbn [capacity_ buffer_].
    by rewrite bind_assert_true by (apply bool_decide_eq_true_2; lia).
  - by rewrite bind_assert_false by by apply bool_decide_eq_false_2.
Qed.

End Sizes.

(** * Sequences of calls *)

Section Sequences.
Context `{P : Payload}.

Lemma growth_max cap : growth cap = Nat.max 1 (cap * 2).
Proof. unfold growth. destruct (decide (cap = 0)); lia. Qed.

Lemma copy_all_nothrow xs w : nothrow → (copy_all xs w).1 = true.
Proof.
  intros (_ & Hc & _). revert w. induction xs as [| x xs IH]; intros w; [done |].
  cbn [copy_all]. pose proof (Hc x w) as Hx.
  destruct (copy_construct x w) as [[] w']; [apply IH | done].
Qed.

Lemma live_outside_load s buf src x :
  live_outside s buf src x → load src s = (Ok x, s).
Proof.
  intros (a & blk & Ha & _ & Hh & Hi). destruct src as [b i].
  cbn [block off] in *. subst b. by eapply load_Ok.
Qed.

Lemma live_outside_set_env s w buf src x :
  live_outside s buf src x → live_outside (set_env w s) buf src x.
Proof. done. Qed.

Lemma live_outside_updated s this buf cap xs src x :
  live_outside s buf src x → live_outside (updated this buf cap xs s) buf src x.
Proof.
  intros (a & blk & Ha & Hne & Hh & Hi). exists a, blk.
  split; [done |]. split; [done |]. split; [| done].
  unfold updated, set_block. destruct (block buf) as [b |]; [| done].
  cbn [heap set_objs set_heap]. rewrite lookup_insert_ne; [done | congruence].
Qed.

Lemma live_outside_relocated s this buf n xs src x :
  live_outside s buf src x →
  live_outside (relocated this buf n xs s) (new_buffer n s) src x.
Proof.
  intros (a & blk & Ha & Hne & Hh & Hi). exists a, blk.
  assert (Hfresh : fresh (dom (heap s)) ≠ a).
  { intros <-. by rewrite fresh_heap_None in Hh. }
  split; [done |]. split.
  { unfold new_buffer. destruct (decide (n ≠ 0)); cbn [block nullptr];
      congruence. }
  split; [| done].
  unfold relocated, free_block, set_block, alloc_block, new_buffer.
  destruct (decide (n ≠ 0)); cbn [block nullptr];
    destruct (block buf) as [b |]; cbn [heap set_objs set_heap];
    rewrite ?lookup_delete_ne by congruence;
    rewrite ?lookup_insert_ne by congruence; done.
Qed.

(** [PushBack] of a copy of a live object outside the vector, for a
    payload that does not throw: the call returns, the capacity is the
    one of the growth policy, and the object is still there. *)
Lemma Vector_PushBack_returns s this buf xs cap src x :
  nothrow → represents s this buf xs cap → live_outside s buf src x →
  ∃ s' buf',
    Vector_PushBack this (ByCopy src) s = (Ok (), s') ∧
    represents s' this buf' (xs ++ [x])
      (if decide (length xs < cap) then cap else growth cap) ∧
    ∀ src' x', live_outside s buf src' x' → live_outside s' buf' src' x'.
Proof.
  intros Hnt Hr Hsrc. pose proof Hr as (Ho & Hlen & Hb).
  pose proof (live_outside_load _ _ _ _ Hsrc) as Hl.
  pose proof (Vector_Emplace_copy _ _ _ _ _ (length xs) _ _ Hr (le_n _) Hl)
    as He.
  pose proof (proj1 (proj2 Hnt) x (env s)) as Hx. rewrite Hx in He.
  set (s1 := set_env (copy_construct x (env s)).2 s) in *.
  assert (Hr1 : represents s1 this buf xs cap) by by apply represents_set_env.
  pose proof Hr1 as (_ & _ & Hb1).
  assert (Hpush : ∀ p s', Vector_Emplace this (ptr_add buf (length xs))
                            (ByCopy src) s = (Ok p, s') →
                          Vector_PushBack this (ByCopy src) s = (Ok (), s')).
  { intros p s' Hp. unfold Vector_PushBack, Vector_EmplaceBack.
    rewrite bind_assoc. rewrite (bind_Ok _ _ _ _ _ (Vector_end_eq _ _ _ Ho)).
    cbn [data_ size_ buffer_]. by rewrite (bind_Ok _ _ _ _ _ Hp). }
  pose proof (growth_gt cap) as Hg.
  unfold emplaced in He. rewrite inserted_end in He.
  destruct (decide (length xs < cap)) as [Hroom | Hfull].
  - eexists _, buf. split; [by eapply Hpush |]. split.
    + eapply represents_updated; [done | by apply length_slots_of |].
      solve_length.
    + intros src' x' H. by apply live_outside_updated.
  - assert (Hrel : represents (relocated this buf (growth cap) (xs ++ [x]) s1)
                     this (new_buffer (growth cap) s1) (xs ++ [x]) (growth cap)).
    { eapply represents_relocated; [done | solve_length | lia]. }
    destruct relocate_by_move.
    + eexists _, _. split; [by eapply Hpush |]. split; [done |].
      intros src' x' H. by apply live_outside_relocated.
    + rewrite (copy_all_nothrow xs (env s1) Hnt) in He.
      eexists _, _. split; [by eapply Hpush |].
      split; [by apply represents_set_env |].
      intros src' x' H. apply live_outside_set_env.
      by apply live_outside_relocated.
Qed.

Lemma Vector_Capacity_eq s this buf xs cap :
  represents s this buf xs cap → Vector_Capacity this s = (Ok cap, s).
Proof.
  intros Hr. unfold Vector_Capacity.
  by rewrite (bind_Ok _ _ _ _ _ (represents_read _ _ _ _ _ Hr)).
Qed.

(** The capacities read after each [PushBack] of a run that returns. *)
Lemma push_backs_capacities values s this buf xs cap cs s' :
  represents s this buf xs cap →
  push_backs this values s = (Ok cs, s') →
  cs = capacities (length xs) cap (length values).
Proof.
  revert s buf xs cap cs.
  induction values as [| v values IH]; intros s buf xs cap cs Hr He.
  - by injection He as <- _.
  - cbn [push_backs length capacities] in *. unfold bind at 1 in He.
    destruct (Vector_PushBack this v s) as [o s1] eqn:Hp.
    pose proof (Vector_PushBack_outcome _ _ _ _ _ _ _ _ Hr Hp) as H.
    destruct o as [[] | |]; [| done | done].
    destruct H as (buf' & xs' & Hlen' & Hr').
    rewrite (bind_Ok _ _ _ _ _ (Vector_Capacity_eq _ _ _ _ _ Hr')) in He.
    unfold bind at 1 in He.
    destruct (push_backs this values s1) as [[cs' | |] s2] eqn:Hrest;
      [| done | done].
    injection He as <- <-. rewrite growth_max in *.
    f_equal. rewrite <- Hlen'. by eapply IH.
Qed.

(** A run of [PushBack] of copies of live objects outside the vector
    returns, for a payload that does not throw. *)
Lemma push_backs_returns values s this buf xs cap :
  nothrow → represents s this buf xs cap →
  Forall (λ v, ∃ src x, v = ByCopy src ∧ live_outside s buf src x) values →
  ∃ cs s', push_backs this values s = (Ok cs, s').
Proof.
  intros Hnt. revert s buf xs cap.
  induction values as [| v values IH]; intros s buf xs cap Hr Hvs.
  - by eexists _, _.
  - apply Forall_cons in Hvs as [(src & x & -> & Hsrc) Hvs].
    destruct (Vector_PushBack_returns _ _ _ _ _ _ _ Hnt Hr Hsrc)
      as (s1 & buf1 & Hp & Hr1 & Hframe).
    destruct (IH s1 buf1 _ _ Hr1) as (cs & s2 & Hrest).
    { eapply Forall_impl; [exact Hvs |]. cbn beta.
      intros v (src' & x' & -> & H'). eauto. }
    cbn [push_backs]. unfold bind at 1. rewrite Hp.
    rewrite (bind_Ok _ _ _ _ _ (Vector_Capacity_eq _ _ _ _ _ Hr1)).
    unfold bind at 1. rewrite Hrest. by eexists _, _.
Qed.

Lemma Vector_default_ctor_eval s this :
  Vector_default_ctor this s
  = (Ok (), set_objs (<[this := {| data_ := RawMemory_default; size_ := 0 |}]>
                        (objs s)) s) ∧
  represents
    (set_objs (<[this := {| data_ := RawMemory_default; size_ := 0 |}]>
                 (objs s)) s) this nullptr [] 0.
Proof.
  split; [done |]. split; [| done]. rewrite objs_set_objs.
  apply lookup_insert_eq.
Qed.

Lemma load_live_outside s src x :
  load src s = (Ok x, s) → ∀ v, live_outside (set_objs v s) nullptr src x.
Proof.
  intros Hl v.
  destruct (load_cases src s)
    as [[Ha _] | (a & blk & x' & Hb & Hh & Hi & Hl' & _)]; [congruence |].
  rewrite Hl' in Hl. injection Hl as ->. by exists a, blk.
Qed.

End Sequences.

(** * What a call leaves of the vector and of another *)

Section Frames.
Context `{P : Payload}.

Lemma represents_other_updated s this buf cap xs other obuf oxs ocap :
  this ≠ other → separate buf obuf →
  represents s other obuf oxs ocap →
  represents (updated this buf cap xs s) other obuf oxs ocap.
Proof.
  intros Hne Hsep (Ho & Hlen & Hb). unfold updated.
  split; [| split; [done |] ].
  - by rewrite objs_set_objs, lookup_insert_ne by done.
  - apply block_is_set_objs. by apply block_is_set_other.
Qed.

Lemma represents_other_set_block s buf blk other obuf oxs ocap :
  separate buf obuf →
  represents s other obuf oxs ocap →
  represents (set_block buf blk s) other obuf oxs ocap.
Proof.
  intros Hsep (Ho & Hlen & Hb).
  split; [by rewrite objs_set_block |]. split; [done |].
  by apply block_is_set_other.
Qed.

Lemma represents_other_relocated s this buf n xs other obuf oxs ocap :
  this ≠ other → separate buf obuf →
  represents s other obuf oxs ocap →
  represents (relocated this buf n xs s) other obuf oxs ocap.
Proof.
  intros Hne Hsep (Ho & Hlen & Hb). unfold relocated.
  split; [| split; [done |] ].
  - by rewrite objs_set_objs, lookup_insert_ne by done.
  - apply block_is_set_objs. apply block_is_free_other; [done |].
    apply block_is_set_other; [| by apply block_is_alloc].
    apply separate_sym. by eapply separate_new.
Qed.

Lemma assign_all_nothrow ys xs w : nothrow → (assign_all ys xs w).1.2 = true.
Proof.
  intros (_ & _ & Ha). revert xs w.
  induction ys as [| y ys IH]; intros [| x xs] w; try done.
  cbn [assign_all]. pose proof (Ha y x w) as Hx.
  destruct (copy_assign y x w) as [[] w']; [| done].
  specialize (IH xs w'). by destruct (assign_all ys xs w') as [[l b] w''].
Qed.

(** What copy assignment from a distinct vector leaves. *)
Lemma copy_assigned_spec s this rhs buf rbuf xs ys cap rcap :
  this ≠ rhs → separate buf rbuf →
  represents s this buf xs cap → represents s rhs rbuf ys rcap →
  match copy_assigned this buf cap xs ys s with
  | (Ok _, s') =>
      (∃ buf', represents s' this buf' ys
                 (if decide (cap < length ys) then length ys else cap) ∧
               (length ys ≤ cap → buf' = buf)) ∧
      represents s' rhs rbuf ys rcap
  | (Throw, s') =>
      (∃ xs', length xs' = length xs ∧ represents s' this buf xs' cap) ∧
      represents s' rhs rbuf ys rcap ∧
      (cap < length ys → ∃ w, s' = set_env w s)
  | (Abort, _) => False
  end.
Proof.
  intros Hne Hsep Hr Hrr. pose proof Hr as (Ho & Hlen & Hb).
  unfold copy_assigned. destruct (decide (cap < length ys)) as [Hcap | Hcap].
  - destruct (copy_all ys (env s)) as [[] w]; cbn [fst snd].
    + split.
      * eexists. split; [| lia]. apply represents_set_env.
        eapply represents_relocated; [done | lia | lia].
      * apply represents_set_env. by apply represents_other_relocated.
    + split; [exists xs; split; [done | by apply represents_set_env] |].
      split; [by apply represents_set_env | by eauto].
  - assert (Hpl : length (take (length ys) xs) = length (take (length xs) ys))
      by (rewrite !length_take; lia).
    pose proof (assign_all_length _ _ (env s) Hpl) as Hal.
    destruct (assign_all (take (length ys) xs) (take (length xs) ys) (env s))
      as [[l b] w]. cbn [fst snd] in *.
    assert (Hup : represents (updated this buf cap ys s) this buf ys cap).
    { eapply represents_updated; [done | by apply length_slots_of | lia]. }
    assert (Hset : ∀ xs', length xs' = length xs →
              represents (set_block buf (slots_of xs' cap) s) this buf xs' cap).
    { intros xs' Hl. split; [by rewrite objs_set_block, Hl |].
      split; [lia |]. eapply block_is_set; [done |].
      rewrite !length_slots_of; lia. }
    destruct b; cbn [negb].
    + destruct (decide (length ys < length xs)) as [Hlt | Hge].
      * split; [exists buf; split; [by apply represents_set_env | done] |].
        apply represents_set_env. by apply represents_other_updated.
      * destruct (copy_all (drop (length xs) ys) w) as [[] w2]; cbn [fst snd].
        -- split; [exists buf; split; [by apply represents_set_env | done] |].
           apply represents_set_env. by apply represents_other_updated.
        -- split; [| split; [| lia] ].
           ++ eexists. split; [| apply represents_set_env, Hset];
                rewrite length_take; lia.
           ++ apply represents_set_env. by apply represents_other_set_block.
    + split; [| split; [| lia] ].
      * eexists. split; [| apply represents_set_env, Hset];
          rewrite length_app, Hal, length_take, length_drop; lia.
      * apply represents_set_env. by apply represents_other_set_block.
Qed.

Lemma copy_assigned_nothrow s this buf xs ys cap :
  nothrow → is_Ok (copy_assigned this buf cap xs ys s).1 = true.
Proof.
  intros Hnt. unfold copy_assigned.
  destruct (decide (cap < length ys)).
  - by rewrite copy_all_nothrow.
  - rewrite assign_all_nothrow by done. cbn [negb].
    destruct (decide _); [done |]. by rewrite copy_all_nothrow.
Qed.

(** What is observed after [emplaced] depends on the sequence, the
    capacity and the environment only. *)
Lemma emplaced_observed s1 this buf cap index x xs1 :
  represents s1 this buf xs1 cap → index ≤ length xs1 →
  let r := emplaced this buf cap index x xs1 s1 in
  let ok := bool_decide (length xs1 < cap) || relocate_by_move
            || (copy_all xs1 (env s1)).1 in
  is_Ok r.1 = ok ∧ is_Throw r.1 = negb ok ∧
  Vector_elems r.2 this = Some (if ok then inserted index x xs1 else xs1) ∧
  Vector_size r.2 this
  = Some (if ok then S (length xs1) else length xs1) ∧
  Vector_capacity r.2 this
  = Some (if ok then if decide (length xs1 < cap) then cap else growth cap
          else cap).
Proof.
  intros Hr Hidx. cbv zeta.
  pose proof (emplaced_spec _ _ _ _ _ _ x Hr Hidx) as Hs.
  assert (Hobs : ∀ s' buf' xs' cap', represents s' this buf' xs' cap' →
            Vector_elems s' this = Some xs' ∧
            Vector_size s' this = Some (length xs') ∧
            Vector_capacity s' this = Some cap').
  { intros s' buf' xs' cap' Hr'. split; [by eapply represents_elems |].
    split; [by eapply represents_size | by eapply represents_capacity]. }
  unfold emplaced in *.
  destruct (decide (length xs1 < cap)) as [Hroom | Hfull].
  - rewrite bool_decide_eq_true_2 by done. cbn [orb fst snd negb is_Ok is_Throw].
    destruct Hs as (buf' & _ & Hr'). split; [done |]. split; [done |].
    rewrite <- (inserted_length index x xs1). by eapply Hobs.
  - rewrite bool_decide_eq_false_2 by done. cbn [orb].
    destruct relocate_by_move; cbn [orb fst snd negb is_Ok is_Throw].
    + destruct Hs as (buf' & _ & Hr'). split; [done |]. split; [done |].
      rewrite <- (inserted_length index x xs1). by eapply Hobs.
    + destruct (copy_all xs1 (env s1)) as [[] w];
        cbn [orb fst snd negb is_Ok is_Throw].
      * destruct Hs as (buf' & _ & Hr'). split; [done |]. split; [done |].
        rewrite <- (inserted_length index x xs1). by eapply Hobs.
      * split; [done |]. split; [done |].
        eapply Hobs. by apply represents_set_env.
Qed.

(** The same vector in a heap with one more block. *)
Lemma represents_extra_block s this buf xs cap a blk :
  heap s !! a = None → represents s this buf xs cap →
  represents (set_heap (<[a := blk]> (heap s)) s) this buf xs cap.
Proof.
  intros Ha (Ho & Hlen & Hoff & Hb). split; [done |]. split; [done |].
  split; [done |]. destruct (block buf) as [b |]; [| done].
  cbn [heap set_heap]. rewrite lookup_insert_ne; [done | congruence].
Qed.

Lemma erased_inserted index (x : T) xs :
  index ≤ length xs → erased index (inserted index x xs) = xs.
Proof.
  intros Hidx. unfold erased, inserted.
  assert (Hl : length (take index xs) = index) by (rewrite length_take; lia).
  rewrite take_app_length' by done.
  rewrite (cons_middle x (take index xs) (drop index xs)), app_assoc.
  rewrite (drop_app_length' (take index xs ++ [x]) (drop index xs) (S index))
    by (rewrite length_app; cbn [length]; lia).
  apply take_drop.
Qed.

Lemma shift_copy_returns y xs w :
  (∀ y x w, (copy_assign y x w).1 = true) → (shift_copy y xs w).1.2 = true.
Proof.
  intros Ha. revert y w.
  induction xs as [| x xs IH]; intros y w; [done |].
  cbn [shift_copy]. pose proof (Ha y x w) as Hx.
  destruct (copy_assign y x w) as [[] w']; [| done].
  specialize (IH x w'). by destruct (shift_copy x xs w') as [[l b] w''].
Qed.

(** [Insert] of a designated value is [emplaced], unless the copy of the
    value throws. *)
Lemma Vector_Insert_designated s this buf xs cap index value x :
  represents s this buf xs cap → index ≤ length xs →
  designates s buf value x →
  ∃ s1, represents s1 this buf xs cap ∧
        (Vector_Insert this (ptr_add buf index) value s
         = emplaced this buf cap index x xs s1 ∨
         Vector_Insert this (ptr_add buf index) value s = (Throw, s1) ∧
         (copy_construct x (env s)).1 = false).
Proof.
  intros Hr Hidx Hv. unfold Vector_Insert. destruct value as [src | src].
  - cbn [designates] in Hv.
    rewrite (Vector_Emplace_copy _ _ _ _ _ _ _ _ Hr Hidx Hv).
    exists (set_env (copy_construct x (env s)).2 s).
    split; [by apply represents_set_env |].
    destruct (copy_construct x (env s)) as [[] w]; cbn [fst snd]; auto.
  - destruct Hv as (a & blk & Ha & Hne & Hh & Hi).
    destruct src as [b i]. cbn [block off] in *. subst b.
    assert (Hp : block_is s (Ptr (Some a) 0) blk) by done.
    assert (Hsep : separate (Ptr (Some a) 0) buf).
    { intros c [= <-]. done. }
    pose proof (Vector_Emplace_move _ _ _ _ _ index _ _ _ _ Hr Hidx Hp Hi Hsep)
      as He.
    eexists. split; [| left; exact He].
    by apply represents_other_set_block.
Qed.

(** [Erase] returns when the position is that of an element and the
    payload does not throw. *)
Lemma Vector_Erase_returns s this buf xs cap index :
  nothrow → represents s this buf xs cap → index < length xs →
  ∃ s', Vector_Erase this (ptr_add buf index) s = (Ok (ptr_add buf index), s').
Proof.
  intros Hnt Hr Hidx.
  destruct (lookup_lt_is_Some_2 xs index Hidx) as [y Hy].
  destruct (erased_split _ _ _ Hy) as [Hxs HA].
  rewrite Hxs in Hr.
  pose proof (Vector_Erase_eval _ _ _ _ _ _ _ Hr) as He. rewrite HA in He.
  rewrite He. destruct relocate_by_move; [by eexists |].
  rewrite shift_copy_returns by apply Hnt. by eexists.
Qed.

(** [Insert] of a designated value is [emplaced], unless it is a copy
    that throws. *)
Lemma Vector_Insert_of_designated s this buf xs cap index value x :
  represents s this buf xs cap → index ≤ length xs →
  designates s buf value x →
  ∃ s1, represents s1 this buf xs cap ∧ env s1 = env (T_ctor value s).2 ∧
        (∀ src y, live_outside s buf src y →
           (∀ v, value = ByMove v → v ≠ src) →
           live_outside s1 buf src y) ∧
        (Vector_Insert this (ptr_add buf index) value s
         = emplaced this buf cap index x xs s1 ∨
         Vector_Insert this (ptr_add buf index) value s = (Throw, s1) ∧
         ∃ src, value = ByCopy src ∧ (copy_construct x (env s)).1 = false).
Proof.
  intros Hr Hidx Hv. unfold Vector_Insert. destruct value as [src | src].
  - cbn [designates] in Hv.
    rewrite (Vector_Emplace_copy _ _ _ _ _ _ _ _ Hr Hidx Hv).
    exists (set_env (copy_construct x (env s)).2 s).
    split; [by apply represents_set_env |].
    split.
    { cbn [T_ctor]. rewrite (bind_Ok _ _ _ _ _ Hv). unfold bind.
      rewrite attempt_eq. by destruct (copy_construct x (env s)) as [[] w]. }
    split; [by intros |].
    destruct (copy_construct x (env s)) as [[] w]; cbn [fst snd]; eauto.
  - destruct Hv as (a & blk & Ha & Hne & Hh & Hi).
    destruct src as [b i]. cbn [block off] in *. subst b.
    assert (Hp : block_is s (Ptr (Some a) 0) blk) by done.
    assert (Hsep : separate (Ptr (Some a) 0) buf).
    { intros c [= <-]. done. }
    pose proof (Vector_Emplace_move _ _ _ _ _ index _ _ _ _ Hr Hidx Hp Hi Hsep)
      as He.
    eexists. split; [by apply represents_other_set_block |].
    split.
    { cbn [T_ctor]. rewrite (bind_Ok _ _ _ _ _ (load_Ok _ _ _ _ _ Hh Hi)).
      by rewrite (bind_Ok _ _ _ _ _ (store_Ok _ _ _ _ _ _ Hh Hi)). }
    split; [| left; exact He].
    intros [b o] y (a' & blk' & Ha' & Hne' & Hh' & Hi') Hdiff.
    cbn [block off] in *. subst b.
    unfold live_outside, set_block. cbn [block off heap set_heap].
    destruct (decide (a' = a)) as [-> | Hna].
    + rewrite Hh in Hh'. injection Hh' as <-.
      exists a, (<[i := Live (moved_from x)]> blk).
      split; [done |]. split; [done |].
      split; [apply lookup_insert_eq |].
      rewrite list_lookup_insert_ne; [done |].
      intros ->. by apply (Hdiff (Ptr (Some a) o) eq_refl).
    + exists a', blk'. split; [done |]. split; [done |].
      split; [by rewrite lookup_insert_ne | done].
Qed.

End Frames.

(** * The invariant, call by call *)

Section Invariant.
Context `{P : Payload}.

(** The invariant reads one object and the heap. *)
Lemma invariant_transfer s s' a b :
  heap s' = heap s → objs s' !! a = objs s !! b →
  Vector_invariant s b → Vector_invariant s' a.
Proof.
  intros Hh Ho (v & Hv & H). exists v. rewrite Ho, Hh. by split.
Qed.

Lemma invariant_empty s this :
  objs s !! this = Some {| data_ := RawMemory_default; size_ := 0 |} →
  Vector_invariant s this.
Proof. intros Ho. eexists. split; [exact Ho |]. done. Qed.

Lemma represents_other_constructed s this xs other obuf oxs ocap :
  this ≠ other →
  represents s other obuf oxs ocap →
  represents (constructed this xs s) other obuf oxs ocap.
Proof.
  intros Hne (Ho & Hlen & Hb). unfold constructed.
  split; [| split; [done |] ].
  - by rewrite objs_set_objs, lookup_insert_ne by done.
  - apply block_is_set_objs.
    apply block_is_set_other; [| by apply block_is_alloc].
    apply separate_sym. by eapply separate_new.
Qed.

Lemma unit_outcome {A} (m : M A) s o s' (Q : state → Prop) (R : state → Prop) :
  (m >> ret ()) s = (o, s') →
  (∀ a s1, m s = (Ok a, s1) → Q s1) →
  (∀ s1, m s = (Throw, s1) → R s1) →
  match o with Ok _ => Q s' | Throw => R s' | Abort => True end.
Proof.
  intros He HQ HR. destruct (bind_ret_unit_outcome _ _ _ _ He) as (o1 & He1 & Ho1).
  destruct o1; subst o; eauto.
Qed.

(** A call on a constructed vector that does not end the program leaves a
    vector behind, unless it is the destructor. *)
Lemma run_call_this s this buf xs cap c o s' :
  is_ctor c = false →
  represents s this buf xs cap →
  (∀ other, other_operand c = Some other →
     Vector_invariant s other ∧ owns_apart s this other) →
  run_call this c s = (o, s') →
  match o with
  | Abort => True
  | _ => if is_dtor c then objs s' !! this = None else Vector_invariant s' this
  end.
Proof.
  intros Hc Hr Hother He. pose proof Hr as (Ho & Hlen & Hb).
  pose proof (represents_invariant _ _ _ _ _ Hr) as Hinv.
  assert (Hsame : ∀ o, s' = s →
            match o : outcome () with
            | Abort => True
            | _ => Vector_invariant s' this
            end).
  { intros [] ->; done. }
  destruct c; try discriminate Hc; cbn [run_call is_dtor] in *.
  - (* copy assignment *)
    destruct (decide (this = rhs)) as [<- | Hne].
    { rewrite Vector_copy_assign_self in He. injection He as <- <-. done. }
    destruct (Hother rhs eq_refl) as [Hri Hap].
    destruct (invariant_represents _ _ Hri) as (rbuf & ys & rcap & Hrr).
    pose proof Hrr as (Hor & _).
    pose proof (Hap _ _ Hne Ho Hor) as Hsep. cbn [data_ buffer_] in Hsep.
    pose proof (copy_assigned_spec _ _ _ _ _ _ _ _ _ Hne Hsep Hr Hrr) as Hs.
    rewrite <- (Vector_copy_assign_eval s this rhs buf rbuf xs ys cap rcap
                  Hne Hr Hrr Hsep), He in Hs.
    destruct o as [[] | |]; [| | done].
    + destruct Hs as [(buf' & Hr' & _) _]. by eapply represents_invariant.
    + destruct Hs as [(xs' & _ & Hr') _]. by eapply represents_invariant.
  - (* move assignment *)
    destruct (decide (this = rhs)) as [<- | Hne].
    { rewrite Vector_move_assign_self in He. injection He as <- <-. done. }
    destruct (Hother rhs eq_refl) as [Hri _]. pose proof Hri as (r & Hor & _).
    rewrite (Vector_move_assign_eval _ _ _ _ _ Hne Ho Hor) in He.
    injection He as <- <-.
    apply (invariant_transfer s _ this rhs); [done | | exact Hri].
    by rewrite objs_set_objs, lookup_insert_ne, lookup_insert_eq, Hor by done.
  - (* destructor *)
    rewrite (Vector_dtor_eval _ _ _ _ _ Hr) in He. injection He as <- <-.
    rewrite objs_set_objs. apply lookup_delete_eq.
  - (* begin *)
    rewrite (bind_Ok _ _ _ _ _ (Vector_begin_eq _ _ _ Ho)) in He.
    injection He as <- <-. done.
  - (* end *)
    rewrite (bind_Ok _ _ _ _ _ (Vector_end_eq _ _ _ Ho)) in He.
    injection He as <- <-. done.
  - (* operator[] *)
    unfold bind in He. rewrite (Vector_index_eval _ _ _ _ _ _ Hr) in He.
    destruct (decide _); injection He as <- <-; done.
  - (* Size *)
    unfold Vector_Size in He. rewrite bind_assoc in He.
    rewrite (bind_Ok _ _ _ _ _ (read_Ok _ _ _ Ho)) in He.
    injection He as <- <-. done.
  - (* Capacity *)
    rewrite (bind_Ok _ _ _ _ _ (Vector_Capacity_eq _ _ _ _ _ Hr)) in He.
    injection He as <- <-. done.
  - (* Swap *)
    destruct (decide (this = other)) as [<- | Hne].
    { rewrite (Vector_Swap_self _ _ _ Ho) in He. injection He as <- <-. done. }
    destruct (Hother other eq_refl) as [Hri _]. pose proof Hri as (r & Hor & _).
    rewrite (Vector_Swap_eval _ _ _ _ _ Hne Ho Hor) in He.
    injection He as <- <-.
    apply (invariant_transfer s _ this other); [done | | exact Hri].
    by rewrite objs_set_objs, lookup_insert_ne, lookup_insert_eq, Hor by done.
  - (* Reserve *)
    pose proof (Vector_Reserve_represents _ _ _ _ _ _ _ _ Hr He) as Hs.
    destruct o as [[] | |]; [| | done].
    + destruct Hs as (buf' & cap' & Hr' & _). by eapply represents_invariant.
    + destruct Hs as [w ->]. done.
  - (* Resize *)
    destruct (lt_eq_lt_dec new_size (length xs)) as [ [Hlt | ->] | Hgt].
    + rewrite (Vector_Resize_shrink _ _ _ _ _ _ Hr Hlt) in He.
      injection He as <- <-. eapply represents_invariant.
      eapply represents_updated; [done | by apply length_slots_of |].
      rewrite length_take. lia.
    + rewrite (Vector_Resize_same _ _ _ _ _ Hr) in He.
      injection He as <- <-. done.
    + pose proof (Vector_Resize_grow _ _ _ _ _ _ _ _ Hr Hgt He) as Hs.
      destruct o as [[] | |]; [| | done];
        destruct Hs as (buf' & cap' & Hr'); by eapply represents_invariant.
  - (* PushBack *)
    pose proof (Vector_PushBack_outcome _ _ _ _ _ _ _ _ Hr He) as Hs.
    destruct o as [[] | |]; [| | done].
    + destruct Hs as (buf' & xs' & _ & Hr'). by eapply represents_invariant.
    + destruct Hs as (xs' & _ & Hr'). by eapply represents_invariant.
  - (* EmplaceBack *)
    eapply (unit_outcome _ _ _ _ (λ s1, Vector_invariant s1 this)
              (λ s1, Vector_invariant s1 this)) in He.
    + by destruct o.
    + intros p s1 H1.
      pose proof (Vector_EmplaceBack_outcome _ _ _ _ _ _ _ _ Hr H1)
        as (buf' & xs' & _ & Hr'). by eapply represents_invariant.
    + intros s1 H1.
      pose proof (Vector_EmplaceBack_outcome _ _ _ _ _ _ _ _ Hr H1)
        as (xs' & _ & Hr'). by eapply represents_invariant.
  - (* PopBack *)
    destruct (decide (xs = [])) as [-> | Hxs].
    + rewrite (Vector_PopBack_empty _ _ _ _ Hr) in He.
      by injection He as <- <-.
    + destruct (exists_last Hxs) as (l & x & ->).
      rewrite (Vector_PopBack_eval _ _ _ _ _ _ Hr) in He.
      injection He as <- <-. eapply represents_invariant.
      eapply represents_updated; [done | by apply length_slots_of |].
      revert Hlen. rewrite length_app. lia.
  - (* Insert *)
    eapply (unit_outcome _ _ _ _ (λ s1, Vector_invariant s1 this)
              (λ s1, Vector_invariant s1 this)) in He.
    + by destruct o.
    + intros p s1 H1.
      pose proof (Vector_Emplace_outcome _ _ _ _ _ _ _ _ _ Hr H1)
        as (buf' & xs' & _ & _ & Hr'). by eapply represents_invariant.
    + intros s1 H1.
      pose proof (Vector_Emplace_outcome _ _ _ _ _ _ _ _ _ Hr H1)
        as (xs' & _ & Hr'). by eapply represents_invariant.
  - (* Emplace *)
    eapply (unit_outcome _ _ _ _ (λ s1, Vector_invariant s1 this)
              (λ s1, Vector_invariant s1 this)) in He.
    + by destruct o.
    + intros p s1 H1.
      pose proof (Vector_Emplace_outcome _ _ _ _ _ _ _ _ _ Hr H1)
        as (buf' & xs' & _ & _ & Hr'). by eapply represents_invariant.
    + intros s1 H1.
      pose proof (Vector_Emplace_outcome _ _ _ _ _ _ _ _ _ Hr H1)
        as (xs' & _ & Hr'). by eapply represents_invariant.
  - (* Erase *)
    eapply (unit_outcome _ _ _ _ (λ s1, Vector_invariant s1 this)
              (λ s1, Vector_invariant s1 this)) in He.
    + by destruct o.
    + intros p s1 H1.
      pose proof (Vector_Erase_outcome _ _ _ _ _ _ _ _ Hr H1)
        as (_ & _ & Hr'). by eapply represents_invariant.
    + intros s1 H1.
      pose proof (Vector_Erase_outcome _ _ _ _ _ _ _ _ Hr H1)
        as (xs' & _ & Hr'). by eapply represents_invariant.
Qed.

(** The other vector such a call works on is left a vector. *)
Lemma run_call_other s this buf xs cap c other o s' :
  is_ctor c = false →
  represents s this buf xs cap →
  other_operand c = Some other →
  Vector_invariant s other → owns_apart s this other →
  run_call this c s = (o, s') →
  match o with
  | Abort => True
  | _ => Vector_invariant s' other
  end.
Proof.
  intros Hc Hr Hop Hri Hap He. pose proof Hr as (Ho & Hlen & Hb).
  pose proof Hri as (r & Hor & _).
  destruct c; try discriminate Hc; try discriminate Hop;
    cbn [run_call other_operand] in *; injection Hop as ->.
  - (* copy assignment *)
    destruct (decide (this = other)) as [<- | Hne].
    { rewrite Vector_copy_assign_self in He. by injection He as <- <-. }
    destruct (invariant_represents _ _ Hri) as (rbuf & ys & rcap & Hrr).
    pose proof Hrr as (Hor' & _).
    pose proof (Hap _ _ Hne Ho Hor') as Hsep. cbn [data_ buffer_] in Hsep.
    pose proof (copy_assigned_spec _ _ _ _ _ _ _ _ _ Hne Hsep Hr Hrr) as Hs.
    rewrite <- (Vector_copy_assign_eval s this other buf rbuf xs ys cap rcap
                  Hne Hr Hrr Hsep), He in Hs.
    destruct o as [[] | |]; [| | done].
    + destruct Hs as [_ Hr']. by eapply represents_invariant.
    + destruct Hs as (_ & Hr' & _). by eapply represents_invariant.
  - (* move assignment *)
    destruct (decide (this = other)) as [<- | Hne].
    { rewrite Vector_move_assign_self in He. by injection He as <- <-. }
    rewrite (Vector_move_assign_eval _ _ _ _ _ Hne Ho Hor) in He.
    injection He as <- <-.
    apply (invariant_transfer s _ other this);
      [done | | by eapply represents_invariant].
    by rewrite objs_set_objs, lookup_insert_eq, Ho.
  - (* Swap *)
    destruct (decide (this = other)) as [<- | Hne].
    { rewrite (Vector_Swap_self _ _ _ Ho) in He. by injection He as <- <-. }
    rewrite (Vector_Swap_eval _ _ _ _ _ Hne Ho Hor) in He.
    injection He as <- <-.
    apply (invariant_transfer s _ other this);
      [done | | by eapply represents_invariant].
    by rewrite objs_set_objs, lookup_insert_eq, Ho.
Qed.

(** A constructor that returns leaves a vector; one that throws leaves no
    object.  The vector it copies or moves from is left a vector. *)
Lemma run_call_ctor s this c o s' :
  is_ctor c = true →
  objs s !! this = None →
  (∀ other, other_operand c = Some other → Vector_invariant s other) →
  run_call this c s = (o, s') →
  match o with
  | Ok _ => Vector_invariant s' this
  | Throw => objs s' !! this = None
  | Abort => True
  end ∧
  match o with
  | Abort => True
  | _ => ∀ other, other_operand c = Some other → Vector_invariant s' other
  end.
Proof.
  intros Hc Hnone Hother He.
  destruct c; try discriminate Hc; cbn [run_call other_operand] in *.
  - (* Vector() *)
    destruct (Vector_default_ctor_eval s this) as [Hd Hr]. rewrite Hd in He.
    injection He as <- <-. split; [by eapply represents_invariant | done].
  - (* Vector(size) *)
    rewrite Vector_sized_ctor_eval in He.
    destruct (value_all size (env s)) as [[] w]; cbn [fst snd] in He;
      injection He as <- <-; (split; [| done]).
    + eapply represents_invariant. apply represents_set_env.
      pose proof (represents_constructed s this (replicate size value_init))
        as Hr.
      exact Hr.
    + rewrite objs_set_env, objs_set_objs. apply lookup_delete_eq.
  - (* Vector(const Vector&) *)
    pose proof (Hother other eq_refl) as Hri.
    destruct (invariant_represents _ _ Hri) as (obuf & ys & ocap & Hrr).
    pose proof Hrr as (Hor & _).
    assert (Hne : this ≠ other) by (intros ->; congruence).
    rewrite (Vector_copy_ctor_eval _ _ _ _ _ _ Hne Hrr) in He.
    destruct (copy_all ys (env s)) as [[] w]; cbn [fst snd] in He;
      injection He as <- <-.
    + split.
      * eapply represents_invariant. apply represents_set_env.
        apply represents_constructed.
      * intros ? [= <-]. eapply represents_invariant.
        apply represents_set_env. by apply represents_other_constructed.
    + split; [rewrite objs_set_env, objs_set_objs; apply lookup_delete_eq |].
      intros ? [= <-]. apply (invariant_transfer s _ other other);
        [done | | done].
      by rewrite objs_set_env, objs_set_objs, lookup_delete_ne.
  - (* Vector(Vector&&) *)
    pose proof (Hother other eq_refl) as Hri. pose proof Hri as (r & Hor & _).
    assert (Hne : this ≠ other) by (intros ->; congruence).
    rewrite (Vector_move_ctor_eval _ _ _ _ Hne Hor) in He.
    injection He as <- <-. split.
    + apply (invariant_transfer s _ this other); [done | | done].
      by rewrite objs_set_objs, lookup_insert_eq, Hor.
    + intros ? [= <-]. apply invariant_empty.
      rewrite objs_set_objs, lookup_insert_ne by done. apply lookup_insert_eq.
Qed.

(** ** Calls within their preconditions *)

Lemma T_ctor_live args s x :
  load (args_src args) s = (Ok x, s) → is_Abort (T_ctor args s).1 = false.
Proof.
  intros Hl. destruct args as [src | src]; cbn [args_src T_ctor] in *.
  - rewrite (bind_Ok _ _ _ _ _ Hl). unfold bind. rewrite attempt_eq.
    by destruct (copy_construct x (env s)) as [[] w].
  - destruct (load_cases src s)
      as [[Ha _] | (a & blk & x' & Hb & Hh & Hi & Hl' & _)]; [congruence |].
    destruct src as [b i]. cbn [block off] in *. subst b.
    rewrite (bind_Ok _ _ _ _ _ Hl').
    by rewrite (bind_Ok _ _ _ _ _ (store_Ok _ _ _ _ _ _ Hh Hi)).
Qed.

Lemma Vector_Emplace_valid s this buf xs cap pos args x :
  represents s this buf xs cap →
  block pos = block buf → off pos ≤ length xs →
  load (args_src args) s = (Ok x, s) →
  is_Abort (Vector_Emplace this pos args s).1 = false.
Proof.
  intros Hr Hblock Hoff Hl. pose proof Hr as (Ho & Hlen & Hb).
  rewrite (position_ptr_add _ _ Hblock (proj1 Hb)).
  pose proof (T_ctor_live _ _ _ Hl) as Hlive.
  destruct (T_ctor args s) as [o1 s1] eqn:Hc.
  pose proof (T_ctor_result _ _ _ _ Hc) as Hres.
  destruct o1 as [x' | |]; [| | done].
  - destruct Hres as (Hca & Hobjs & Hdom & Hshape & _).
    destruct (Hshape _ _ Hb) as (blk1 & Hb1 & Hs).
    destruct (shape_slots_of _ _ _ Hs) as (xs1 & Hlen1 & ->).
    rewrite (Vector_Emplace_eval s s1 this buf xs xs1 cap args x') by done.
    assert (Hr1 : represents s1 this buf xs1 cap).
    { split; [by rewrite Hobjs, Hlen1 |]. split; [lia | done]. }
    pose proof (emplaced_spec s1 this buf xs1 cap (off pos) x' Hr1
                  ltac:(lia)) as Hs'.
    by destruct (emplaced this buf cap (off pos) x' xs1 s1) as [[] ?].
  - destruct Hres as (Hca & Hobjs & Hdom & _ & Hw).
    by rewrite (Vector_Emplace_ctor_throws _ _ _ _ _ _ _ _ Hr Hoff Hc Hca Hdom).
Qed.

Lemma unit_no_abort {A} (m : M A) s :
  is_Abort (m s).1 = false → is_Abort ((m >> ret ()) s).1 = false.
Proof. unfold bind. by destruct (m s) as [[] ?]. Qed.

Lemma valid_position_represents s this buf xs cap pos slack :
  represents s this buf xs cap → valid_position s this pos slack →
  block pos = block buf ∧ off pos < length xs + slack.
Proof.
  intros Hr (buf' & n & Hbuf & Hn & Hblock & Hoff).
  rewrite (represents_buffer _ _ _ _ _ Hr) in Hbuf.
  rewrite (represents_size _ _ _ _ _ Hr) in Hn.
  injection Hbuf as <-. injection Hn as <-. done.
Qed.

(** A call within its preconditions does not end the program. *)
Lemma run_call_valid s this buf xs cap c :
  noexcept_moves →
  is_ctor c = false →
  represents s this buf xs cap →
  (∀ other, other_operand c = Some other →
     Vector_invariant s other ∧ owns_apart s this other) →
  valid_call s this c →
  is_Abort (run_call this c s).1 = false.
Proof.
  intros [Hmc Hma] Hc Hr Hother Hv. pose proof Hr as (Ho & Hlen & Hb).
  assert (Hpol : relocate_by_move = true)
    by (unfold relocate_by_move; by rewrite Hmc).
  destruct c; try discriminate Hc; cbn [run_call valid_call] in *.
  - (* copy assignment *)
    destruct (decide (this = rhs)) as [<- | Hne].
    { by rewrite Vector_copy_assign_self. }
    destruct (Hother rhs eq_refl) as [Hri Hap].
    destruct (invariant_represents _ _ Hri) as (rbuf & ys & rcap & Hrr).
    pose proof Hrr as (Hor & _).
    pose proof (Hap _ _ Hne Ho Hor) as Hsep. cbn [data_ buffer_] in Hsep.
    pose proof (copy_assigned_spec _ _ _ _ _ _ _ _ _ Hne Hsep Hr Hrr) as Hs.
    rewrite (Vector_copy_assign_eval s this rhs buf rbuf xs ys cap rcap
               Hne Hr Hrr Hsep).
    by destruct (copy_assigned this buf cap xs ys s) as [[] ?].
  - (* move assignment *)
    destruct (decide (this = rhs)) as [<- | Hne].
    { by rewrite Vector_move_assign_self. }
    destruct (Hother rhs eq_refl) as [(r & Hor & _) _].
    by rewrite (Vector_move_assign_eval _ _ _ _ _ Hne Ho Hor).
  - by rewrite (Vector_dtor_eval _ _ _ _ _ Hr).
  - by rewrite (bind_Ok _ _ _ _ _ (Vector_begin_eq _ _ _ Ho)).
  - by rewrite (bind_Ok _ _ _ _ _ (Vector_end_eq _ _ _ Ho)).
  - (* operator[] *)
    destruct Hv as (n & Hn & Hi).
    rewrite (represents_size _ _ _ _ _ Hr) in Hn. injection Hn as <-.
    unfold bind. rewrite (Vector_index_eval _ _ _ _ _ _ Hr).
    by rewrite decide_True by done.
  - unfold Vector_Size. rewrite bind_assoc.
    by rewrite (bind_Ok _ _ _ _ _ (read_Ok _ _ _ Ho)).
  - by rewrite (bind_Ok _ _ _ _ _ (Vector_Capacity_eq _ _ _ _ _ Hr)).
  - (* Swap *)
    destruct (decide (this = other)) as [<- | Hne].
    { by rewrite (Vector_Swap_self _ _ _ Ho). }
    destruct (Hother other eq_refl) as [(r & Hor & _) _].
    by rewrite (Vector_Swap_eval _ _ _ _ _ Hne Ho Hor).
  - (* Reserve *)
    destruct (Vector_Reserve this new_capacity s) as [o s'] eqn:He.
    pose proof (Vector_Reserve_represents _ _ _ _ _ _ _ _ Hr He).
    by destruct o.
  - (* Resize *)
    destruct (lt_eq_lt_dec new_size (length xs)) as [ [Hlt | ->] | Hgt].
    + by rewrite (Vector_Resize_shrink _ _ _ _ _ _ Hr Hlt).
    + by rewrite (Vector_Resize_same _ _ _ _ _ Hr).
    + destruct (Vector_Resize this new_size s) as [o s'] eqn:He.
      pose proof (Vector_Resize_grow _ _ _ _ _ _ _ _ Hr Hgt He).
      by destruct o.
  - (* PushBack *)
    destruct Hv as [x Hl]. unfold Vector_PushBack. apply unit_no_abort.
    unfold Vector_EmplaceBack.
    rewrite (bind_Ok _ _ _ _ _ (Vector_end_eq _ _ _ Ho)).
    cbn [data_ size_ buffer_].
    eapply Vector_Emplace_valid; [done | done | | done].
    unfold ptr_add. cbn [off]. rewrite (proj1 Hb). lia.
  - (* EmplaceBack *)
    destruct Hv as [x Hl]. apply unit_no_abort.
    unfold Vector_EmplaceBack.
    rewrite (bind_Ok _ _ _ _ _ (Vector_end_eq _ _ _ Ho)).
    cbn [data_ size_ buffer_].
    eapply Vector_Emplace_valid; [done | done | | done].
    unfold ptr_add. cbn [off]. rewrite (proj1 Hb). lia.
  - (* PopBack *)
    destruct Hv as (n & Hn).
    rewrite (represents_size _ _ _ _ _ Hr) in Hn. injection Hn as Hn.
    destruct (decide (xs = [])) as [-> | Hxs]; [done |].
    destruct (exists_last Hxs) as (l & x & ->).
    by rewrite (Vector_PopBack_eval _ _ _ _ _ _ Hr).
  - (* Insert *)
    destruct Hv as [Hpos [x Hl] ].
    destruct (valid_position_represents _ _ _ _ _ _ _ Hr Hpos) as [Hblock Hoff].
    apply unit_no_abort. unfold Vector_Insert.
    eapply Vector_Emplace_valid; [done | done | lia | done].
  - (* Emplace *)
    destruct Hv as [Hpos [x Hl] ].
    destruct (valid_position_represents _ _ _ _ _ _ _ Hr Hpos) as [Hblock Hoff].
    apply unit_no_abort.
    eapply Vector_Emplace_valid; [done | done | lia | done].
  - (* Erase *)
    destruct (valid_position_represents _ _ _ _ _ _ _ Hr Hv) as [Hblock Hoff].
    apply unit_no_abort.
    rewrite (position_ptr_add _ _ Hblock (proj1 Hb)).
    destruct (lookup_lt_is_Some_2 xs (off pos) ltac:(lia)) as [y Hy].
    destruct (erased_split _ _ _ Hy) as [Hxs HA].
    rewrite Hxs in Hr.
    pose proof (Vector_Erase_eval _ _ _ _ _ _ _ Hr) as He. rewrite HA in He.
    by rewrite He, Hpol.
Qed.

(** A constructor does not end the program. *)
Lemma run_call_ctor_valid s this c :
  is_ctor c = true →
  objs s !! this = None →
  (∀ other, other_operand c = Some other → Vector_invariant s other) →
  is_Abort (run_call this c s).1 = false.
Proof.
  intros Hc Hnone Hother.
  destruct c; try discriminate Hc; cbn [run_call other_operand] in *.
  - done.
  - rewrite Vector_sized_ctor_eval.
    by destruct (value_all size (env s)) as [[] w].
  - pose proof (Hother other eq_refl) as Hri.
    destruct (invariant_represents _ _ Hri) as (obuf & ys & ocap & Hrr).
    pose proof Hrr as (Hor & _).
    assert (Hne : this ≠ other) by (intros ->; congruence).
    rewrite (Vector_copy_ctor_eval _ _ _ _ _ _ Hne Hrr).
    by destruct (copy_all ys (env s)) as [[] w].
  - pose proof (Hother other eq_refl) as (r & Hor & _).
    assert (Hne : this ≠ other) by (intros ->; congruence).
    by rewrite (Vector_move_ctor_eval _ _ _ _ Hne Hor).
Qed.

End Invariant.

(** * The specification, claim by claim *)

Section Claims.
Context `{P : Payload}.

Lemma represents_observed s this buf xs cap :
  represents s this buf xs cap →
  Vector_size s this = Some (length xs) ∧
  Vector_capacity s this = Some cap ∧
  Vector_elems s this = Some xs ∧
  Vector_invariant s this.
Proof.
  intros Hr. split; [by eapply represents_size |].
  split; [by eapply represents_capacity |].
  split; [by eapply represents_elems | by eapply represents_invariant].
Qed.

(** C1. Strong exception safety of [Reserve]: when relocation is by copy and
    [Reserve] has to grow the storage, a copy that throws makes the call
    leave by that exception, and a call that leaves by an exception has
    every vector object and every block of the heap exactly as before; in
    particular the size, the capacity and the elements of the vector are
    unchanged. *)
Theorem Reserve_strong_exception_safety s this buf xs cap n :
  relocate_by_move = false →
  represents s this buf xs cap →
  cap < n →
  ((copy_all xs (env s)).1 = false →
   ∃ s', Vector_Reserve this n s = (Throw, s')) ∧
  (∀ s',
     Vector_Reserve this n s = (Throw, s') →
     (copy_all xs (env s)).1 = false ∧
     objs s' = objs s ∧ heap s' = heap s ∧
     Vector_size s' this = Some (length xs) ∧
     Vector_capacity s' this = Some cap ∧
     Vector_elems s' this = Some xs).
Proof.
  intros Hpolicy Hr Hn.
  rewrite (Vector_Reserve_grow _ _ _ _ _ _ Hr Hn), Hpolicy.
  destruct (copy_all xs (env s)) as [[] w]; cbn [fst snd].
  - split; [done |]. by intros s' [=].
  - split; [by eexists |]. intros s' [= <-].
    split; [done |]. split; [done |]. split; [done |].
    apply represents_set_env with (w := w) in Hr.
    by destruct (represents_observed _ _ _ _ _ Hr) as (? & ? & ? & _).
Qed.

(** C6. [Reserve(n)] with [n ≤ capacity] returns with the state as it was
    (no allocation, no element touched).  With [n > capacity], for a
    number of slots the allocator can serve, it returns when the elements
    are relocated by a [noexcept] move constructor, or by copies none of
    which throws; and whenever it returns, the capacity is exactly [n],
    the size and every element value are unchanged, and the invariant
    holds. *)
Theorem Reserve_capacity s this buf xs cap n :
  represents s this buf xs cap →
  (n ≤ cap → Vector_Reserve this n s = (Ok (), s)) ∧
  (cap < n → allocatable n →
   (is_nothrow_move_constructible = true ∨
    relocate_by_move = false ∧ (copy_all xs (env s)).1 = true) →
   ∃ s', Vector_Reserve this n s = (Ok (), s')) ∧
  (cap < n → allocatable n → ∀ s',
   Vector_Reserve this n s = (Ok (), s') →
   Vector_capacity s' this = Some n ∧
   Vector_size s' this = Some (length xs) ∧
   Vector_elems s' this = Some xs ∧
   Vector_invariant s' this).
Proof.
  intros Hr. pose proof Hr as (Ho & Hlen & Hb).
  split; [by eapply Vector_Reserve_noop |].
  split.
  - intros Hn _ Hok. rewrite (Vector_Reserve_grow _ _ _ _ _ _ Hr Hn).
    destruct Hok as [Hmc | [Hpol Hcopy] ].
    + assert (Hpol : relocate_by_move = true)
        by (unfold relocate_by_move; by rewrite Hmc).
      rewrite Hpol. by eauto.
    + rewrite Hpol, Hcopy. by eauto.
  - intros Hn _ s' He.
    assert (Hrel : represents (relocated this buf n xs s) this
                     (new_buffer n s) xs n)
      by (eapply represents_relocated; [done | lia | lia]).
    rewrite (Vector_Reserve_grow _ _ _ _ _ _ Hr Hn) in He.
    destruct relocate_by_move.
    + injection He as <-.
      by destruct (represents_observed _ _ _ _ _ Hrel) as (? & ? & ? & ?).
    + destruct (copy_all xs (env s)) as [[] w]; cbn [fst snd] in He;
        [| done].
      injection He as <-. apply represents_set_env with (w := w) in Hrel.
      by destruct (represents_observed _ _ _ _ _ Hrel) as (? & ? & ? & ?).
Qed.

(** C7. Growth policy.  On a full vector, an [Emplace] or [Insert] at a
    position of the vector, and so an [EmplaceBack] or [PushBack], of a
    designated value returns when no operation it runs throws (the copy of
    the argument, or its [noexcept] move; the relocation of the elements,
    by a [noexcept] move or by copies), and then the value is inserted,
    the size is one more and the capacity is [max(1, 2 * capacity)].
    Whatever the arguments, a call that returns has added one element and
    has taken the capacity of a full vector to [max(1, 2 * capacity)]
    (with room left the capacity stays).  So the capacities read after
    each of a run of appends are those of the doubling rule, and after
    each of five appends to a default-constructed vector they are 1, 2, 4,
    4, 8; that run returns when the payload does not throw and the values
    are copies of live objects. *)
Theorem growth_policy s this buf xs cap :
  represents s this buf xs cap →
  (length xs = cap → ∀ index args x,
     index ≤ length xs →
     designates s buf args x →
     (∀ src, args = ByCopy src → (copy_construct x (env s)).1 = true) →
     (∀ src, args = ByMove src → is_nothrow_move_constructible = true) →
     (is_nothrow_move_constructible = true ∨
      relocate_by_move = false ∧
      (copy_all xs (env (T_ctor args s).2)).1 = true) →
     ∃ p s',
       Vector_Emplace this (ptr_add buf index) args s = (Ok p, s') ∧
       Vector_Insert this (ptr_add buf index) args s = (Ok p, s') ∧
       (index = length xs →
        Vector_EmplaceBack this args s = (Ok p, s') ∧
        Vector_PushBack this args s = (Ok (), s')) ∧
       Vector_elems s' this = Some (inserted index x xs) ∧
       Vector_size s' this = Some (S cap) ∧
       Vector_capacity s' this = Some (Nat.max 1 (cap * 2))) ∧
  (∀ pos args p s',
     Vector_Emplace this pos args s = (Ok p, s') ∨
     Vector_Insert this pos args s = (Ok p, s') ∨
     Vector_EmplaceBack this args s = (Ok p, s') ∨
     Vector_PushBack this args s = (Ok (), s') →
     Vector_size s' this = Some (S (length xs)) ∧
     Vector_capacity s' this
     = Some (if decide (length xs < cap) then cap else Nat.max 1 (cap * 2))) ∧
  (∀ values cs s',
     push_backs this values s = (Ok cs, s') →
     cs = capacities (length xs) cap (length values)) ∧
  (∀ s0 values cs s',
     length values = 5 →
     (Vector_default_ctor this >> push_backs this values) s0 = (Ok cs, s') →
     cs = [1; 2; 4; 4; 8]) ∧
  (nothrow → is_copy_constructible = true → ∀ s0 values,
     length values = 5 →
     Forall (λ v, ∃ src x, v = ByCopy src ∧ load src s0 = (Ok x, s0)) values →
     ∃ s', (Vector_default_ctor this >> push_backs this values) s0
           = (Ok [1; 2; 4; 4; 8], s')).
Proof.
  intros Hr.
  assert (Hfive : ∀ s0 values cs s',
            length values = 5 →
            (Vector_default_ctor this >> push_backs this values) s0
            = (Ok cs, s') →
            cs = [1; 2; 4; 4; 8]).
  { intros s0 values cs s' Hlen He.
    destruct (Vector_default_ctor_eval s0 this) as [Hd Hr0].
    rewrite (bind_Ok _ _ _ _ _ Hd) in He.
    rewrite (push_backs_capacities _ _ _ _ _ _ _ _ Hr0 He), Hlen. done. }
  split; [| split; [| split; [| split; [exact Hfive |] ] ] ].
  - intros Hfull index args x Hidx Hv Hcopy Hmove Hreloc.
    pose proof Hr as (Ho & Hlen & Hb).
    destruct (Vector_Insert_of_designated _ _ _ _ _ _ _ _ Hr Hidx Hv)
      as (s1 & Hr1 & Henv & _ & Hins).
    destruct Hins as [Hins | (_ & src & -> & Hc) ].
    2:{ by rewrite (Hcopy src eq_refl) in Hc. }
    assert (Hgrown : represents
              (relocated this buf (growth cap) (inserted index x xs) s1) this
              (new_buffer (growth cap) s1) (inserted index x xs) (growth cap)).
    { pose proof Hr1 as (_ & _ & Hb1). pose proof (growth_gt cap).
      eapply represents_relocated; [done | rewrite inserted_length; lia | lia]. }
    assert (Hem : ∃ p s',
              emplaced this buf cap index x xs s1 = (Ok p, s') ∧
              represents s' this (new_buffer (growth cap) s1)
                (inserted index x xs) (growth cap)).
    { unfold emplaced. rewrite decide_False by lia.
      destruct Hreloc as [Hmc | [Hpol Hall] ].
      - assert (Hpol : relocate_by_move = true)
          by (unfold relocate_by_move; by rewrite Hmc).
        rewrite Hpol. by eexists _, _.
      - rewrite Hpol, Henv, Hall. eexists _, _. split; [done |].
        by apply represents_set_env. }
    destruct Hem as (p & s' & Hem & Hr').
    unfold Vector_Insert in *. rewrite Hem in Hins.
    exists p, s'. split; [done |]. split; [done |].
    split.
    { intros ->. unfold Vector_PushBack, Vector_EmplaceBack.
      rewrite bind_assoc, !(bind_Ok _ _ _ _ _ (Vector_end_eq _ _ _ Ho)).
      cbn [data_ size_ buffer_]. by rewrite (bind_Ok _ _ _ _ _ Hins). }
    split; [by eapply represents_elems |].
    rewrite (represents_size _ _ _ _ _ Hr'), inserted_length, Hfull.
    by rewrite (represents_capacity _ _ _ _ _ Hr'), growth_max.
  - intros pos args p s' He.
    assert (∃ buf' xs', length xs' = S (length xs) ∧
              represents s' this buf' xs'
                (if decide (length xs < cap) then cap else growth cap))
      as (buf' & xs' & Hlen' & Hr').
    { destruct He as [He | [He | [He | He] ] ].
      - pose proof (Vector_Emplace_outcome _ _ _ _ _ _ _ _ _ Hr He)
          as (? & ? & _ & ? & ?). eauto.
      - pose proof (Vector_Emplace_outcome _ _ _ _ _ _ _ _ _ Hr He)
          as (? & ? & _ & ? & ?). eauto.
      - apply (Vector_EmplaceBack_outcome _ _ _ _ _ _ _ _ Hr He).
      - apply (Vector_PushBack_outcome _ _ _ _ _ _ _ _ Hr He). }
    rewrite growth_max in Hr'.
    rewrite (represents_size _ _ _ _ _ Hr'), Hlen'.
    by rewrite (represents_capacity _ _ _ _ _ Hr').
  - intros values cs s'. by apply (push_backs_capacities _ _ _ buf).
  - intros Hnt _ s0 values Hlen Hvs.
    destruct (Vector_default_ctor_eval s0 this) as [Hd Hr0].
    destruct (push_backs_returns values _ _ _ _ _ Hnt Hr0) as (cs & s' & He).
    { eapply Forall_impl; [exact Hvs |]. cbn beta.
      intros v (src & x & -> & Hl). exists src, x. split; [done |].
      by apply load_live_outside. }
    exists s'. rewrite (bind_Ok _ _ _ _ _ Hd).
    rewrite He. f_equal. f_equal. eapply Hfive; [exact Hlen |].
    by rewrite (bind_Ok _ _ _ _ _ Hd).
Qed.

(** C2. Self-reference safety of [Insert]: at a valid position of a
    vector, [Insert] of a reference to the vector's own element [i] and
    [Insert] of a reference to an independent object of the same value (in
    a block of its own) end the same way, by a return or by an exception,
    and leave the same elements, size and capacity; a call that returns
    has inserted the value the element had before the call, and it
    returns when the payload does not throw. *)
Theorem Insert_self_reference s this buf xs cap index i x a :
  represents s this buf xs cap →
  index ≤ length xs →
  xs !! i = Some x →
  heap s !! a = None →
  let own := Vector_Insert this (ptr_add buf index) (ByCopy (ptr_add buf i)) s in
  let independent :=
    Vector_Insert this (ptr_add buf index) (ByCopy (Ptr (Some a) 0))
      (set_heap (<[a := [Live x]]> (heap s)) s) in
  is_Ok own.1 = is_Ok independent.1 ∧
  is_Throw own.1 = is_Throw independent.1 ∧
  Vector_elems own.2 this = Vector_elems independent.2 this ∧
  Vector_size own.2 this = Vector_size independent.2 this ∧
  Vector_capacity own.2 this = Vector_capacity independent.2 this ∧
  (is_Ok own.1 = true →
   Vector_elems own.2 this = Some (inserted index x xs)) ∧
  (nothrow → is_Ok own.1 = true).
Proof.
  intros Hr Hidx Hi Ha. cbv zeta. unfold Vector_Insert.
  pose proof Hr as (Ho & Hlen & Hb).
  set (s2 := set_heap (<[a := [Live x]]> (heap s)) s).
  assert (Hr2 : represents s2 this buf xs cap)
    by by apply represents_extra_block.
  assert (Hl : load (ptr_add buf i) s = (Ok x, s)).
  { eapply load_block; [done |]. unfold slots_of.
    rewrite lookup_app_l by (rewrite length_fmap; by eapply lookup_lt_Some).
    by rewrite list_lookup_fmap, Hi. }
  assert (Hl2 : load (Ptr (Some a) 0) s2 = (Ok x, s2)).
  { eapply load_Ok; [apply lookup_insert_eq | done]. }
  rewrite (Vector_Emplace_copy _ _ _ _ _ _ _ _ Hr Hidx Hl).
  rewrite (Vector_Emplace_copy _ _ _ _ _ _ _ _ Hr2 Hidx Hl2).
  change (env s2) with (env s).
  destruct (copy_construct x (env s)) as [b w] eqn:Hc. cbn [fst snd].
  destruct b.
  - pose proof (emplaced_observed (set_env w s) this buf cap index x xs
                  (represents_set_env _ w _ _ _ _ Hr) Hidx)
      as (Hk & Ht & He & Hsz & Hcp).
    pose proof (emplaced_observed (set_env w s2) this buf cap index x xs
                  (represents_set_env _ w _ _ _ _ Hr2) Hidx)
      as (Hk2 & Ht2 & He2 & Hsz2 & Hcp2).
    change (env (set_env w s2)) with (env (set_env w s)) in *.
    rewrite Hk, Hk2, Ht, Ht2, He, He2, Hsz, Hsz2, Hcp, Hcp2.
    repeat split; try done.
    + by intros ->.
    + intros Hnt. rewrite (copy_all_nothrow _ _ Hnt). apply orb_true_r.
  - cbn [fst snd is_Ok is_Throw].
    rewrite (represents_elems _ _ _ _ _ (represents_set_env _ w _ _ _ _ Hr)).
    rewrite (represents_elems _ _ _ _ _ (represents_set_env _ w _ _ _ _ Hr2)).
    repeat split; try done.
    intros Hnt. pose proof (proj1 (proj2 Hnt) x (env s)) as Hx.
    by rewrite Hc in Hx.
Qed.

(** C3. [Insert] then [Erase]: at a valid position of a vector, both ends
    included, [Insert] of a designated value returns the position of the
    new element, at the same offset, in the sequence with the value
    inserted; [Erase] at that position then returns it again and leaves
    the original elements and size.  Both calls return when the payload
    does not throw. *)
Theorem Insert_then_Erase s this buf xs cap index value x :
  represents s this buf xs cap →
  index ≤ length xs →
  designates s buf value x →
  (∀ p s1,
     Vector_Insert this (ptr_add buf index) value s = (Ok p, s1) →
     off p = index ∧
     Vector_elems s1 this = Some (inserted index x xs) ∧
     ∀ q s2,
       Vector_Erase this p s1 = (Ok q, s2) →
       q = p ∧ Vector_elems s2 this = Some xs ∧
       Vector_size s2 this = Some (length xs)) ∧
  (nothrow →
   ∃ p s1 s2,
     Vector_Insert this (ptr_add buf index) value s = (Ok p, s1) ∧
     Vector_Erase this p s1 = (Ok p, s2)).
Proof.
  intros Hr Hidx Hv.
  destruct (Vector_Insert_designated _ _ _ _ _ _ _ _ Hr Hidx Hv)
    as (s0 & Hr0 & Hins).
  pose proof (emplaced_spec _ _ _ _ _ _ x Hr0 Hidx) as Hs.
  split.
  - intros p s1 He. destruct Hins as [Hins | [Hins _] ]; [| congruence].
    rewrite <- Hins, He in Hs. destruct Hs as (buf' & -> & Hr1).
    pose proof Hr1 as (_ & _ & Hoff & _).
    assert (Hp : off (ptr_add buf' index) = index)
      by (unfold ptr_add; cbn [off]; lia).
    split; [exact Hp |]. split; [by eapply represents_elems |].
    intros q s2 Her.
    pose proof (Vector_Erase_outcome _ _ _ _ _ _ _ _ Hr1 Her)
      as (-> & _ & Hr2).
    rewrite Hp, erased_inserted in Hr2 by done.
    split; [done |].
    split; [by eapply represents_elems | by eapply represents_size].
  - intros Hnt. destruct Hins as [Hins | [_ Hc] ].
    2:{ by rewrite (proj1 (proj2 Hnt) x (env s)) in Hc. }
    rewrite <- Hins in Hs.
    destruct (Vector_Insert this (ptr_add buf index) value s)
      as [[p | |] s1]; [| | done].
    + destruct Hs as (buf' & -> & Hr1).
      destruct (Vector_Erase_returns _ _ _ _ _ index Hnt Hr1) as [s2 He].
      { rewrite inserted_length. lia. }
      by eexists _, _, _.
    + destruct Hs as (_ & _ & Hc & _).
      by rewrite (copy_all_nothrow _ _ Hnt) in Hc.
Qed.

(** C4, as the code has it.  Move construction from a distinct vector
    returns with the destination owning the block, the capacity and the
    elements the source had, and the source empty: no block, size 0,
    capacity 0.  Move assignment to a distinct vector exchanges the two:
    the destination owns what the source had, and the source owns what the
    destination had, so it is empty only if the destination was.  No block
    of the heap is touched by either. *)
Theorem move_transfers s this other buf xs cap :
  this ≠ other →
  represents s other buf xs cap →
  (∃ s', Vector_move_ctor this other s = (Ok (), s') ∧
         heap s' = heap s ∧
         represents s' this buf xs cap ∧
         represents s' other nullptr [] 0 ∧
         Vector_size s' other = Some 0 ∧
         Vector_capacity s' other = Some 0) ∧
  (∀ buf0 xs0 cap0,
     represents s this buf0 xs0 cap0 →
     ∃ s', Vector_move_assign this other s = (Ok (), s') ∧
           heap s' = heap s ∧
           represents s' this buf xs cap ∧
           represents s' other buf0 xs0 cap0 ∧
           Vector_size s' other = Some (length xs0) ∧
           Vector_capacity s' other = Some cap0 ∧
           Vector_elems s' other = Some xs0).
Proof.
  intros Hne Hr. pose proof Hr as (Ho & Hlen & Hb). split.
  - eexists. split; [by apply Vector_move_ctor_eval |]. split; [done |].
    assert (Hempty : represents
              (set_objs
                 (<[this := {| data_ := {| buffer_ := buf; capacity_ := cap |};
                               size_ := length xs |}]>
                    (<[other := {| data_ := RawMemory_default; size_ := 0 |}]>
                       (objs s))) s) other nullptr [] 0).
    { split; [| done]. rewrite objs_set_objs, lookup_insert_ne by done.
      apply lookup_insert_eq. }
    split; [| split; [exact Hempty |] ].
    + split; [| done]. rewrite objs_set_objs. apply lookup_insert_eq.
    + split; [exact (represents_size _ _ _ _ _ Hempty) |].
      exact (represents_capacity _ _ _ _ _ Hempty).
  - intros buf0 xs0 cap0 Hr0. pose proof Hr0 as (Ho0 & Hlen0 & Hb0).
    eexists. split; [by apply Vector_move_assign_eval |]. split; [done |].
    assert (Hsrc : represents
              (set_objs
                 (<[other := {| data_ := {| buffer_ := buf0; capacity_ := cap0 |};
                                size_ := length xs0 |}]>
                    (<[this := {| data_ := {| buffer_ := buf; capacity_ := cap |};
                                  size_ := length xs |}]> (objs s))) s)
              other buf0 xs0 cap0).
    { split; [| done]. rewrite objs_set_objs. apply lookup_insert_eq. }
    split; [| split; [exact Hsrc |] ].
    + split; [| done]. rewrite objs_set_objs, lookup_insert_ne by done.
      apply lookup_insert_eq.
    + split; [by eapply represents_size |].
      split; [by eapply represents_capacity | by eapply represents_elems].
Qed.

(** C5. Copy assignment.  From a distinct vector it is the algorithm of
    the specification ([copy_assigned]): copy and swap when the source is
    larger than the capacity, reuse of the storage otherwise; from the
    vector itself it does nothing.  When it returns, the destination has
    the elements and the size of the source, which is unchanged; the
    capacity is the size of the source if that was larger and is unchanged
    otherwise, and then the block is the same.  An exception from copy and
    swap leaves every object and every block as they were.  With a payload
    that does not throw it returns. *)
Theorem copy_assignment s this rhs buf rbuf xs ys cap rcap :
  represents s this buf xs cap → represents s rhs rbuf ys rcap →
  (this ≠ rhs → separate buf rbuf) →
  (this ≠ rhs →
   Vector_copy_assign this rhs s = copy_assigned this buf cap xs ys s) ∧
  (this = rhs → Vector_copy_assign this rhs s = (Ok (), s)) ∧
  (∀ s', Vector_copy_assign this rhs s = (Ok (), s') →
     Vector_elems s' this = Some ys ∧
     Vector_size s' this = Some (length ys) ∧
     Vector_elems s' rhs = Some ys ∧
     Vector_size s' rhs = Some (length ys) ∧
     Vector_capacity s' this
     = Some (if decide (cap < length ys) then length ys else cap) ∧
     (length ys ≤ cap → Vector_buffer s' this = Some buf)) ∧
  (∀ s', Vector_copy_assign this rhs s = (Throw, s') → cap < length ys →
     objs s' = objs s ∧ heap s' = heap s) ∧
  (nothrow → ∃ s', Vector_copy_assign this rhs s = (Ok (), s')).
Proof.
  intros Hr Hrr Hsep. destruct (decide (this = rhs)) as [<- | Hne].
  { destruct (represents_inj _ _ _ _ _ _ _ _ Hr Hrr) as (-> & -> & ->).
    pose proof Hr as (_ & Hlen & _).
    rewrite Vector_copy_assign_self.
    split; [done |]. split; [done |]. split; [| split; [done | by eauto] ].
    intros s' [= <-]. rewrite decide_False by lia.
    split; [by eapply represents_elems |].
    split; [by eapply represents_size |].
    split; [by eapply represents_elems |].
    split; [by eapply represents_size |].
    split; [by eapply represents_capacity |].
    intros _. by eapply represents_buffer. }
  specialize (Hsep Hne).
  pose proof (Vector_copy_assign_eval s this rhs buf rbuf xs ys cap rcap
                Hne Hr Hrr Hsep) as He.
  pose proof (copy_assigned_spec _ _ _ _ _ _ _ _ _ Hne Hsep Hr Hrr) as Hs.
  rewrite <- He in Hs.
  split; [done |]. split; [done |]. split; [| split].
  - intros s' Hok. rewrite Hok in Hs.
    destruct Hs as [(buf' & Hr' & Hbuf) Hrr'].
    split; [by eapply represents_elems |].
    split; [by eapply represents_size |].
    split; [by eapply represents_elems |].
    split; [by eapply represents_size |].
    split; [by eapply represents_capacity |].
    intros Hle. rewrite <- (Hbuf Hle). by eapply represents_buffer.
  - intros s' Hthrow Hcap. rewrite Hthrow in Hs.
    destruct Hs as (_ & _ & Hw). by destruct (Hw Hcap) as [w ->].
  - intros Hnt. pose proof (copy_assigned_nothrow s this buf xs ys cap Hnt) as Hok.
    rewrite <- He in Hok.
    destruct (Vector_copy_assign this rhs s) as [[[] | |] s']; [| done | done].
    by exists s'.
Qed.

(** [allocatable] in one inequality: the bytes of [n] slots are within
    [size_t] and within the allocator's reach. *)
Lemma allocatable_bytes n :
  allocatable n ↔
  (N.of_nat n * Npos sizeof_T ≤ N.min max_alloc (2 ^ 64 - 1))%N.
Proof.
  unfold allocatable, Allocate_request. split.
  - intros [Hw Hm]. rewrite Hw in Hm.
    assert (N.of_nat n * N.pos sizeof_T < 2 ^ 64)%N; [| lia].
    rewrite <- Hw. by apply N.mod_lt.
  - intros Hn. rewrite N.mod_small by lia. lia.
Qed.


(** C9. [Resize(n)] with [n] the current size returns with the state as it
    was: the size, the capacity and every element are unchanged, and
    nothing is allocated, constructed or destroyed. *)
Theorem Resize_to_current_size s this buf xs cap :
  represents s this buf xs cap →
  Vector_Resize this (length xs) s = (Ok (), s).
Proof. apply Vector_Resize_same. Qed.

(** C10. Self-assignment, by copy and by move, returns with the state as it
    was. *)
Theorem self_assignment s this :
  Vector_copy_assign this this s = (Ok (), s) ∧
  Vector_move_assign this this s = (Ok (), s).
Proof.
  split; [apply Vector_copy_assign_self | apply Vector_move_assign_self].
Qed.

End Claims.

(** * The theorems at work *)

Lemma represents_one_vector (P : Payload) l cap w :
  length l ≤ cap →
  represents (one_vector P l cap w) 0 (Ptr (Some 0) 0) l cap.
Proof. intros Hlen. by repeat split. Qed.

(** A vector 1, 2, 3 of capacity 3 and a budget of one copy: the second
    copy of [Reserve(10)] throws. *)
Lemma Reserve_strong_exception_safety_witness :
  Vector_Reserve 0 10 (one_vector copied_numbers [1; 2; 3] 3 1)
  = (Throw, one_vector copied_numbers [1; 2; 3] 3 0) ∧
  objs (one_vector copied_numbers [1; 2; 3] 3 0)
  = objs (one_vector copied_numbers [1; 2; 3] 3 1) ∧
  heap (one_vector copied_numbers [1; 2; 3] 3 0)
  = heap (one_vector copied_numbers [1; 2; 3] 3 1) ∧
  Vector_size (one_vector copied_numbers [1; 2; 3] 3 0) 0 = Some 3 ∧
  Vector_capacity (one_vector copied_numbers [1; 2; 3] 3 0) 0 = Some 3 ∧
  Vector_elems (one_vector copied_numbers [1; 2; 3] 3 0) 0 = Some [1; 2; 3].
Proof.
  assert (He : Vector_Reserve 0 10 (one_vector copied_numbers [1; 2; 3] 3 1)
               = (Throw, one_vector copied_numbers [1; 2; 3] 3 0))
    by (vm_compute; reflexivity).
  split; [exact He |].
  apply (proj2 (Reserve_strong_exception_safety (P := copied_numbers)
                  (one_vector copied_numbers [1; 2; 3] 3 1) 0 (Ptr (Some 0) 0)
                  [1; 2; 3] 3 10 eq_refl
                  ltac:(repeat split; vm_compute; lia) ltac:(lia))
           _ He).
Defined.

(** A vector 1, 2, 3 of capacity 3, relocated by move: [Reserve(2)] changes
    nothing, [Reserve(5)] gives capacity 5 and keeps the elements. *)
Lemma Reserve_capacity_witness :
  Vector_Reserve 0 2 (one_vector moved_numbers [1; 2; 3] 3 0)
  = (Ok (), one_vector moved_numbers [1; 2; 3] 3 0) ∧
  ∃ s', Vector_Reserve 0 5 (one_vector moved_numbers [1; 2; 3] 3 0)
        = (Ok (), s') ∧
        Vector_capacity s' 0 = Some 5 ∧
        Vector_size s' 0 = Some 3 ∧
        Vector_elems s' 0 = Some [1; 2; 3].
Proof.
  assert (Hr : represents (one_vector moved_numbers [1; 2; 3] 3 0) 0
                 (Ptr (Some 0) 0) [1; 2; 3] 3)
    by (repeat split; vm_compute; lia).
  assert (Ha : allocatable (P := moved_numbers) 5)
    by (split; vm_compute; [reflexivity | discriminate]).
  destruct (Reserve_capacity (P := moved_numbers) _ _ _ _ _ 2 Hr)
    as (Hnoop & _ & _).
  destruct (Reserve_capacity (P := moved_numbers) _ _ _ _ _ 5 Hr)
    as (_ & Hret & Hgrow).
  split; [apply Hnoop; lia |].
  destruct (Hret ltac:(lia) Ha (or_introl eq_refl)) as [s' Hs'].
  destruct (Hgrow ltac:(lia) Ha s' Hs') as (Hc & Hsz & Hel & _).
  exists s'. split; [exact Hs' |]. split; [exact Hc |].
  split; [exact Hsz | exact Hel].
Defined.

(** A full vector 1, 2, 3 of capacity 3 at address 1: a copy of the
    second element of the vector at address 0 is inserted at index 1 and
    the capacity is 6.  Five copies of the elements of the vector 10, 20,
    30, 40, 50 pushed onto a new vector at address 1: the capacities are 1,
    2, 4, 4, 8. *)
Lemma growth_policy_witness :
  (∃ p s',
     Vector_Insert 1 (Ptr (Some 1) 1) (ByCopy (Ptr (Some 0) 1))
       (two_vectors plain_numbers [10; 20; 30; 40; 50] 5 [1; 2; 3] 3 ())
     = (Ok p, s') ∧
     Vector_elems s' 1 = Some [1; 20; 2; 3] ∧
     Vector_capacity s' 1 = Some 6) ∧
  ((Vector_default_ctor 1 >>
    push_backs 1 [ByCopy (Ptr (Some 0) 0); ByCopy (Ptr (Some 0) 1);
                  ByCopy (Ptr (Some 0) 2); ByCopy (Ptr (Some 0) 3);
                  ByCopy (Ptr (Some 0) 4)])
     (one_vector plain_numbers [10; 20; 30; 40; 50] 5 ())).1
  = Ok [1; 2; 4; 4; 8].
Proof.
  assert (Hr : represents
                 (two_vectors plain_numbers [10; 20; 30; 40; 50] 5 [1; 2; 3] 3 ())
                 1 (Ptr (Some 1) 0) [1; 2; 3] 3)
    by (repeat split; vm_compute; lia).
  destruct (growth_policy (P := plain_numbers) _ _ _ _ _ Hr)
    as (Hgrow & _ & _ & _ & Hfive).
  split.
  - destruct (Hgrow eq_refl 1 (ByCopy (Ptr (Some 0) 1)) 20
                ltac:(vm_compute; lia) eq_refl
                ltac:(intros; reflexivity) ltac:(intros; reflexivity)
                (or_introl eq_refl))
      as (p & s' & _ & Hins & _ & Hel & _ & Hcap).
    exists p, s'. split; [exact Hins |]. split; [exact Hel | exact Hcap].
  - destruct (Hfive ltac:(by repeat split) eq_refl
                (one_vector plain_numbers [10; 20; 30; 40; 50] 5 ())
                [ByCopy (Ptr (Some 0) 0); ByCopy (Ptr (Some 0) 1);
                  ByCopy (Ptr (Some 0) 2); ByCopy (Ptr (Some 0) 3);
                  ByCopy (Ptr (Some 0) 4)] eq_refl)
      as [s' ->]; [| done].
    repeat constructor; eexists _, _; (split; [reflexivity |]);
      vm_compute; reflexivity.
Defined.

(** C4 as the specification states it fails for move assignment: the
    vector 4, 5 of capacity 2 at address 1 is move-assigned to the vector
    1, 2, 3 of capacity 3 at address 0, and is left with the elements 1, 2,
    3 and the capacity 3, not empty. *)
Lemma move_assign_source_not_emptied :
  (Vector_move_assign 0 1
     (two_vectors copied_numbers [1; 2; 3] 3 [4; 5] 2 0)).1 = Ok () ∧
  Vector_size
    (Vector_move_assign 0 1
       (two_vectors copied_numbers [1; 2; 3] 3 [4; 5] 2 0)).2 1 = Some 3 ∧
  Vector_capacity
    (Vector_move_assign 0 1
       (two_vectors copied_numbers [1; 2; 3] 3 [4; 5] 2 0)).2 1 = Some 3 ∧
  Vector_elems
    (Vector_move_assign 0 1
       (two_vectors copied_numbers [1; 2; 3] 3 [4; 5] 2 0)).2 1
  = Some [1; 2; 3].
Proof. repeat split; vm_compute; reflexivity. Qed.

(** The vector 4, 5 at address 1 is moved from: a vector constructed from
    it at address 2 owns its block and leaves it empty; the vector 1, 2, 3
    at address 0 assigned from it exchanges with it. *)
Lemma move_transfers_witness :
  (∃ s', Vector_move_ctor 2 1
           (two_vectors copied_numbers [1; 2; 3] 3 [4; 5] 2 0) = (Ok (), s') ∧
         Vector_elems s' 2 = Some [4; 5] ∧
         Vector_size s' 1 = Some 0 ∧ Vector_capacity s' 1 = Some 0) ∧
  (∃ s', Vector_move_assign 0 1
           (two_vectors copied_numbers [1; 2; 3] 3 [4; 5] 2 0) = (Ok (), s') ∧
         Vector_elems s' 0 = Some [4; 5] ∧
         Vector_elems s' 1 = Some [1; 2; 3]).
Proof.
  assert (Hr1 : represents (two_vectors copied_numbers [1; 2; 3] 3 [4; 5] 2 0)
                  1 (Ptr (Some 1) 0) [4; 5] 2)
    by (repeat split; vm_compute; lia).
  assert (Hr0 : represents (two_vectors copied_numbers [1; 2; 3] 3 [4; 5] 2 0)
                  0 (Ptr (Some 0) 0) [1; 2; 3] 3)
    by (repeat split; vm_compute; lia).
  split.
  - destruct (move_transfers (P := copied_numbers) _ 2 1 _ _ _
                ltac:(lia) Hr1) as [(s' & He & _ & Hd & _ & Hs & Hc) _].
    exists s'. split; [exact He |].
    split; [exact (represents_elems _ _ _ _ _ Hd) | by split].
  - destruct (move_transfers (P := copied_numbers) _ 0 1 _ _ _
                ltac:(lia) Hr1) as [_ Ha].
    destruct (Ha _ _ _ Hr0) as (s' & He & _ & Hd & _ & _ & _ & Hs).
    exists s'. split; [exact He |].
    split; [exact (represents_elems _ _ _ _ _ Hd) | exact Hs].
Defined.

Lemma separate_blocks a b i j :
  a ≠ b → separate (Ptr (Some a) i) (Ptr (Some b) j).
Proof. intros Hne c [= <-] [= ->]. done. Qed.

(** The vector 4, 5 at address 1 is assigned to the vector 1, 2, 3 of
    capacity 3 at address 0, with a budget of five copies. *)
Lemma copy_assignment_witness :
  (Vector_copy_assign 0 1
     (two_vectors copied_numbers [1; 2; 3] 3 [4; 5] 2 5)).1 = Ok () ∧
  Vector_elems
    (Vector_copy_assign 0 1
       (two_vectors copied_numbers [1; 2; 3] 3 [4; 5] 2 5)).2 0
  = Some [4; 5] ∧
  Vector_capacity
    (Vector_copy_assign 0 1
       (two_vectors copied_numbers [1; 2; 3] 3 [4; 5] 2 5)).2 0
  = Some 3.
Proof.
  assert (Hr0 : represents (two_vectors copied_numbers [1; 2; 3] 3 [4; 5] 2 5)
                  0 (Ptr (Some 0) 0) [1; 2; 3] 3)
    by (repeat split; vm_compute; lia).
  assert (Hr1 : represents (two_vectors copied_numbers [1; 2; 3] 3 [4; 5] 2 5)
                  1 (Ptr (Some 1) 0) [4; 5] 2)
    by (repeat split; vm_compute; lia).
  destruct (copy_assignment (P := copied_numbers) _ 0 1 _ _ _ _ _ _
              Hr0 Hr1 (separate_blocks 0 1 0 0))
    as (_ & _ & Hok & _ & _).
  destruct (Vector_copy_assign 0 1
              (two_vectors copied_numbers [1; 2; 3] 3 [4; 5] 2 5))
    as [o s'] eqn:He.
  assert (Ho : o = Ok ()) by (apply (f_equal fst) in He; exact (eq_sym He)).
  subst o. destruct (Hok s' eq_refl) as (Hel & _ & _ & _ & Hcap & _).
  split; [done |]. split; [exact Hel | exact Hcap].
Defined.

(** The full vector 1, 2, 3: a reference to its last element is inserted
    at the front, and the result is 3, 1, 2, 3, as with an independent 3
    in a block at address 7. *)
Lemma Insert_self_reference_witness :
  Vector_elems
    (Vector_Insert 0 (Ptr (Some 0) 0) (ByCopy (Ptr (Some 0) 2))
       (one_vector copied_numbers [1; 2; 3] 3 9)).2 0
  = Some [3; 1; 2; 3] ∧
  Vector_elems
    (Vector_Insert 0 (Ptr (Some 0) 0) (ByCopy (Ptr (Some 7) 0))
       (set_heap (<[7 := [@Live copied_numbers 3] ]>
                    (heap (one_vector copied_numbers [1; 2; 3] 3 9)))
          (one_vector copied_numbers [1; 2; 3] 3 9))).2 0
  = Some [3; 1; 2; 3].
Proof.
  assert (Hr : represents (one_vector copied_numbers [1; 2; 3] 3 9) 0
                 (Ptr (Some 0) 0) [1; 2; 3] 3)
    by (repeat split; vm_compute; lia).
  pose proof (Insert_self_reference (P := copied_numbers) _ _ _ _ _ 0 2 3 7 Hr
                ltac:(vm_compute; lia) eq_refl eq_refl)
    as (_ & _ & Hsame & _ & _ & Hins & _).
  cbv zeta in Hsame, Hins. unfold ptr_add in Hsame, Hins.
  cbn [block off Nat.add] in Hsame, Hins.
  rewrite <- Hsame. split; apply Hins; reflexivity.
Defined.

(** The full vector 1, 2, 3 and a copy of the first element of the vector
    4, 5 inserted in the middle, then erased: 1, 4, 2, 3 and 1, 2, 3
    again. *)
Lemma Insert_then_Erase_witness :
  ∃ p s1 s2,
    Vector_Insert 0 (Ptr (Some 0) 1) (ByCopy (Ptr (Some 1) 0))
      (two_vectors plain_numbers [1; 2; 3] 3 [4; 5] 2 ()) = (Ok p, s1) ∧
    Vector_Erase 0 p s1 = (Ok p, s2) ∧
    Vector_elems s1 0 = Some [1; 4; 2; 3] ∧
    Vector_elems s2 0 = Some [1; 2; 3].
Proof.
  assert (Hr : represents (two_vectors plain_numbers [1; 2; 3] 3 [4; 5] 2 ())
                 0 (Ptr (Some 0) 0) [1; 2; 3] 3)
    by (repeat split; vm_compute; lia).
  destruct (Insert_then_Erase (P := plain_numbers) _ _ _ _ _ 1
              (ByCopy (Ptr (Some 1) 0)) 4 Hr ltac:(vm_compute; lia) eq_refl)
    as [Hinv Hret].
  destruct (Hret ltac:(by repeat split)) as (p & s1 & s2 & Hi & He).
  destruct (Hinv p s1 Hi) as (_ & Hel & Herase).
  destruct (Herase p s2 He) as (_ & Hel2 & _).
  exists p, s1, s2. split; [exact Hi |]. split; [exact He |].
  split; [exact Hel | exact Hel2].
Defined.

(** A vector 1, 2, 3: [Resize(3)] changes nothing. *)
Lemma Resize_to_current_size_witness :
  Vector_Resize 0 3 (one_vector copied_numbers [1; 2; 3] 4 0)
  = (Ok (), one_vector copied_numbers [1; 2; 3] 4 0).
Proof.
  apply (Resize_to_current_size (P := copied_numbers)
           (one_vector copied_numbers [1; 2; 3] 4 0) 0 (Ptr (Some 0) 0)
           [1; 2; 3] 4).
  repeat split; vm_compute; lia.
Defined.

(** * More of the header: construction, destruction, access *)

Section Lifetime.
Context `{P : Payload}.

Lemma value_all_0 w : value_all 0 w = (true, w).
Proof. done. Qed.

Lemma constructed_restores s this xs :
  objs s !! this = None →
  set_objs (delete this (objs (constructed this xs s)))
    (free_block (new_buffer (length xs) s) (constructed this xs s))
  = s.
Proof.
  intros Hnone. unfold constructed. norm_state.
  rewrite free_alloc_block, delete_insert_eq, delete_id by done.
  apply set_objs_id.
Qed.

Lemma heap_constructed_0 s this (xs : list T) :
  length xs = 0 → heap (constructed this xs s) = heap s.
Proof.
  intros Hlen. unfold constructed, set_block, alloc_block, new_buffer.
  rewrite Hlen. by rewrite !decide_False by lia.
Qed.

(** X1. [Vector(size)], for a [size] the allocator can serve: when no
    value initialisation throws, the constructor returns a vector of
    [size] value-initialised elements whose capacity is [size] (and for
    [size = 0] nothing is allocated); when one throws, the constructor
    leaves by the exception with no vector object and with every block of
    the heap as before: the block it had allocated is released. *)
Theorem sized_constructor s this n :
  objs s !! this = None →
  allocatable n →
  ((value_all n (env s)).1 = true →
   ∃ s', Vector_sized_ctor this n s = (Ok (), s') ∧
         Vector_elems s' this = Some (replicate n value_init) ∧
         Vector_size s' this = Some n ∧
         Vector_capacity s' this = Some n ∧
         Vector_invariant s' this ∧
         (n = 0 → heap s' = heap s)) ∧
  ((value_all n (env s)).1 = false →
   ∃ s', Vector_sized_ctor this n s = (Throw, s') ∧
         objs s' = objs s ∧ heap s' = heap s).
Proof.
  intros Hnone _. rewrite Vector_sized_ctor_eval.
  pose proof (represents_constructed s this (replicate n value_init)) as Hr.
  rewrite length_replicate in Hr.
  destruct (value_all n (env s)) as [[] w]; cbn [fst snd].
  - split; [intros _ | done]. eexists. split; [done |].
    apply represents_set_env with (w := w) in Hr.
    split; [by eapply represents_elems |].
    split.
    { rewrite (represents_size _ _ _ _ _ Hr). by rewrite length_replicate. }
    split; [by eapply represents_capacity |].
    split; [by eapply represents_invariant |].
    intros ->. by rewrite heap_set_env, heap_constructed_0.
  - split; [done | intros _]. eexists. split; [done |]. split; [| done].
    rewrite objs_set_env, objs_set_objs. by apply delete_id.
Qed.

(** X2. [Vector(const Vector&)]: when no copy throws, the constructor
    returns a vector with the elements of the source and a capacity equal
    to the size (not the capacity) of the source, in a block of its own;
    the source is as before.  When a copy throws, it leaves by the
    exception with no vector object and the heap as before. *)
Theorem copy_constructor s this other buf xs cap :
  objs s !! this = None →
  represents s other buf xs cap →
  ((copy_all xs (env s)).1 = true →
   ∃ s' buf',
     Vector_copy_ctor this other s = (Ok (), s') ∧
     represents s' this buf' xs (length xs) ∧
     separate buf buf' ∧
     represents s' other buf xs cap) ∧
  ((copy_all xs (env s)).1 = false →
   ∃ s', Vector_copy_ctor this other s = (Throw, s') ∧
         objs s' = objs s ∧ heap s' = heap s).
Proof.
  intros Hnone Hr. pose proof Hr as (Ho & Hlen & Hb).
  assert (Hne : this ≠ other) by (intros ->; congruence).
  rewrite (Vector_copy_ctor_eval _ _ _ _ _ _ Hne Hr).
  destruct (copy_all xs (env s)) as [[] w]; cbn [fst snd].
  - split; [intros _ | done]. eexists _, _. split; [done |].
    split; [apply represents_set_env, represents_constructed |].
    split; [by eapply separate_new |].
    apply represents_set_env. by apply represents_other_constructed.
  - split; [done | intros _]. eexists. split; [done |]. split; [| done].
    rewrite objs_set_env, objs_set_objs. by apply delete_id.
Qed.

(** X3. [~Vector()]: the destructor returns; the object is gone, the block
    of the vector is released, and every other object and block and the
    payload environment are as before. *)
Theorem destructor_releases s this buf xs cap :
  represents s this buf xs cap →
  ∃ s', Vector_dtor this s = (Ok (), s') ∧
        objs s' = delete this (objs s) ∧
        heap s' = match block buf with
                  | Some a => delete a (heap s)
                  | None => heap s
                  end ∧
        env s' = env s.
Proof.
  intros Hr. rewrite (Vector_dtor_eval _ _ _ _ _ Hr). eexists.
  split; [done |]. split; [done |]. unfold free_block.
  by destruct (block buf).
Qed.

(** X4. A copy constructed and destroyed leaves no trace: when no copy
    throws, the copy constructor followed by the destructor of the copy
    returns with every object and every block exactly as before. *)
Theorem copy_then_destroy s this other buf xs cap :
  objs s !! this = None →
  represents s other buf xs cap →
  (copy_all xs (env s)).1 = true →
  ∃ s', (Vector_copy_ctor this other >> Vector_dtor this) s = (Ok (), s') ∧
        objs s' = objs s ∧ heap s' = heap s.
Proof.
  intros Hnone Hr Hok.
  assert (Hne : this ≠ other) by (destruct Hr as (Ho & _); intros ->; congruence).
  pose proof (Vector_copy_ctor_eval _ _ _ _ _ _ Hne Hr) as He.
  rewrite Hok in He. rewrite (bind_Ok _ _ _ _ _ He).
  erewrite Vector_dtor_eval
    by apply represents_set_env, represents_constructed.
  eexists. split; [done |].
  pose proof (constructed_restores s this xs Hnone) as Hres.
  rewrite free_block_set_env, objs_set_env.
  split.
  - apply (f_equal objs) in Hres. exact Hres.
  - apply (f_equal heap) in Hres. exact Hres.
Qed.

(** X5. A vector that was moved from is destroyed without releasing
    anything: after the move constructor and the destructor of the source,
    the new vector owns the block and the elements, the heap is as before,
    and the source object is gone. *)
Theorem move_then_destroy_source s this other buf xs cap :
  this ≠ other →
  represents s other buf xs cap →
  ∃ s', (Vector_move_ctor this other >> Vector_dtor other) s = (Ok (), s') ∧
        heap s' = heap s ∧
        objs s' !! other = None ∧
        represents s' this buf xs cap.
Proof.
  intros Hne Hr. pose proof Hr as (Ho & Hlen & Hb).
  rewrite (bind_Ok _ _ _ _ _ (Vector_move_ctor_eval _ _ _ _ Hne Ho)).
  erewrite (Vector_dtor_eval _ other nullptr [] 0).
  2:{ split; [| done]. rewrite objs_set_objs, lookup_insert_ne by done.
      apply lookup_insert_eq. }
  eexists. split; [done |]. split; [done |].
  split; [rewrite objs_set_objs; apply lookup_delete_eq |].
  split; [| done]. rewrite objs_set_objs. cbn [free_block block nullptr].
  rewrite objs_set_objs, lookup_delete_ne by done. apply lookup_insert_eq.
Qed.

(** X6. [Swap] exchanges the two vectors and touches no block; swapping
    twice gives the state back, and the order of the operands does not
    matter. *)
Theorem Swap_exchanges s this other buf xs cap obuf oxs ocap :
  represents s this buf xs cap →
  represents s other obuf oxs ocap →
  (∃ s', Vector_Swap this other s = (Ok (), s') ∧
         heap s' = heap s ∧
         represents s' this obuf oxs ocap ∧
         represents s' other buf xs cap) ∧
  (Vector_Swap this other >> Vector_Swap this other) s = (Ok (), s) ∧
  Vector_Swap other this s = Vector_Swap this other s.
Proof.
  intros Hr Hro. pose proof Hr as (Ho & Hlen & Hb).
  pose proof Hro as (Hoo & Hleno & Hbo).
  destruct (decide (this = other)) as [<- | Hne].
  { destruct (represents_inj _ _ _ _ _ _ _ _ Hr Hro) as (-> & -> & ->).
    rewrite (bind_Ok _ _ _ _ _ (Vector_Swap_self _ _ _ Ho)).
    rewrite (Vector_Swap_self _ _ _ Ho). split; [by eexists | done]. }
  rewrite (bind_Ok _ _ _ _ _ (Vector_Swap_eval _ _ _ _ _ Hne Ho Hoo)).
  rewrite (Vector_Swap_eval _ _ _ _ _ Hne Ho Hoo).
  rewrite (Vector_Swap_eval _ _ _ _ _ (not_eq_sym Hne) Hoo Ho).
  split; [| split].
  - eexists. split; [done |]. split; [done |]. split.
    + split; [| done]. rewrite objs_set_objs, lookup_insert_ne by done.
      apply lookup_insert_eq.
    + split; [| done]. rewrite objs_set_objs. apply lookup_insert_eq.
  - erewrite Vector_Swap_eval; [| done | |].
    2:{ rewrite objs_set_objs, lookup_insert_ne by done.
        apply lookup_insert_eq. }
    2:{ rewrite objs_set_objs. apply lookup_insert_eq. }
    f_equal. rewrite objs_set_objs, set_objs_set_objs.
    rewrite <- (set_objs_id s) at 3. f_equal.
    apply map_eq. intros i. rewrite !lookup_insert.
    repeat case_decide; subst; done.
  - f_equal. f_equal. apply map_eq. intros i. rewrite !lookup_insert.
    repeat case_decide; subst; done.
Qed.

End Lifetime.

(** * Access, [PopBack], [Resize] *)

Section AccessAndSize.
Context `{P : Payload}.

Lemma load_past_end s buf xs cap i :
  block_is s buf (slots_of xs cap) → length xs ≤ i →
  load (ptr_add buf i) s = (Abort, s).
Proof.
  intros [Hoff Hb] Hi. destruct buf as [[a |] o]; cbn [block off] in *;
    [| done].
  subst o. unfold load, bind, slot_at, ptr_add. cbn [block off].
  rewrite Hb. destruct (decide (i < cap)) as [Hc | Hc].
  - by rewrite lookup_slots_of_raw by lia.
  - rewrite (proj2 (lookup_ge_None _ _)); [done |].
    destruct (decide (length xs ≤ cap)); [rewrite length_slots_of; lia |].
    unfold slots_of. rewrite length_app, length_fmap, length_replicate. lia.
Qed.

(** X7. Element access: [begin()] is the start of the block, [end()] is
    [begin() + Size()], and neither changes anything.  For an index inside
    the vector [operator[]] returns [begin() + index], where the element of
    that index lives; for an index that is not, the assertion of
    [operator[]] fails, and there is no live element to read at that
    offset. *)
Theorem element_access s this buf xs cap :
  represents s this buf xs cap →
  Vector_begin this s = (Ok buf, s) ∧
  Vector_end this s = (Ok (ptr_add buf (length xs)), s) ∧
  Vector_Size this s = (Ok (length xs), s) ∧
  Vector_Capacity this s = (Ok cap, s) ∧
  (∀ i x, xs !! i = Some x →
     Vector_index this i s = (Ok (ptr_add buf i), s) ∧
     load (ptr_add buf i) s = (Ok x, s)) ∧
  (∀ i, length xs ≤ i →
     Vector_index this i s = (Abort, s) ∧
     load (ptr_add buf i) s = (Abort, s)).
Proof.
  intros Hr. pose proof Hr as (Ho & Hlen & Hb).
  split; [exact (Vector_begin_eq _ _ _ Ho) |].
  split; [exact (Vector_end_eq _ _ _ Ho) |].
  split.
  { unfold Vector_Size. by rewrite (bind_Ok _ _ _ _ _ (read_Ok _ _ _ Ho)). }
  split; [by eapply Vector_Capacity_eq |].
  split.
  - intros i x Hi. pose proof (lookup_lt_Some _ _ _ Hi) as Hlt.
    rewrite (Vector_index_eval _ _ _ _ _ _ Hr), decide_True by done.
    split; [done |]. eapply load_block; [done |]. unfold slots_of.
    rewrite lookup_app_l by by rewrite length_fmap.
    by rewrite list_lookup_fmap, Hi.
  - intros i Hi.
    rewrite (Vector_index_eval _ _ _ _ _ _ Hr), decide_False by lia.
    split; [done |]. by eapply load_past_end.
Qed.

(** X8. [PopBack]: on an empty vector the assertion fails and nothing is
    changed; otherwise the call returns with the last element removed, in
    the same block and with the same capacity, and no operation of the
    payload that may throw has run. *)
Theorem PopBack_removes_last s this buf xs cap :
  represents s this buf xs cap →
  (xs = [] → Vector_PopBack this s = (Abort, s)) ∧
  (∀ l x, xs = l ++ [x] →
     ∃ s', Vector_PopBack this s = (Ok (), s') ∧
           represents s' this buf l cap ∧
           env s' = env s).
Proof.
  intros Hr. split.
  - intros ->. by eapply Vector_PopBack_empty.
  - intros l x ->. rewrite (Vector_PopBack_eval _ _ _ _ _ _ Hr).
    pose proof Hr as (Ho & Hlen & Hb). eexists. split; [done |].
    split; [| by unfold updated; norm_state].
    eapply represents_updated; [done | by apply length_slots_of |].
    revert Hlen. rewrite length_app. lia.
Qed.

(** X9. [PushBack] then [PopBack]: when [PushBack] of a live value
    returns, the [PopBack] that follows returns with the elements and the
    size the vector had before; the capacity is the one [PushBack]
    left. *)
Theorem PushBack_then_PopBack s this buf xs cap value x s1 :
  represents s this buf xs cap →
  designates s buf value x →
  Vector_PushBack this value s = (Ok (), s1) →
  ∃ s2, Vector_PopBack this s1 = (Ok (), s2) ∧
        Vector_elems s2 this = Some xs ∧
        Vector_size s2 this = Some (length xs) ∧
        Vector_capacity s2 this
        = Some (if decide (length xs < cap) then cap else growth cap).
Proof.
  intros Hr Hv He. pose proof Hr as (Ho & Hlen & Hb).
  destruct (Vector_Insert_designated _ _ _ _ _ (length xs) _ _ Hr (le_n _) Hv)
    as (s0 & Hr0 & Hins).
  pose proof (emplaced_spec _ _ _ _ _ _ x Hr0 (le_n _)) as Hs.
  unfold Vector_PushBack, Vector_EmplaceBack in He.
  rewrite bind_assoc in He.
  rewrite (bind_Ok _ _ _ _ _ (Vector_end_eq _ _ _ Ho)) in He.
  cbn [data_ size_ buffer_] in He. unfold Vector_Insert in Hins.
  unfold bind in He.
  destruct Hins as [Hins | [Hins _] ]; rewrite Hins in He; [| done].
  destruct (emplaced this buf cap (length xs) x xs s0) as [[p | |] s1'];
    [| done | done].
  injection He as <-. destruct Hs as (buf' & _ & Hr1).
  rewrite inserted_end in Hr1.
  rewrite (Vector_PopBack_eval _ _ _ _ _ _ Hr1).
  pose proof Hr1 as (_ & Hlen1 & Hb1).
  assert (Hr2 : represents
                  (updated this buf'
                     (if decide (length xs < cap) then cap else growth cap)
                     xs s1')
                  this buf' xs
                  (if decide (length xs < cap) then cap else growth cap)).
  { eapply represents_updated; [done | by apply length_slots_of |].
    revert Hlen1. rewrite length_app. lia. }
  eexists. split; [done |]. split; [by eapply represents_elems |].
  split; [by eapply represents_size | by eapply represents_capacity].
Qed.

(** X10. [Resize] to a smaller size returns with the first [new_size]
    elements, in the same block and with the same capacity ([Resize(0)]
    empties the vector and keeps its storage); no operation of the payload
    that may throw has run. *)
Theorem Resize_shrinks s this buf xs cap n :
  represents s this buf xs cap →
  n < length xs →
  ∃ s', Vector_Resize this n s = (Ok (), s') ∧
        represents s' this buf (take n xs) cap ∧
        Vector_size s' this = Some n ∧
        env s' = env s.
Proof.
  intros Hr Hn. pose proof Hr as (Ho & Hlen & Hb).
  rewrite (Vector_Resize_shrink _ _ _ _ _ _ Hr Hn). eexists.
  split; [done |].
  assert (Hr' : represents (updated this buf cap (take n xs) s) this buf
                  (take n xs) cap).
  { eapply represents_updated; [done | by apply length_slots_of |].
    rewrite length_take. lia. }
  split; [done |]. split; [| by unfold updated; norm_state].
  rewrite (represents_size _ _ _ _ _ Hr'). f_equal. rewrite length_take. lia.
Qed.

End AccessAndSize.

Section Growing.
Context `{P : Payload}.

Lemma value_all_nothrow n w : nothrow → (value_all n w).1 = true.
Proof.
  intros (Hv & _). revert w. induction n as [| n IH]; intros w; [done |].
  cbn [value_all]. pose proof (Hv w) as Hw.
  destruct (value_construct w) as [[] w']; [apply IH | done].
Qed.

(** What [Reserve] leaves, with the capacity. *)
Lemma Vector_Reserve_exact s this buf xs cap n o s' :
  represents s this buf xs cap →
  Vector_Reserve this n s = (o, s') →
  match o with
  | Ok _ =>
      ∃ buf', represents s' this buf' xs (Nat.max cap n) ∧
              (n ≤ cap → s' = s ∧ buf' = buf)
  | Throw =>
      cap < n ∧ relocate_by_move = false ∧
      (copy_all xs (env s)).1 = false ∧ ∃ w, s' = set_env w s
  | Abort => False
  end.
Proof.
  intros Hr He. pose proof Hr as (Ho & Hlen & Hb).
  destruct (decide (n ≤ cap)) as [Hn | Hn].
  - rewrite (Vector_Reserve_noop _ _ _ _ _ _ Hr Hn) in He.
    injection He as <- <-. exists buf. rewrite Nat.max_l by done. done.
  - rewrite (Vector_Reserve_grow _ _ _ _ _ _ Hr) in He by lia.
    assert (Hrel : represents (relocated this buf n xs s) this
                     (new_buffer n s) xs (Nat.max cap n)).
    { rewrite Nat.max_r by lia.
      eapply represents_relocated; [done | lia | lia]. }
    destruct relocate_by_move.
    + injection He as <- <-. eexists. split; [done | lia].
    + destruct (copy_all xs (env s)) as [[] w]; cbn [fst snd] in He;
        injection He as <- <-.
      * eexists. split; [by apply represents_set_env | lia].
      * split; [lia |]. split; [done |]. split; [done | by eauto].
Qed.

(** What [Resize] to a larger size leaves. *)
Lemma Vector_Resize_grow_exact s this buf xs cap n o s' :
  represents s this buf xs cap → length xs < n →
  Vector_Resize this n s = (o, s') →
  match o with
  | Ok _ =>
      ∃ buf',
        represents s' this buf' (xs ++ replicate (n - length xs) value_init)
          (Nat.max cap n) ∧
        (n ≤ cap → buf' = buf)
  | Throw =>
      ∃ buf' cap',
        represents s' this buf' xs cap' ∧
        (cap' = cap ∨ cap' = n) ∧
        (n ≤ cap → ∃ w, s' = set_env w s)
  | Abort => False
  end.
Proof.
  intros Hr Hn. pose proof Hr as (Ho & Hlen & Hb).
  unfold Vector_Resize.
  rewrite (bind_Ok _ _ _ _ _ (read_Ok _ _ _ Ho)). cbn [size_].
  rewrite decide_False, decide_True by lia.
  destruct (Vector_Reserve this n s) as [o1 s1] eqn:Hres.
  pose proof (Vector_Reserve_exact _ _ _ _ _ _ _ _ Hr Hres) as H1.
  destruct o1 as [[] | |]; [| | done].
  2:{ rewrite (bind_Throw _ _ _ _ Hres). intros [= <- <-].
      destruct H1 as (Hcap & _ & _ & w & ->). exists buf, cap.
      split; [by apply represents_set_env |]. split; [by left | lia]. }
  rewrite (bind_Ok _ _ _ _ _ Hres).
  destruct H1 as (buf1 & Hr1 & Hsame).
  set (cap1 := Nat.max cap n) in *.
  assert (Hcap1 : n ≤ cap1) by (unfold cap1; lia).
  pose proof Hr1 as (Ho1 & Hlen1 & Hb1).
  rewrite (bind_Ok _ _ _ _ _ (read_Ok _ _ _ Ho1)).
  cbn [data_ size_ buffer_ RawMemory_GetAddress].
  unfold bind at 1.
  assert (Hb1' : block_is s1 buf1
            ((Live <$> xs) ++ replicate (n - length xs) Raw
               ++ replicate (cap1 - n) Raw)).
  { rewrite <- replicate_add.
    by replace (n - length xs + (cap1 - n)) with (cap1 - length xs) by lia. }
  rewrite <- (length_fmap Live xs) at 1.
  rewrite (uninitialized_value_construct_n_block _ _ _ _ _ Hb1').
  destruct (value_all (n - length xs) (env s1)) as [[] w]; cbn [fst snd].
  - erewrite set_size_eq; [| norm_state; apply Ho1].
    intros [= <- <-]. exists buf1. cbn [data_].
    split; [| intros Hle; by destruct (Hsame Hle)].
    split; [| split].
    + norm_state. rewrite lookup_insert_eq. do 3 f_equal. solve_length.
    + solve_length.
    + apply block_is_set_objs, block_is_set_env.
      eapply block_is_eq; [eapply block_is_set; [done |]; solve_length |].
      unfold slots_of. rewrite fmap_app, fmap_replicate, <- app_assoc.
      do 3 f_equal. solve_length.
  - intros [= <- <-]. exists buf1, cap1.
    split; [by apply represents_set_env |].
    split; [unfold cap1; lia |].
    intros Hle. destruct (Hsame Hle) as [-> _]. by eauto.
Qed.

(** X11. [Resize] to a larger size that the allocator can serve.  A call
    that returns has appended value-initialised elements up to the new
    size; the capacity is the old one if it was enough, and then the block
    is the same, and it is exactly the new size otherwise.  When the
    elements are relocated by a [noexcept] move or by copy (the payload
    has one of the two), a call that throws has kept the elements and the
    size, but the capacity may already be the new size; if the old
    capacity was enough, only the payload environment has changed.  With
    such a payload, if its copies and value initialisations do not throw,
    the call returns. *)
Theorem Resize_grows s this buf xs cap n :
  represents s this buf xs cap →
  length xs < n →
  allocatable n →
  (∀ s', Vector_Resize this n s = (Ok (), s') →
     ∃ buf',
       represents s' this buf' (xs ++ replicate (n - length xs) value_init)
         (Nat.max cap n) ∧
       Vector_size s' this = Some n ∧
       (n ≤ cap → buf' = buf)) ∧
  (is_nothrow_move_constructible = true ∨ is_copy_constructible = true →
   ∀ s', Vector_Resize this n s = (Throw, s') →
     (∃ buf' cap',
        represents s' this buf' xs cap' ∧ (cap' = cap ∨ cap' = n)) ∧
     (n ≤ cap → objs s' = objs s ∧ heap s' = heap s)) ∧
  (is_nothrow_move_constructible = true ∨ is_copy_constructible = true →
   nothrow → ∃ s', Vector_Resize this n s = (Ok (), s')).
Proof.
  intros Hr Hn _. split; [| split].
  - intros s' He.
    pose proof (Vector_Resize_grow_exact _ _ _ _ _ _ _ _ Hr Hn He)
      as (buf' & Hr' & Hbuf).
    exists buf'. split; [done |]. split; [| done].
    rewrite (represents_size _ _ _ _ _ Hr'). f_equal.
    rewrite length_app, length_replicate. lia.
  - intros _ s' He.
    pose proof (Vector_Resize_grow_exact _ _ _ _ _ _ _ _ Hr Hn He)
      as (buf' & cap' & Hr' & Hcap & Hsame).
    split; [by eauto |]. intros Hle. by destruct (Hsame Hle) as [w ->].
  - intros _ Hnt. pose proof Hr as (Ho & Hlen & Hb).
    destruct (Vector_Resize this n s) as [[[] | |] s'] eqn:He.
    + by eauto.
    + exfalso. revert He. unfold Vector_Resize.
      rewrite (bind_Ok _ _ _ _ _ (read_Ok _ _ _ Ho)). cbn [size_].
      rewrite decide_False, decide_True by lia.
      destruct (Vector_Reserve this n s) as [o1 s1] eqn:Hres.
      pose proof (Vector_Reserve_exact _ _ _ _ _ _ _ _ Hr Hres) as H1.
      destruct o1 as [[] | |]; [| | done].
      2:{ destruct H1 as (_ & _ & Hc & _).
          by rewrite (copy_all_nothrow _ _ Hnt) in Hc. }
      rewrite (bind_Ok _ _ _ _ _ Hres).
      destruct H1 as (buf1 & Hr1 & _).
      pose proof Hr1 as (Ho1 & Hlen1 & Hb1).
      rewrite (bind_Ok _ _ _ _ _ (read_Ok _ _ _ Ho1)).
      cbn [data_ size_ buffer_ RawMemory_GetAddress].
      unfold bind at 1.
      assert (Hb1' : block_is s1 buf1
                ((Live <$> xs) ++ replicate (n - length xs) Raw
                   ++ replicate (Nat.max cap n - n) Raw)).
      { rewrite <- replicate_add.
        by replace (n - length xs + (Nat.max cap n - n))
          with (Nat.max cap n - length xs) by lia. }
      rewrite <- (length_fmap Live xs) at 1.
      rewrite (uninitialized_value_construct_n_block _ _ _ _ _ Hb1').
      rewrite (value_all_nothrow _ _ Hnt).
      by erewrite set_size_eq; [| norm_state; apply Ho1].
    + by pose proof (Vector_Resize_grow_exact _ _ _ _ _ _ _ _ Hr Hn He).
Qed.

End Growing.

(** * [Erase] and the checks on positions *)

Section Erasing.
Context `{P : Payload}.

Lemma Vector_Erase_at s this buf xs cap index y :
  represents s this buf xs cap → xs !! index = Some y →
  Vector_Erase this (ptr_add buf index) s
  = if relocate_by_move then
      (Ok (ptr_add buf index), updated this buf cap (erased index xs) s)
    else if (shift_copy y (drop (S index) xs) (env s)).1.2 then
      (Ok (ptr_add buf index),
       set_env (shift_copy y (drop (S index) xs) (env s)).2
         (updated this buf cap (erased index xs) s))
    else
      (if is_nothrow_move_assignable then Abort else Throw,
       set_env (shift_copy y (drop (S index) xs) (env s)).2
         (set_block buf
            (slots_of
               (take index xs
                  ++ (shift_copy y (drop (S index) xs) (env s)).1.1) cap) s)).
Proof.
  intros Hr Hy. destruct (erased_split _ _ _ Hy) as [Hxs HA].
  rewrite Hxs in Hr.
  pose proof (Vector_Erase_eval _ _ _ _ _ _ _ Hr) as He.
  by rewrite HA in He.
Qed.

(** X12. [Erase] at the position of an element.  A call that returns
    has removed that element and returns the same position; the block and
    the capacity are the same.  When elements are relocated by move and
    the move assignment is [noexcept], the call always returns, and no
    operation of the payload that may throw has run.  A call that throws
    (a copy assignment of the shift did) has kept the size and the
    elements before the position. *)
Theorem Erase_removes s this buf xs cap index :
  represents s this buf xs cap →
  index < length xs →
  (∀ q s', Vector_Erase this (ptr_add buf index) s = (Ok q, s') →
     q = ptr_add buf index ∧
     represents s' this buf (erased index xs) cap ∧
     Vector_size s' this = Some (length xs - 1)) ∧
  (relocate_by_move = true → is_nothrow_move_assignable = true →
   ∃ s', Vector_Erase this (ptr_add buf index) s
         = (Ok (ptr_add buf index), s') ∧
         env s' = env s) ∧
  (∀ s', Vector_Erase this (ptr_add buf index) s = (Throw, s') →
     ∃ xs', represents s' this buf xs' cap ∧
            length xs' = length xs ∧
            take index xs' = take index xs).
Proof.
  intros Hr Hidx. pose proof Hr as (Ho & Hlen & Hb).
  destruct (lookup_lt_is_Some_2 xs index Hidx) as [y Hy].
  rewrite (Vector_Erase_at _ _ _ _ _ _ _ Hr Hy).
  pose proof (erased_length xs index Hidx) as Hel.
  assert (Hup : represents (updated this buf cap (erased index xs) s) this buf
                  (erased index xs) cap).
  { eapply represents_updated; [done | by apply length_slots_of | lia]. }
  assert (Hsz : Vector_size (updated this buf cap (erased index xs) s) this
                = Some (length xs - 1)).
  { rewrite (represents_size _ _ _ _ _ Hup). f_equal. lia. }
  destruct relocate_by_move.
  - split; [| split; [| done] ].
    + by intros q s' [= <- <-].
    + intros _ _. eexists. split; [done |]. unfold updated. by norm_state.
  - pose proof (shift_copy_length y (drop (S index) xs) (env s)) as Hl.
    destruct (shift_copy y (drop (S index) xs) (env s)) as [[l []] w];
      cbn [fst snd] in *.
    + split; [| split; [done | done] ].
      intros q s' [= <- <-]. split; [done |].
      split; [by apply represents_set_env | done].
    + split; [by destruct is_nothrow_move_assignable |].
      split; [done |].
      destruct is_nothrow_move_assignable; [done |].
      intros s' [= <-]. exists (take index xs ++ l).
      assert (Hll : length (take index xs ++ l) = length xs).
      { rewrite length_app, length_take, Hl, length_drop. lia. }
      split; [| split; [done |] ].
      * apply represents_set_env.
        split; [by rewrite objs_set_block, Hll |]. split; [lia |].
        eapply block_is_set; [done |]. rewrite !length_slots_of; lia.
      * rewrite take_app_length'; [done |]. rewrite length_take. lia.
Qed.

(** X13. [Erase] is declared [noexcept] when the move assignment of the
    payload is, but it shifts by copy assignment when elements are
    relocated by copy: if then a copy assignment of the shift throws, the
    exception meets the [noexcept] boundary and the program is
    terminated. *)
Theorem Erase_terminates s this buf xs cap index y :
  represents s this buf xs cap →
  xs !! index = Some y →
  relocate_by_move = false →
  is_nothrow_move_assignable = true →
  (shift_copy y (drop (S index) xs) (env s)).1.2 = false →
  is_Abort (Vector_Erase this (ptr_add buf index) s).1 = true.
Proof.
  intros Hr Hy Hpolicy Hnoexcept Hthrow.
  by rewrite (Vector_Erase_at _ _ _ _ _ _ _ Hr Hy), Hpolicy, Hthrow, Hnoexcept.
Qed.

(** X14. Positions are checked by assertions: [Emplace] and [Insert]
    accept the positions of the elements and [end()], [Erase] the positions
    of the elements only.  A position in another block, or past those,
    fails the assertion and nothing is changed; in particular
    [Erase(end())] does. *)
Theorem position_checks s this buf xs cap :
  represents s this buf xs cap →
  (∀ pos args,
     block pos ≠ block buf ∨ length xs < off pos →
     Vector_Emplace this pos args s = (Abort, s) ∧
     Vector_Insert this pos args s = (Abort, s)) ∧
  (∀ pos,
     block pos ≠ block buf ∨ length xs ≤ off pos →
     Vector_Erase this pos s = (Abort, s)) ∧
  Vector_Erase this (ptr_add buf (length xs)) s = (Abort, s).
Proof.
  intros Hr. pose proof Hr as (Ho & Hlen & Hb).
  assert (He : ∀ pos, block pos ≠ block buf ∨ length xs ≤ off pos →
                 Vector_Erase this pos s = (Abort, s)).
  { intros pos Hpos. eapply Vector_Erase_bad_position; [done |].
    intros [? ?]. destruct Hpos; [done | lia]. }
  split; [| split; [exact He |] ].
  - intros pos args Hpos. unfold Vector_Insert.
    assert (Vector_Emplace this pos args s = (Abort, s)); [| done].
    eapply Vector_Emplace_bad_position; [done |].
    intros [? ?]. destruct Hpos; [done | lia].
  - apply He. right. unfold ptr_add. cbn [off]. lia.
Qed.

End Erasing.

(** * More on insertion *)

Section Inserting.
Context `{P : Payload}.

(** X15. Strong exception safety of [Insert] (and [Emplace]) of a copy
    of a live object, for a copyable payload, when the call appends, or
    the vector is full, or the moves of the payload are [noexcept] (the
    shift within the block moves whatever the traits): a call that throws
    has left every vector object and every block as before, and it throws
    only if the copy of the argument throws or if the vector is full,
    relocation is by copy, and the copy of an element throws.  So with
    room, or with relocation by move, the call returns when the copy of
    the argument does. *)
Theorem Insert_strong_exception_safety s this buf xs cap index src x :
  represents s this buf xs cap →
  index ≤ length xs →
  load src s = (Ok x, s) →
  is_copy_constructible = true →
  index = length xs ∨ length xs = cap ∨ noexcept_moves →
  (∀ s', Vector_Insert this (ptr_add buf index) (ByCopy src) s = (Throw, s') →
     objs s' = objs s ∧ heap s' = heap s ∧
     ((copy_construct x (env s)).1 = false ∨
      length xs = cap ∧ relocate_by_move = false)) ∧
  ((copy_construct x (env s)).1 = true →
   length xs < cap ∨ relocate_by_move = true →
   ∃ p s', Vector_Insert this (ptr_add buf index) (ByCopy src) s = (Ok p, s')).
Proof.
  intros Hr Hidx Hl _ _. unfold Vector_Insert.
  rewrite (Vector_Emplace_copy _ _ _ _ _ _ _ _ Hr Hidx Hl).
  destruct (copy_construct x (env s)) as [[] w]; cbn [fst snd].
  - pose proof (emplaced_spec (set_env w s) this buf xs cap index x
                  (represents_set_env _ w _ _ _ _ Hr) Hidx) as Hs.
    split.
    + intros s' He. rewrite He in Hs. destruct Hs as (Hfull & Hpol & _ & ->).
      split; [done |]. split; [done |]. by right.
    + intros _ Hroom. unfold emplaced in *.
      destruct (decide (length xs < cap)); [by eexists _, _ |].
      destruct Hroom as [? | ->]; [done | by eexists _, _].
  - split; [| done]. intros s' [= <-]. split; [done |]. split; [done |].
    by left.
Qed.

(** X16. [Insert] into a vector with spare capacity does not reallocate:
    a call that returns has put the value at the position, in the same
    block and with the same capacity, and returns that position.  When
    the moves the call runs are [noexcept] (at the end, the move of an
    rvalue argument; before it, the shift as well), it returns unless the
    copy of the argument throws. *)
Theorem Insert_with_room s this buf xs cap index value x :
  represents s this buf xs cap →
  index ≤ length xs →
  length xs < cap →
  designates s buf value x →
  (∀ p s', Vector_Insert this (ptr_add buf index) value s = (Ok p, s') →
     p = ptr_add buf index ∧
     represents s' this buf (inserted index x xs) cap) ∧
  ((index = length xs ∧
    (∀ src, value = ByMove src → is_nothrow_move_constructible = true)) ∨
   noexcept_moves →
   (∀ src, value = ByCopy src → (copy_construct x (env s)).1 = true) →
   ∃ s', Vector_Insert this (ptr_add buf index) value s
         = (Ok (ptr_add buf index), s')).
Proof.
  intros Hr Hidx Hroom Hv.
  destruct (Vector_Insert_of_designated _ _ _ _ _ _ _ _ Hr Hidx Hv)
    as (s0 & Hr0 & _ & _ & Hins).
  pose proof Hr0 as (_ & Hlen0 & Hb0).
  assert (Hem : emplaced this buf cap index x xs s0
                = (Ok (ptr_add buf index),
                   updated this buf cap (inserted index x xs) s0)).
  { unfold emplaced. by rewrite decide_True. }
  assert (Hup : represents (updated this buf cap (inserted index x xs) s0)
                  this buf (inserted index x xs) cap).
  { eapply represents_updated; [done | by apply length_slots_of |].
    rewrite inserted_length. lia. }
  split.
  - intros p s' He. destruct Hins as [Hins | [Hins _] ]; [| congruence].
    rewrite Hins, Hem in He. by injection He as <- <-.
  - intros _ Hcopy. destruct Hins as [Hins | (_ & src & -> & Hc) ].
    + rewrite Hins, Hem. by eexists.
    + by rewrite (Hcopy src eq_refl) in Hc.
Qed.

Lemma load_element s this buf xs cap i x :
  represents s this buf xs cap → xs !! i = Some x →
  load (ptr_add buf i) s = (Ok x, s).
Proof.
  intros (_ & _ & Hb) Hi. eapply load_block; [done |]. unfold slots_of.
  rewrite lookup_app_l by (rewrite length_fmap; by eapply lookup_lt_Some).
  by rewrite list_lookup_fmap, Hi.
Qed.

(** X17. [EmplaceBack] returns a reference to the new element: when it
    returns, the address it gives is that of the last element, the new
    one, whose value is the designated one; the elements before are as
    they were. *)
Theorem EmplaceBack_returns_new_element s this buf xs cap args x p s' :
  represents s this buf xs cap →
  designates s buf args x →
  Vector_EmplaceBack this args s = (Ok p, s') →
  load p s' = (Ok x, s') ∧
  Vector_end this s' = (Ok (ptr_add p 1), s') ∧
  Vector_elems s' this = Some (xs ++ [x]).
Proof.
  intros Hr Hv He. pose proof Hr as (Ho & Hlen & Hb).
  destruct (Vector_Insert_of_designated _ _ _ _ _ (length xs) _ _ Hr (le_n _) Hv)
    as (s0 & Hr0 & _ & _ & Hins).
  pose proof (emplaced_spec _ _ _ _ _ _ x Hr0 (le_n _)) as Hs.
  unfold Vector_EmplaceBack in He.
  rewrite (bind_Ok _ _ _ _ _ (Vector_end_eq _ _ _ Ho)) in He.
  cbn [data_ size_ buffer_] in He. unfold Vector_Insert in Hins.
  destruct Hins as [Hins | [Hins _] ]; rewrite Hins in He; [| done].
  rewrite He in Hs. destruct Hs as (buf' & -> & Hr1).
  rewrite inserted_end in Hr1. pose proof Hr1 as (Ho1 & _).
  split; [| split].
  - eapply load_element; [done |]. by apply list_lookup_middle.
  - rewrite (Vector_end_eq _ _ _ Ho1). cbn [data_ size_ buffer_].
    by rewrite length_app, ptr_add_add.
  - by eapply represents_elems.
Qed.

(** X18. [Insert] of an rvalue, for a payload whose move constructor and
    move assignment are [noexcept] (what the source needs for its moves
    not to throw, as the embedding has them; allocation succeeds, as
    everywhere in the embedding): the call returns, whatever the capacity;
    the value the object had is inserted at the position, the object
    (outside the vector) is left moved-from, and no operation of the
    payload that may throw has run. *)
Theorem Insert_rvalue s this buf xs cap index src x :
  is_nothrow_move_constructible = true →
  is_nothrow_move_assignable = true →
  represents s this buf xs cap →
  index ≤ length xs →
  live_outside s buf src x →
  ∃ p s',
    Vector_Insert this (ptr_add buf index) (ByMove src) s = (Ok p, s') ∧
    off p = index ∧
    Vector_elems s' this = Some (inserted index x xs) ∧
    load src s' = (Ok (moved_from x), s') ∧
    env s' = env s.
Proof.
  intros Hmc _ Hr Hidx Hsrc.
  assert (Hpol : relocate_by_move = true)
    by (unfold relocate_by_move; by rewrite Hmc).
  pose proof Hsrc as (a & blk & Ha & Hne & Hh & Hi).
  destruct src as [b i]. cbn [block off] in *. subst b.
  assert (Hp : block_is s (Ptr (Some a) 0) blk) by done.
  assert (Hsep : separate (Ptr (Some a) 0) buf) by (intros c [= <-]; done).
  pose proof (Vector_Emplace_move _ _ _ _ _ index _ _ _ _ Hr Hidx Hp Hi Hsep)
    as He.
  unfold ptr_add at 2 in He. cbn [block off Nat.add] in He.
  unfold Vector_Insert. rewrite He.
  set (s1 := set_block (Ptr (Some a) 0) (<[i := Live (moved_from x)]> blk) s)
    in *.
  assert (Hr1 : represents s1 this buf xs cap)
    by by apply represents_other_set_block.
  assert (Hsrc1 : live_outside s1 buf (Ptr (Some a) i) (moved_from x)).
  { exists a, (<[i := Live (moved_from x)]> blk). cbn [block off].
    split; [done |]. split; [done |].
    split; [apply lookup_insert_eq |].
    apply list_lookup_insert_eq. by eapply lookup_lt_Some. }
  pose proof Hr1 as (_ & Hlen1 & Hb1).
  pose proof (growth_gt cap) as Hg.
  unfold emplaced. rewrite Hpol.
  destruct (decide (length xs < cap)) as [Hroom | Hfull].
  - eexists _, _. split; [done |].
    split; [unfold ptr_add; cbn [off]; rewrite (proj1 Hb1); lia |].
    split; [| split; [| by unfold updated, s1; norm_state] ].
    + eapply represents_elems. eapply represents_updated;
        [done | by apply length_slots_of | rewrite inserted_length; lia].
    + eapply live_outside_load. by apply live_outside_updated.
  - eexists _, _. split; [done |].
    split; [unfold ptr_add; cbn [off]; rewrite new_buffer_off; lia |].
    split; [| split; [| by unfold relocated, s1; norm_state] ].
    + eapply represents_elems. eapply represents_relocated;
        [done | rewrite inserted_length; lia | lia].
    + eapply live_outside_load. by apply live_outside_relocated.
Qed.

End Inserting.

(** * [Reserve] and what follows *)

Section Reserving.
Context `{P : Payload}.

(** [Emplace] with spare capacity, whatever the position and the
    arguments: a call that returns has used the same block. *)
Lemma Vector_Emplace_room s this buf xs cap pos args p s' :
  represents s this buf xs cap →
  length xs < cap →
  Vector_Emplace this pos args s = (Ok p, s') →
  ∃ xs', length xs' = S (length xs) ∧ represents s' this buf xs' cap.
Proof.
  intros Hr Hroom He. pose proof Hr as (Ho & Hlen & Hb).
  destruct (decide (block pos = block buf ∧ off pos ≤ length xs))
    as [[Hblock Hoff] | Hbad].
  2:{ by rewrite (Vector_Emplace_bad_position _ _ _ _ _ _ _ Hr Hbad) in He. }
  rewrite (position_ptr_add _ _ Hblock (proj1 Hb)) in He.
  destruct (T_ctor args s) as [o1 s1] eqn:Hc.
  pose proof (T_ctor_result _ _ _ _ Hc) as Hres.
  destruct o1 as [x | |].
  - destruct Hres as (Hca & Hobjs & Hdom & Hshape & _).
    destruct (Hshape _ _ Hb) as (blk1 & Hb1 & Hs).
    destruct (shape_slots_of _ _ _ Hs) as (xs1 & Hlen1 & ->).
    rewrite (Vector_Emplace_eval s s1 this buf xs xs1 cap args x) in He
      by done.
    unfold emplaced in He. rewrite decide_True in He by lia.
    injection He as <- <-. exists (inserted (off pos) x xs1).
    split; [by rewrite inserted_length, Hlen1 |].
    eapply represents_updated; [done | apply length_slots_of; lia |].
    rewrite inserted_length. lia.
  - destruct Hres as (Hca & Hobjs & Hdom & _ & Hw).
    by rewrite (Vector_Emplace_ctor_throws _ _ _ _ _ _ _ _ Hr Hoff Hc Hca Hdom)
      in He.
  - destruct (Vector_Emplace_ctor_aborts _ _ _ _ _ _ _ _ Hr Hoff Hc Hres)
      as [s'' Hs'']. by rewrite Hs'' in He.
Qed.

Lemma push_backs_within_capacity this buf cap values : ∀ s xs cs s',
  represents s this buf xs cap →
  length xs + length values ≤ cap →
  push_backs this values s = (Ok cs, s') →
  cs = replicate (length values) cap ∧
  ∃ xs', length xs' = length xs + length values ∧
         represents s' this buf xs' cap.
Proof.
  induction values as [| v values IH]; intros s xs cs s' Hr Hlen He.
  - injection He as <- <-. split; [done |]. exists xs. split; [| done].
    cbn [length]. lia.
  - cbn [push_backs length] in *. unfold bind at 1 in He.
    destruct (Vector_PushBack this v s) as [o s1] eqn:Hp.
    destruct o as [[] | |]; [| done | done].
    pose proof Hr as (Ho & _).
    unfold Vector_PushBack, Vector_EmplaceBack in Hp.
    rewrite bind_assoc in Hp.
    rewrite (bind_Ok _ _ _ _ _ (Vector_end_eq _ _ _ Ho)) in Hp.
    cbn [data_ size_ buffer_] in Hp. unfold bind in Hp.
    destruct (Vector_Emplace this (ptr_add buf (length xs)) v s)
      as [[p | |] s1'] eqn:Hem; [| done | done].
    injection Hp as ->.
    assert (Hroom : length xs < cap) by lia.
    destruct (Vector_Emplace_room _ _ _ _ _ _ _ _ _ Hr Hroom Hem)
      as (xs1 & Hlen1 & Hr1).
    rewrite (bind_Ok _ _ _ _ _ (Vector_Capacity_eq _ _ _ _ _ Hr1)) in He.
    unfold bind at 1 in He.
    destruct (push_backs this values s1) as [[cs' | |] s2] eqn:Hrest;
      [| done | done].
    injection He as <- <-.
    assert (Hfit : length xs1 + length values ≤ cap) by lia.
    destruct (IH _ _ _ _ Hr1 Hfit Hrest) as (-> & xs' & Hlen' & Hr').
    split; [done |]. exists xs'. split; [lia | done].
Qed.

(** X19. After [Reserve(n)] the appends that fit do not reallocate: when
    [Reserve(n)] and then a run of [PushBack] that takes the size to at
    most [n] return, whatever the arguments, the capacity read after each
    [PushBack] is the one [Reserve] left, [max(capacity, n)], and the
    block is the one [Reserve] left. *)
Theorem Reserve_then_append s this buf xs cap n values s1 cs s2 :
  represents s this buf xs cap →
  Vector_Reserve this n s = (Ok (), s1) →
  length xs + length values ≤ n →
  push_backs this values s1 = (Ok cs, s2) →
  cs = replicate (length values) (Nat.max cap n) ∧
  Vector_buffer s2 this = Vector_buffer s1 this ∧
  Vector_capacity s2 this = Some (Nat.max cap n) ∧
  Vector_size s2 this = Some (length xs + length values).
Proof.
  intros Hr Hres Hlen Hpush.
  pose proof (Vector_Reserve_exact _ _ _ _ _ _ _ _ Hr Hres) as (buf1 & Hr1 & _).
  assert (Hfit : length xs + length values ≤ Nat.max cap n) by lia.
  destruct (push_backs_within_capacity _ _ _ _ _ _ _ _ Hr1 Hfit Hpush)
    as (-> & xs' & Hlen' & Hr2).
  split; [done |].
  rewrite (represents_buffer _ _ _ _ _ Hr1), (represents_buffer _ _ _ _ _ Hr2).
  rewrite (represents_capacity _ _ _ _ _ Hr2).
  rewrite (represents_size _ _ _ _ _ Hr2), Hlen'. done.
Qed.

Lemma heap_relocated s this buf n xs a :
  n ≠ 0 →
  heap (relocated this buf n xs s) !! a
  = if decide (block buf = Some a) then None
    else if decide (block (new_buffer n s) = Some a)
         then Some (slots_of xs n)
         else heap s !! a.
Proof.
  intros Hn. unfold relocated, free_block, set_block, alloc_block, new_buffer.
  rewrite !decide_True by done. cbn [block heap set_objs set_heap].
  destruct (block buf) as [b |]; cbn [heap set_heap].
  - destruct (decide (Some b = Some a)) as [[= ->] | Hb].
    + apply lookup_delete_eq.
    + rewrite lookup_delete_ne by congruence.
      destruct (decide (Some (fresh (dom (heap s))) = Some a)) as [[= <-] | Hf].
      * apply lookup_insert_eq.
      * rewrite !lookup_insert_ne by congruence. done.
  - rewrite decide_False by done.
    destruct (decide (Some (fresh (dom (heap s))) = Some a)) as [[= <-] | Hf].
    + apply lookup_insert_eq.
    + rewrite !lookup_insert_ne by congruence. done.
Qed.

(** X20. A [Reserve] that grows the storage and returns has moved the
    vector to a block that did not exist before and has released the old
    block; every other block of the heap and every other vector object
    are as before. *)
Theorem Reserve_releases_old_block s this buf xs cap n s' :
  represents s this buf xs cap →
  cap < n →
  Vector_Reserve this n s = (Ok (), s') →
  ∃ a', represents s' this (Ptr (Some a') 0) xs n ∧
        heap s !! a' = None ∧
        (∀ a, block buf = Some a → heap s' !! a = None) ∧
        (∀ a, block buf ≠ Some a → a ≠ a' → heap s' !! a = heap s !! a) ∧
        (∀ other, other ≠ this → objs s' !! other = objs s !! other).
Proof.
  intros Hr Hn He. pose proof Hr as (Ho & Hlen & Hb).
  rewrite (Vector_Reserve_grow _ _ _ _ _ _ Hr Hn) in He.
  assert (Hnb : new_buffer n s = Ptr (Some (fresh (dom (heap s)))) 0).
  { unfold new_buffer. by rewrite decide_True by lia. }
  assert (Hrel : represents (relocated this buf n xs s) this
                   (Ptr (Some (fresh (dom (heap s)))) 0) xs n).
  { rewrite <- Hnb. eapply represents_relocated; [done | lia | lia]. }
  assert (Hold : ∀ a, block buf = Some a → fresh (dom (heap s)) ≠ a).
  { intros a Ha <-. destruct Hb as [_ Hb]. rewrite Ha in Hb.
    by rewrite fresh_heap_None in Hb. }
  assert (Hgoal : ∀ w, ∃ a',
    represents (set_env w (relocated this buf n xs s)) this (Ptr (Some a') 0)
      xs n ∧
    heap s !! a' = None ∧
    (∀ a, block buf = Some a →
       heap (set_env w (relocated this buf n xs s)) !! a = None) ∧
    (∀ a, block buf ≠ Some a → a ≠ a' →
       heap (set_env w (relocated this buf n xs s)) !! a = heap s !! a) ∧
    (∀ other, other ≠ this →
       objs (set_env w (relocated this buf n xs s)) !! other
       = objs s !! other)).
  { intros w. exists (fresh (dom (heap s))).
    split; [by apply represents_set_env |].
    split; [apply fresh_heap_None |].
    split; [| split].
    - intros a Ha. rewrite heap_set_env, heap_relocated by lia.
      by rewrite decide_True.
    - intros a Ha Hne. rewrite heap_set_env, heap_relocated by lia.
      rewrite decide_False by done. rewrite Hnb. cbn [block].
      rewrite decide_False; [done | congruence].
    - intros other Hne. unfold relocated.
      by rewrite objs_set_env, objs_set_objs, lookup_insert_ne. }
  destruct relocate_by_move.
  - injection He as <-. specialize (Hgoal (env s)).
    assert (Hid : set_env (env s) (relocated this buf n xs s)
                  = relocated this buf n xs s).
    { rewrite <- (set_env_id (relocated this buf n xs s)) at 2. f_equal.
      unfold relocated. by norm_state. }
    by rewrite Hid in Hgoal.
  - destruct (copy_all xs (env s)) as [[] w]; cbn [fst snd] in He; [| done].
    injection He as <-. apply Hgoal.
Qed.

End Reserving.

(** * Raw storage, and copy assignment that throws *)

Section Storage.
Context `{P : Payload}.

Lemma free_block_comm p q (s : state) :
  free_block p (free_block q s) = free_block q (free_block p s).
Proof.
  unfold free_block. destruct (block p) as [a |], (block q) as [b |];
    try done.
  unfold set_heap. cbn [heap objs env]. f_equal. apply delete_delete.
Qed.

(** X21. Raw storage is released once and only once.  For numbers of
    slots the allocator can serve, a [RawMemory] of [n] slots is a fresh
    block of [n] raw slots, or the null handle and no block for [n = 0];
    destroying it gives the state back.  After a move construction, a
    move assignment or a [Swap] between two of them, destroying all the
    objects involved still gives the state back: no block is leaked and
    none is released twice. *)
Theorem RawMemory_ownership s n m :
  allocatable n → allocatable m →
  (∃ d s1, RawMemory_ctor n s = (Ok d, s1) ∧
           capacity_ d = n ∧
           block_is s1 (buffer_ d) (replicate n Raw) ∧
           (n = 0 → buffer_ d = nullptr ∧ s1 = s) ∧
           (n ≠ 0 → ∃ a, buffer_ d = Ptr (Some a) 0 ∧ heap s !! a = None) ∧
           RawMemory_dtor d s1 = (Ok (), s)) ∧
  (a <- RawMemory_ctor n;;
   let (b, a') := RawMemory_move_ctor a in
   RawMemory_dtor a' >> RawMemory_dtor b) s = (Ok (), s) ∧
  (a <- RawMemory_ctor n;;
   b <- RawMemory_ctor m;;
   r <- RawMemory_move_assign a b;;
   RawMemory_dtor (snd r) >> RawMemory_dtor (fst r)) s = (Ok (), s) ∧
  (a <- RawMemory_ctor n;;
   b <- RawMemory_ctor m;;
   let (a', b') := RawMemory_Swap a b in
   RawMemory_dtor b' >> RawMemory_dtor a') s = (Ok (), s).
Proof.
  intros _ _.
  assert (Hdel : ∀ k s0, RawMemory_dtor
                   {| buffer_ := new_buffer k s0; capacity_ := k |}
                   (alloc_block k s0) = (Ok (), s0)).
  { intros k s0. unfold RawMemory_dtor, RawMemory_Deallocate. cbn [buffer_].
    rewrite (operator_delete_block _ _ _ (block_is_new k s0)).
    by rewrite free_alloc_block. }
  assert (Hnull : ∀ s0 : state, operator_delete nullptr s0 = (Ok (), s0))
    by done.
  set (s1 := alloc_block n s). set (a := new_buffer n s).
  set (s2 := alloc_block m s1). set (b := new_buffer m s1).
  assert (Ha2 : block_is s2 a (replicate n Raw))
    by apply block_is_alloc, block_is_new.
  assert (Hsep : separate a b) by (eapply separate_new; apply block_is_new).
  split; [| split; [| split] ].
  - eexists _, _. split; [apply RawMemory_ctor_eq |]. cbn [capacity_ buffer_].
    split; [done |]. split; [apply block_is_new |].
    split; [| split; [| apply Hdel] ].
    + intros ->. unfold new_buffer, alloc_block. by rewrite !decide_False by lia.
    + intros Hn. exists (fresh (dom (heap s))). unfold new_buffer.
      rewrite decide_True by done. split; [done | apply fresh_heap_None].
  - rewrite (bind_Ok _ _ _ _ _ (RawMemory_ctor_eq _ _)).
    unfold RawMemory_move_ctor, RawMemory_dtor at 1, RawMemory_Deallocate.
    cbn [buffer_ capacity_]. rewrite (bind_Ok _ _ _ _ _ (Hnull _)).
    apply Hdel.
  - rewrite (bind_Ok _ _ _ _ _ (RawMemory_ctor_eq _ _)).
    rewrite (bind_Ok _ _ _ _ _ (RawMemory_ctor_eq _ _)).
    fold s1 a s2 b. unfold RawMemory_move_assign, RawMemory_Deallocate.
    cbn [buffer_ capacity_]. rewrite bind_assoc.
    rewrite (bind_Ok _ _ _ _ _ (operator_delete_block _ _ _ Ha2)).
    rewrite bind_ret. cbn [fst snd].
    unfold RawMemory_dtor, RawMemory_Deallocate. cbn [buffer_].
    rewrite (bind_Ok _ _ _ _ _ (Hnull _)).
    erewrite operator_delete_block
      by (apply block_is_free_other; [done | apply block_is_new]).
    rewrite free_block_comm. unfold s2, b. rewrite free_alloc_block.
    unfold s1, a. by rewrite free_alloc_block.
  - rewrite (bind_Ok _ _ _ _ _ (RawMemory_ctor_eq _ _)).
    rewrite (bind_Ok _ _ _ _ _ (RawMemory_ctor_eq _ _)).
    fold s1 a s2 b. unfold RawMemory_Swap. cbn [buffer_ capacity_].
    unfold RawMemory_dtor, RawMemory_Deallocate. cbn [buffer_].
    rewrite (bind_Ok _ _ _ _ _ (operator_delete_block _ _ _ Ha2)).
    erewrite operator_delete_block
      by (apply block_is_free_other; [done | apply block_is_new]).
    rewrite free_block_comm. unfold s2, b. rewrite free_alloc_block.
    unfold s1, a. by rewrite free_alloc_block.
Qed.

Lemma assign_all_elementwise (A B : list T) w i :
  length A = length B →
  (assign_all A B w).1.1 !! i = A !! i ∨ (assign_all A B w).1.1 !! i = B !! i.
Proof.
  revert B w i. induction A as [| y A IH]; intros [| x B] w i Hlen;
    try done; [by left |].
  cbn [assign_all]. destruct (copy_assign y x w) as [[] w']; [| by left].
  specialize (IH B w' (pred i) ltac:(by injection Hlen)).
  destruct (assign_all A B w') as [[l b] w'']. cbn [fst snd] in *.
  destruct i as [| i]; [by right | exact IH].
Qed.

(** X22. Copy assignment that reuses the storage gives the basic
    guarantee only: when the source fits the capacity and a copy throws,
    the destination is still a vector in the same block, of the same size
    and capacity, but each of its elements is either the old one or
    already the one of the source; the source is unchanged. *)
Theorem copy_assign_basic_guarantee s this rhs buf rbuf xs ys cap rcap s' :
  this ≠ rhs →
  separate buf rbuf →
  represents s this buf xs cap →
  represents s rhs rbuf ys rcap →
  length ys ≤ cap →
  Vector_copy_assign this rhs s = (Throw, s') →
  ∃ xs', represents s' this buf xs' cap ∧
         length xs' = length xs ∧
         (∀ i, i < length xs →
            xs' !! i = xs !! i ∨ xs' !! i = ys !! i) ∧
         represents s' rhs rbuf ys rcap.
Proof.
  intros Hne Hsep Hr Hrr Hfit He. pose proof Hr as (Ho & Hlen & Hb).
  rewrite (Vector_copy_assign_eval s this rhs buf rbuf xs ys cap rcap
             Hne Hr Hrr Hsep) in He.
  unfold copy_assigned in He. rewrite decide_False in He by lia.
  cbv zeta in He.
  assert (Hpl : length (take (length ys) xs) = length (take (length xs) ys))
    by (rewrite !length_take; lia).
  pose proof (assign_all_length _ _ (env s) Hpl) as Hal.
  pose proof (λ i, assign_all_elementwise _ _ (env s) i Hpl) as Hel.
  destruct (assign_all (take (length ys) xs) (take (length xs) ys) (env s))
    as [[l b] w]. cbn [fst snd] in *.
  assert (Hset : ∀ xs', length xs' = length xs →
            represents (set_block buf (slots_of xs' cap) s) this buf xs' cap).
  { intros xs' Hl. split; [by rewrite objs_set_block, Hl |].
    split; [lia |]. eapply block_is_set; [done |].
    rewrite !length_slots_of; lia. }
  destruct b; cbn [negb] in He.
  - destruct (decide (length ys < length xs)); [done |].
    destruct (copy_all (drop (length xs) ys) w) as [[] w2]; cbn [fst snd] in He;
      [done |].
    injection He as <-. exists (take (length xs) ys).
    assert (Hl : length (take (length xs) ys) = length xs)
      by (rewrite length_take; lia).
    split; [by apply represents_set_env, Hset |]. split; [done |].
    split; [| by apply represents_set_env, represents_other_set_block].
    intros i Hi. right. by apply lookup_take_lt.
  - injection He as <-. exists (l ++ drop (length ys) xs).
    assert (Hl : length (l ++ drop (length ys) xs) = length xs)
      by (rewrite length_app, Hal, length_take, length_drop; lia).
    split; [by apply represents_set_env, Hset |]. split; [done |].
    split; [| by apply represents_set_env, represents_other_set_block].
    intros i Hi. destruct (decide (i < length l)) as [Hil | Hil].
    + rewrite lookup_app_l by done.
      rewrite Hal, length_take in Hil.
      destruct (Hel i) as [-> | ->].
      * left. apply lookup_take_lt. lia.
      * right. apply lookup_take_lt. lia.
    + left. rewrite lookup_app_r by lia. rewrite lookup_drop.
      f_equal. rewrite Hal, length_take in *. lia.
Qed.

End Storage.

Section ErasingLast.
Context `{P : Payload}.

(** X23. [Erase] of the last element is [PopBack]: whatever the payload,
    it shifts nothing, so it returns, with the position it was given, and
    leaves the state [PopBack] leaves. *)
Theorem Erase_last_is_PopBack s this buf l x cap :
  represents s this buf (l ++ [x]) cap →
  ∃ s', Vector_Erase this (ptr_add buf (length l)) s
        = (Ok (ptr_add buf (length l)), s') ∧
        Vector_PopBack this s = (Ok (), s') ∧
        represents s' this buf l cap.
Proof.
  intros Hr. pose proof Hr as (Ho & Hlen & Hb).
  rewrite (Vector_PopBack_eval _ _ _ _ _ _ Hr).
  rewrite (Vector_Erase_eval _ _ _ _ _ _ _ Hr).
  cbn [shift_copy fst snd]. rewrite app_nil_r.
  assert (Hid : set_env (env s) (updated this buf cap l s)
                = updated this buf cap l s).
  { rewrite <- (set_env_id (updated this buf cap l s)) at 2. f_equal.
    unfold updated. by norm_state. }
  rewrite Hid. exists (updated this buf cap l s).
  split; [by destruct relocate_by_move |]. split; [done |].
  eapply represents_updated; [done | by apply length_slots_of |].
  revert Hlen. rewrite length_app. lia.
Qed.

End ErasingLast.

(** * The invariant, call by call *)

Section Contract.
Context `{P : Payload}.

(** X24. The public operations preserve the invariant within their
    contract.  The moves of the payload are [noexcept]; a constructor is
    called on storage that holds no vector, any other operation on a
    vector that satisfies the invariant; the other vector of a copy, a
    move or a swap satisfies it and shares no block with this one; an
    index or a position is within the vector, an inserted value is a live
    object, [PopBack] has an element to remove, and a number of slots
    asked of the sized constructor, [Reserve] or [Resize] is one the
    allocator can serve.  Then the call returns or throws, and either way
    the vector satisfies the invariant afterwards (after the destructor,
    and after a constructor that throws, there is no vector), and so does
    the other vector. *)
Theorem invariant_within_contract s this c :
  noexcept_moves →
  (if is_ctor c then objs s !! this = None else Vector_invariant s this) →
  (∀ other, other_operand c = Some other →
     Vector_invariant s other ∧ owns_apart s this other) →
  valid_call s this c →
  ∃ o s',
    run_call this c s = (o, s') ∧
    is_Abort o = false ∧
    (if is_dtor c || (is_ctor c && is_Throw o)
     then objs s' !! this = None
     else Vector_invariant s' this) ∧
    ∀ other, other_operand c = Some other → Vector_invariant s' other.
Proof.
  intros Hmoves Hthis Hother Hv.
  destruct (run_call this c s) as [o s'] eqn:He. exists o, s'.
  split; [done |]. destruct (is_ctor c) eqn:Hc.
  - assert (Ho' : ∀ other, other_operand c = Some other →
                    Vector_invariant s other)
      by (intros other H; apply (Hother other H)).
    pose proof (run_call_ctor_valid s this c Hc Hthis Ho') as Hna.
    rewrite He in Hna. cbn [fst] in Hna. split; [done |].
    destruct (run_call_ctor _ _ _ _ _ Hc Hthis Ho' He) as [H1 H2].
    assert (Hd : is_dtor c = false) by by destruct c.
    rewrite Hd. by destruct o.
  - destruct (invariant_represents _ _ Hthis) as (buf & xs & cap & Hr).
    pose proof (run_call_valid _ _ _ _ _ _ Hmoves Hc Hr Hother Hv) as Hna.
    rewrite He in Hna. cbn [fst] in Hna. split; [done |].
    pose proof (run_call_this _ _ _ _ _ _ _ _ Hc Hr Hother He) as H1.
    cbn [andb orb]. rewrite orb_false_r.
    destruct o; [| | done].
    + split; [done |]. intros other Hop.
      destruct (Hother other Hop) as [Hri Hap].
      exact (run_call_other _ _ _ _ _ _ _ _ _ Hc Hr Hop Hri Hap He).
    + split; [done |]. intros other Hop.
      destruct (Hother other Hop) as [Hri Hap].
      exact (run_call_other _ _ _ _ _ _ _ _ _ Hc Hr Hop Hri Hap He).
Qed.

End Contract.

(** * The further theorems at work *)

Lemma represents_two_vectors_0 (P : Payload) l0 cap0 l1 cap1 w :
  length l0 ≤ cap0 →
  represents (two_vectors P l0 cap0 l1 cap1 w) 0 (Ptr (Some 0) 0) l0 cap0.
Proof. intros Hlen. by repeat split. Qed.

Lemma represents_two_vectors_1 (P : Payload) l0 cap0 l1 cap1 w :
  length l1 ≤ cap1 →
  represents (two_vectors P l0 cap0 l1 cap1 w) 1 (Ptr (Some 1) 0) l1 cap1.
Proof. intros Hlen. by repeat split. Qed.

(** Beside the vector 1 at address 0, a vector of two value-initialised
    numbers is constructed at address 1. *)
Lemma sized_constructor_witness :
  ∃ s', Vector_sized_ctor 1 2 (one_vector copied_numbers [1] 1 5) = (Ok (), s') ∧
        Vector_elems s' 1 = Some [0; 0] ∧
        Vector_capacity s' 1 = Some 2.
Proof.
  destruct (sized_constructor (P := copied_numbers)
              (one_vector copied_numbers [1] 1 5) 1 2 eq_refl
              ltac:(split; vm_compute; [reflexivity | discriminate]))
    as [Hok _].
  destruct (Hok eq_refl) as (s' & He & Hel & _ & Hc & _).
  exists s'. split; [exact He |]. split; [exact Hel | exact Hc].
Defined.

(** The vector 1, 2, 3 of capacity 5 is copied to address 1: the copy has
    capacity 3. *)
Lemma copy_constructor_witness :
  ∃ s', Vector_copy_ctor 1 0 (one_vector copied_numbers [1; 2; 3] 5 9)
        = (Ok (), s') ∧
        Vector_elems s' 1 = Some [1; 2; 3] ∧
        Vector_capacity s' 1 = Some 3 ∧
        Vector_capacity s' 0 = Some 5.
Proof.
  destruct (copy_constructor (P := copied_numbers)
              (one_vector copied_numbers [1; 2; 3] 5 9) 1 0 _ _ _ eq_refl
              (represents_one_vector copied_numbers [1; 2; 3] 5 9
                 ltac:(vm_compute; lia))) as [Hok _].
  destruct (Hok eq_refl) as (s' & buf' & He & Hr & _ & Hro).
  exists s'. split; [exact He |].
  split; [exact (represents_elems _ _ _ _ _ Hr) |].
  split; [exact (represents_capacity _ _ _ _ _ Hr) |].
  exact (represents_capacity _ _ _ _ _ Hro).
Defined.

(** The vector 1, 2, 3 is destroyed: no object, no block. *)
Lemma destructor_releases_witness :
  ∃ s', Vector_dtor 0 (one_vector copied_numbers [1; 2; 3] 5 9) = (Ok (), s') ∧
        objs s' = delete 0 (objs (one_vector copied_numbers [1; 2; 3] 5 9)) ∧
        heap s' = delete 0 (heap (one_vector copied_numbers [1; 2; 3] 5 9)).
Proof.
  destruct (destructor_releases (P := copied_numbers) _ _ _ _ _
              (represents_one_vector copied_numbers [1; 2; 3] 5 9
                 ltac:(vm_compute; lia))) as (s' & He & Ho & Hh & _).
  exists s'. split; [exact He |]. split; [exact Ho | exact Hh].
Defined.

(** The vector 1, 2, 3 is copied to address 1 and the copy is destroyed. *)
Lemma copy_then_destroy_witness :
  ∃ s', (Vector_copy_ctor 1 0 >> Vector_dtor 1)
          (one_vector copied_numbers [1; 2; 3] 5 9) = (Ok (), s') ∧
        objs s' = objs (one_vector copied_numbers [1; 2; 3] 5 9) ∧
        heap s' = heap (one_vector copied_numbers [1; 2; 3] 5 9).
Proof.
  exact (copy_then_destroy (P := copied_numbers)
           (one_vector copied_numbers [1; 2; 3] 5 9) 1 0 _ _ _ eq_refl
           (represents_one_vector copied_numbers [1; 2; 3] 5 9
              ltac:(vm_compute; lia)) eq_refl).
Defined.

(** The vector 1, 2, 3 is moved to address 1 and the source destroyed. *)
Lemma move_then_destroy_source_witness :
  ∃ s', (Vector_move_ctor 1 0 >> Vector_dtor 0)
          (one_vector copied_numbers [1; 2; 3] 5 9) = (Ok (), s') ∧
        heap s' = heap (one_vector copied_numbers [1; 2; 3] 5 9) ∧
        Vector_elems s' 1 = Some [1; 2; 3].
Proof.
  destruct (move_then_destroy_source (P := copied_numbers)
              (one_vector copied_numbers [1; 2; 3] 5 9) 1 0 _ _ _
              ltac:(lia)
              (represents_one_vector copied_numbers [1; 2; 3] 5 9
                 ltac:(vm_compute; lia))) as (s' & He & Hh & _ & Hr).
  exists s'. split; [exact He |]. split; [exact Hh |].
  exact (represents_elems _ _ _ _ _ Hr).
Defined.

(** The vectors 1, 2, 3 and 4, 5 are swapped, once and twice. *)
Lemma Swap_exchanges_witness :
  (∃ s', Vector_Swap 0 1 (two_vectors copied_numbers [1; 2; 3] 3 [4; 5] 2 0)
         = (Ok (), s') ∧
         Vector_elems s' 0 = Some [4; 5] ∧
         Vector_elems s' 1 = Some [1; 2; 3]) ∧
  (Vector_Swap 0 1 >> Vector_Swap 0 1)
    (two_vectors copied_numbers [1; 2; 3] 3 [4; 5] 2 0)
  = (Ok (), two_vectors copied_numbers [1; 2; 3] 3 [4; 5] 2 0).
Proof.
  destruct (Swap_exchanges (P := copied_numbers) _ 0 1 _ _ _ _ _ _
              (represents_two_vectors_0 copied_numbers [1; 2; 3] 3 [4; 5] 2 0
                 ltac:(vm_compute; lia))
              (represents_two_vectors_1 copied_numbers [1; 2; 3] 3 [4; 5] 2 0
                 ltac:(vm_compute; lia)))
    as ((s' & He & _ & Hr0 & Hr1) & Htwice & _).
  split; [| exact Htwice].
  exists s'. split; [exact He |].
  split; [exact (represents_elems _ _ _ _ _ Hr0) |].
  exact (represents_elems _ _ _ _ _ Hr1).
Defined.

(** The vector 1, 2, 3: the element of index 1 is 2, and there is none of
    index 3. *)
Lemma element_access_witness :
  Vector_index 0 1 (one_vector copied_numbers [1; 2; 3] 5 9)
  = (Ok (Ptr (Some 0) 1), one_vector copied_numbers [1; 2; 3] 5 9) ∧
  load (Ptr (Some 0) 1) (one_vector copied_numbers [1; 2; 3] 5 9)
  = (Ok 2, one_vector copied_numbers [1; 2; 3] 5 9) ∧
  Vector_index 0 3 (one_vector copied_numbers [1; 2; 3] 5 9)
  = (Abort, one_vector copied_numbers [1; 2; 3] 5 9).
Proof.
  destruct (element_access (P := copied_numbers) _ _ _ _ _
              (represents_one_vector copied_numbers [1; 2; 3] 5 9
                 ltac:(vm_compute; lia)))
    as (_ & _ & _ & _ & Hin & Hout).
  destruct (Hin 1 2 eq_refl) as [Hi Hl].
  destruct (Hout 3 ltac:(vm_compute; lia)) as [Ho _].
  split; [exact Hi |]. split; [exact Hl | exact Ho].
Defined.

(** [PopBack] on the vector 1, 2, 3, and on an empty vector of capacity
    2. *)
Lemma PopBack_removes_last_witness :
  (∃ s', Vector_PopBack 0 (one_vector copied_numbers [1; 2; 3] 5 9)
         = (Ok (), s') ∧
         Vector_elems s' 0 = Some [1; 2] ∧
         Vector_capacity s' 0 = Some 5) ∧
  Vector_PopBack 0 (one_vector copied_numbers [] 2 9)
  = (Abort, one_vector copied_numbers [] 2 9).
Proof.
  destruct (PopBack_removes_last (P := copied_numbers) _ _ _ _ _
              (represents_one_vector copied_numbers [1; 2; 3] 5 9
                 ltac:(vm_compute; lia))) as [_ Hlast].
  destruct (PopBack_removes_last (P := copied_numbers) _ _ _ _ _
              (represents_one_vector copied_numbers [] 2 9
                 ltac:(vm_compute; lia))) as [Hempty _].
  split; [| exact (Hempty eq_refl)].
  destruct (Hlast [1; 2] 3 eq_refl) as (s' & He & Hr & _).
  exists s'. split; [exact He |].
  split; [exact (represents_elems _ _ _ _ _ Hr) |].
  exact (represents_capacity _ _ _ _ _ Hr).
Defined.

(** A copy of its own first element is pushed onto the full vector 1, 2, 3
    and popped again. *)
Lemma PushBack_then_PopBack_witness :
  ∃ s1 s2,
    Vector_PushBack 0 (ByCopy (Ptr (Some 0) 0))
      (one_vector copied_numbers [1; 2; 3] 3 9) = (Ok (), s1) ∧
    Vector_PopBack 0 s1 = (Ok (), s2) ∧
    Vector_elems s2 0 = Some [1; 2; 3] ∧
    Vector_capacity s2 0 = Some 6.
Proof.
  destruct (Vector_PushBack 0 (ByCopy (Ptr (Some 0) 0))
              (one_vector copied_numbers [1; 2; 3] 3 9)) as [o s1] eqn:He.
  assert (Ho : o = Ok ()) by (apply (f_equal fst) in He; exact (eq_sym He)).
  subst o.
  destruct (PushBack_then_PopBack (P := copied_numbers) _ _ _ _ _
              (ByCopy (Ptr (Some 0) 0)) 1 s1
              (represents_one_vector copied_numbers [1; 2; 3] 3 9
                 ltac:(vm_compute; lia)) eq_refl He)
    as (s2 & Hp & Hel & _ & Hc).
  exists s1, s2. split; [reflexivity |]. split; [exact Hp |].
  split; [exact Hel | exact Hc].
Defined.

(** The vector 1, 2, 3 of capacity 5 is resized to 1. *)
Lemma Resize_shrinks_witness :
  ∃ s', Vector_Resize 0 1 (one_vector copied_numbers [1; 2; 3] 5 9)
        = (Ok (), s') ∧
        Vector_elems s' 0 = Some [1] ∧
        Vector_capacity s' 0 = Some 5.
Proof.
  destruct (Resize_shrinks (P := copied_numbers) _ _ _ _ _ 1
              (represents_one_vector copied_numbers [1; 2; 3] 5 9
                 ltac:(vm_compute; lia)) ltac:(vm_compute; lia))
    as (s' & He & Hr & _).
  exists s'. split; [exact He |].
  split; [exact (represents_elems _ _ _ _ _ Hr) |].
  exact (represents_capacity _ _ _ _ _ Hr).
Defined.

(** The full vector 1, 2 with a budget of two copies is resized to 4: the
    two elements are copied to a block of 4 slots, the value initialisation
    throws, and the vector keeps its elements with capacity 4. *)
Lemma Resize_grows_witness :
  (Vector_Resize 0 4 (one_vector copied_numbers [1; 2] 2 2)).1 = Throw ∧
  Vector_elems (Vector_Resize 0 4 (one_vector copied_numbers [1; 2] 2 2)).2 0
  = Some [1; 2] ∧
  Vector_capacity (Vector_Resize 0 4 (one_vector copied_numbers [1; 2] 2 2)).2 0
  = Some 4.
Proof.
  destruct (Resize_grows (P := copied_numbers) _ _ _ _ _ 4
              (represents_one_vector copied_numbers [1; 2] 2 2
                 ltac:(vm_compute; lia)) ltac:(vm_compute; lia)
              ltac:(split; vm_compute; [reflexivity | discriminate]))
    as (_ & Hthrow & _).
  destruct (Vector_Resize 0 4 (one_vector copied_numbers [1; 2] 2 2))
    as [o s'] eqn:He.
  assert (Ho : o = Throw) by (apply (f_equal fst) in He; exact (eq_sym He)).
  subst o.
  destruct (Hthrow (or_intror eq_refl) s' eq_refl)
    as [(buf' & cap' & Hr & _) _].
  split; [reflexivity |].
  split; [exact (represents_elems _ _ _ _ _ Hr) |].
  apply (f_equal snd) in He. cbn [snd] in He. rewrite <- He. reflexivity.
Defined.

(** The element of index 1 of the vector 1, 2, 3 is erased. *)
Lemma Erase_removes_witness :
  ∃ s', Vector_Erase 0 (Ptr (Some 0) 1) (one_vector moved_numbers [1; 2; 3] 3 0)
        = (Ok (Ptr (Some 0) 1), s') ∧
        Vector_elems s' 0 = Some [1; 3] ∧
        Vector_capacity s' 0 = Some 3.
Proof.
  destruct (Erase_removes (P := moved_numbers) _ _ _ _ _ 1
              (represents_one_vector moved_numbers [1; 2; 3] 3 0
                 ltac:(vm_compute; lia)) ltac:(vm_compute; lia))
    as (Hok & Hret & _).
  destruct (Hret eq_refl eq_refl) as (s' & He & _).
  destruct (Hok _ s' He) as (_ & Hr & _).
  exists s'. split; [exact He |].
  split; [exact (represents_elems _ _ _ _ _ Hr) |].
  exact (represents_capacity _ _ _ _ _ Hr).
Defined.

(** The first element of the vector 1, 2, 3 is erased with no budget for
    the copy assignment: the program is terminated. *)
Lemma Erase_terminates_witness :
  is_Abort
    (Vector_Erase 0 (Ptr (Some 0) 0)
       (one_vector assignable_numbers [1; 2; 3] 3 0)).1 = true.
Proof.
  exact (Erase_terminates (P := assignable_numbers) _ _ _ _ _ 0 1
           (represents_one_vector assignable_numbers [1; 2; 3] 3 0
              ltac:(vm_compute; lia)) eq_refl eq_refl eq_refl eq_refl).
Defined.

(** [Erase(end())] on the vector 1, 2, 3. *)
Lemma position_checks_witness :
  Vector_Erase 0 (Ptr (Some 0) 3) (one_vector copied_numbers [1; 2; 3] 5 9)
  = (Abort, one_vector copied_numbers [1; 2; 3] 5 9) ∧
  Vector_Insert 0 (Ptr (Some 0) 4) (ByCopy (Ptr (Some 0) 0))
    (one_vector copied_numbers [1; 2; 3] 5 9)
  = (Abort, one_vector copied_numbers [1; 2; 3] 5 9).
Proof.
  destruct (position_checks (P := copied_numbers) _ _ _ _ _
              (represents_one_vector copied_numbers [1; 2; 3] 5 9
                 ltac:(vm_compute; lia))) as (Hins & _ & Hend).
  split; [exact Hend |].
  exact (proj2 (Hins (Ptr (Some 0) 4) (ByCopy (Ptr (Some 0) 0))
                  (or_intror (le_n 4)))).
Defined.

(** A copy of its first element is inserted into the full vector 1, 2, 3
    with a budget of two copies: the second copy of the relocation
    throws. *)
Lemma Insert_strong_exception_safety_witness :
  (Vector_Insert 0 (Ptr (Some 0) 1) (ByCopy (Ptr (Some 0) 0))
     (one_vector copied_numbers [1; 2; 3] 3 2)).1 = Throw ∧
  objs (Vector_Insert 0 (Ptr (Some 0) 1) (ByCopy (Ptr (Some 0) 0))
          (one_vector copied_numbers [1; 2; 3] 3 2)).2
  = objs (one_vector copied_numbers [1; 2; 3] 3 2) ∧
  heap (Vector_Insert 0 (Ptr (Some 0) 1) (ByCopy (Ptr (Some 0) 0))
          (one_vector copied_numbers [1; 2; 3] 3 2)).2
  = heap (one_vector copied_numbers [1; 2; 3] 3 2).
Proof.
  destruct (Insert_strong_exception_safety (P := copied_numbers) _ _ _ _ _ 1
              (Ptr (Some 0) 0) 1
              (represents_one_vector copied_numbers [1; 2; 3] 3 2
                 ltac:(vm_compute; lia)) ltac:(vm_compute; lia) eq_refl
              eq_refl (or_intror (or_introl eq_refl)))
    as [Hthrow _].
  unfold ptr_add in Hthrow. cbn [block off Nat.add] in Hthrow.
  destruct (Vector_Insert 0 (Ptr (Some 0) 1) (ByCopy (Ptr (Some 0) 0))
              (one_vector copied_numbers [1; 2; 3] 3 2)) as [o s'] eqn:He.
  assert (Ho : o = Throw) by (apply (f_equal fst) in He; exact (eq_sym He)).
  subst o. destruct (Hthrow s' eq_refl) as (Hobjs & Hheap & _).
  split; [reflexivity |]. split; [exact Hobjs | exact Hheap].
Defined.

(** A copy of its last element is inserted at index 1 of the vector 1, 2,
    3 of capacity 5, for numbers whose moves are [noexcept]. *)
Lemma Insert_with_room_witness :
  ∃ s', Vector_Insert 0 (Ptr (Some 0) 1) (ByCopy (Ptr (Some 0) 2))
          (one_vector moved_numbers [1; 2; 3] 5 9)
        = (Ok (Ptr (Some 0) 1), s') ∧
        Vector_elems s' 0 = Some [1; 3; 2; 3] ∧
        Vector_buffer s' 0 = Some (Ptr (Some 0) 0).
Proof.
  destruct (Insert_with_room (P := moved_numbers) _ _ _ _ _ 1
              (ByCopy (Ptr (Some 0) 2)) 3
              (represents_one_vector moved_numbers [1; 2; 3] 5 9
                 ltac:(vm_compute; lia))
              ltac:(vm_compute; lia) ltac:(vm_compute; lia) eq_refl)
    as [Hok Hret].
  destruct (Hret (or_intror (conj eq_refl eq_refl))
              ltac:(intros; reflexivity)) as [s' He].
  destruct (Hok _ s' He) as [_ Hr].
  exists s'. split; [exact He |].
  split; [exact (represents_elems _ _ _ _ _ Hr) |].
  exact (represents_buffer _ _ _ _ _ Hr).
Defined.

(** A copy of the first element of the vector 4, 5 is emplaced at the back
    of the full vector 1, 2, 3. *)
Lemma EmplaceBack_returns_new_element_witness :
  ∃ p s',
    Vector_EmplaceBack 0 (ByCopy (Ptr (Some 1) 0))
      (two_vectors plain_numbers [1; 2; 3] 3 [4; 5] 2 ()) = (Ok p, s') ∧
    load p s' = (Ok 4, s') ∧
    Vector_elems s' 0 = Some [1; 2; 3; 4].
Proof.
  destruct (Vector_EmplaceBack 0 (ByCopy (Ptr (Some 1) 0))
              (two_vectors plain_numbers [1; 2; 3] 3 [4; 5] 2 ()))
    as [o s'] eqn:He.
  destruct o as [p | |];
    [| exfalso; apply (f_equal fst) in He; discriminate He
     | exfalso; apply (f_equal fst) in He; discriminate He].
  destruct (EmplaceBack_returns_new_element (P := plain_numbers) _ _ _ _ _
              (ByCopy (Ptr (Some 1) 0)) 4 p s'
              (represents_two_vectors_0 plain_numbers [1; 2; 3] 3 [4; 5] 2 ()
                 ltac:(vm_compute; lia)) eq_refl He)
    as (Hl & _ & Hel).
  exists p, s'. split; [reflexivity |]. split; [exact Hl | exact Hel].
Defined.

(** The first element of the vector 4, 5 is moved into the full vector 1,
    2, 3 at index 1. *)
Lemma Insert_rvalue_witness :
  ∃ p s',
    Vector_Insert 0 (Ptr (Some 0) 1) (ByMove (Ptr (Some 1) 0))
      (two_vectors plain_numbers [1; 2; 3] 3 [4; 5] 2 ()) = (Ok p, s') ∧
    Vector_elems s' 0 = Some [1; 4; 2; 3] ∧
    load (Ptr (Some 1) 0) s' = (Ok 0, s').
Proof.
  destruct (Insert_rvalue (P := plain_numbers)
              (two_vectors plain_numbers [1; 2; 3] 3 [4; 5] 2 ()) 0
              (Ptr (Some 0) 0) [1; 2; 3] 3 1 (Ptr (Some 1) 0) 4
              eq_refl eq_refl
              (represents_two_vectors_0 plain_numbers [1; 2; 3] 3 [4; 5] 2 ()
                 ltac:(vm_compute; lia))
              ltac:(vm_compute; lia)
              ltac:(by exists 1, (@slots_of plain_numbers [4; 5] 2)))
    as (p & s' & He & _ & Hel & Hl & _).
  exists p, s'. split; [exact He |]. split; [exact Hel | exact Hl].
Defined.

(** The vector 1 of capacity 1 reserves 4 slots and takes copies of the
    elements of the vector 4, 5. *)
Lemma Reserve_then_append_witness :
  ∃ s1 s2,
    Vector_Reserve 0 4 (two_vectors plain_numbers [1] 1 [4; 5] 2 ())
    = (Ok (), s1) ∧
    push_backs 0 [ByCopy (Ptr (Some 1) 0); ByCopy (Ptr (Some 1) 1)] s1
    = (Ok [4; 4], s2) ∧
    Vector_buffer s2 0 = Vector_buffer s1 0 ∧
    Vector_size s2 0 = Some 3.
Proof.
  destruct (Vector_Reserve 0 4 (two_vectors plain_numbers [1] 1 [4; 5] 2 ()))
    as [o s1] eqn:Hres.
  assert (Ho : o = Ok ()) by (apply (f_equal fst) in Hres; exact (eq_sym Hres)).
  subst o.
  assert (Hs1 : s1 = (Vector_Reserve 0 4
                        (two_vectors plain_numbers [1] 1 [4; 5] 2 ())).2)
    by (by rewrite Hres).
  destruct (push_backs 0 [ByCopy (Ptr (Some 1) 0); ByCopy (Ptr (Some 1) 1)] s1)
    as [o s2] eqn:Hpush.
  assert (Ho : ∃ cs, o = Ok cs).
  { apply (f_equal fst) in Hpush. cbn [fst] in Hpush. rewrite Hs1 in Hpush.
    eexists. rewrite <- Hpush. vm_compute. reflexivity. }
  destruct Ho as [cs ->].
  destruct (Reserve_then_append (P := plain_numbers) _ _ _ _ _ 4
              [ByCopy (Ptr (Some 1) 0); ByCopy (Ptr (Some 1) 1)] s1 cs s2
              (represents_two_vectors_0 plain_numbers [1] 1 [4; 5] 2 ()
                 ltac:(vm_compute; lia)) Hres ltac:(vm_compute; lia) Hpush)
    as (-> & Hbuf & _ & Hsize).
  exists s1, s2. split; [reflexivity |]. split; [exact Hpush |].
  split; [exact Hbuf | exact Hsize].
Defined.

(** The vector 1, 2, 3 at block 0 reserves 10 slots. *)
Lemma Reserve_releases_old_block_witness :
  ∃ s', Vector_Reserve 0 10 (one_vector moved_numbers [1; 2; 3] 3 0)
        = (Ok (), s') ∧
        heap s' !! 0 = None ∧
        Vector_elems s' 0 = Some [1; 2; 3] ∧
        Vector_capacity s' 0 = Some 10.
Proof.
  destruct (Vector_Reserve 0 10 (one_vector moved_numbers [1; 2; 3] 3 0))
    as [o s'] eqn:He.
  assert (Ho : o = Ok ()) by (apply (f_equal fst) in He; exact (eq_sym He)).
  subst o.
  destruct (Reserve_releases_old_block (P := moved_numbers) _ _ _ _ _ 10 s'
              (represents_one_vector moved_numbers [1; 2; 3] 3 0
                 ltac:(vm_compute; lia)) ltac:(vm_compute; lia) He)
    as (a' & Hr & _ & Hold & _).
  exists s'. split; [reflexivity |]. split; [exact (Hold 0 eq_refl) |].
  split; [exact (represents_elems _ _ _ _ _ Hr) |].
  exact (represents_capacity _ _ _ _ _ Hr).
Defined.

(** The vector 4, 5 is assigned to the vector 1, 2, 3 with a budget of one
    copy: the second assignment throws and the destination is 4, 2, 3. *)
Lemma copy_assign_basic_guarantee_witness :
  (Vector_copy_assign 0 1
     (two_vectors copied_numbers [1; 2; 3] 3 [4; 5] 2 1)).1 = Throw ∧
  Vector_size
    (Vector_copy_assign 0 1
       (two_vectors copied_numbers [1; 2; 3] 3 [4; 5] 2 1)).2 0 = Some 3 ∧
  Vector_elems
    (Vector_copy_assign 0 1
       (two_vectors copied_numbers [1; 2; 3] 3 [4; 5] 2 1)).2 0
  = Some [4; 2; 3] ∧
  Vector_elems
    (Vector_copy_assign 0 1
       (two_vectors copied_numbers [1; 2; 3] 3 [4; 5] 2 1)).2 1
  = Some [4; 5].
Proof.
  destruct (Vector_copy_assign 0 1
              (two_vectors copied_numbers [1; 2; 3] 3 [4; 5] 2 1))
    as [o s'] eqn:He.
  assert (Ho : o = Throw) by (apply (f_equal fst) in He; exact (eq_sym He)).
  subst o.
  destruct (copy_assign_basic_guarantee (P := copied_numbers) _ 0 1 _ _ _ _ _ _
              s' ltac:(lia) (separate_blocks 0 1 0 0 ltac:(lia))
              (represents_two_vectors_0 copied_numbers [1; 2; 3] 3 [4; 5] 2 1
                 ltac:(vm_compute; lia))
              (represents_two_vectors_1 copied_numbers [1; 2; 3] 3 [4; 5] 2 1
                 ltac:(vm_compute; lia))
              ltac:(vm_compute; lia) He)
    as (xs' & Hr & Hlen & _ & Hrr).
  cbn [fst snd]. split; [reflexivity |].
  split; [rewrite (represents_size _ _ _ _ _ Hr), Hlen; reflexivity |].
  split; [| exact (represents_elems _ _ _ _ _ Hrr)].
  apply (f_equal snd) in He. cbn [snd] in He. rewrite <- He. reflexivity.
Defined.

(** The last element of the vector 1, 2, 3 is erased. *)
Lemma Erase_last_is_PopBack_witness :
  ∃ s', Vector_Erase 0 (Ptr (Some 0) 2) (one_vector copied_numbers [1; 2; 3] 3 0)
        = (Ok (Ptr (Some 0) 2), s') ∧
        Vector_PopBack 0 (one_vector copied_numbers [1; 2; 3] 3 0)
        = (Ok (), s') ∧
        Vector_elems s' 0 = Some [1; 2].
Proof.
  destruct (Erase_last_is_PopBack (P := copied_numbers) _ _ _ [1; 2] 3 _
              (represents_one_vector copied_numbers [1; 2; 3] 3 0
                 ltac:(vm_compute; lia))) as (s' & He & Hp & Hr).
  exists s'. split; [exact He |]. split; [exact Hp |].
  exact (represents_elems _ _ _ _ _ Hr).
Defined.

(** Beside the vector 1, a [RawMemory] of two slots is move-assigned one
    of three slots, and both are destroyed: the state is as before. *)
Lemma RawMemory_ownership_witness :
  (a <- RawMemory_ctor 2;;
   b <- RawMemory_ctor 3;;
   r <- RawMemory_move_assign a b;;
   RawMemory_dtor (snd r) >> RawMemory_dtor (fst r))
    (one_vector plain_numbers [1] 1 ())
  = (Ok (), one_vector plain_numbers [1] 1 ()).
Proof.
  exact (proj1 (proj2 (proj2
           (RawMemory_ownership (P := plain_numbers)
              (one_vector plain_numbers [1] 1 ()) 2 3
              ltac:(split; vm_compute; [reflexivity | discriminate])
              ltac:(split; vm_compute; [reflexivity | discriminate]))))).
Defined.

(** The full vector 1, 2, 3 with no budget for a copy takes a copy of its
    first element at its end: the copy throws, and the vector satisfies
    the invariant afterwards. *)
Lemma invariant_within_contract_witness :
  (run_call 0 (Call_PushBack (ByCopy (Ptr (Some 0) 0)))
     (one_vector moved_numbers [1; 2; 3] 3 0)).1 = Throw ∧
  Vector_invariant
    (run_call 0 (Call_PushBack (ByCopy (Ptr (Some 0) 0)))
       (one_vector moved_numbers [1; 2; 3] 3 0)).2 0.
Proof.
  assert (Hr : represents (one_vector moved_numbers [1; 2; 3] 3 0) 0
                 (Ptr (Some 0) 0) [1; 2; 3] 3)
    by (repeat split; vm_compute; lia).
  destruct (invariant_within_contract (P := moved_numbers)
              (one_vector moved_numbers [1; 2; 3] 3 0) 0
              (Call_PushBack (ByCopy (Ptr (Some 0) 0)))
              (conj eq_refl eq_refl)
              (represents_invariant _ _ _ _ _ Hr)
              ltac:(intros other [=])
              (ex_intro _ 1 eq_refl))
    as (o & s' & He & _ & Hinv & _).
  rewrite He. cbn [fst snd].
  pose proof (f_equal fst He) as Ho. cbn [fst] in Ho.
  split; [exact (eq_sym Ho) |].
  rewrite <- Ho in Hinv. exact Hinv.
Defined.
